(** * ExcelMerger: name parsing, position normalisation, natural ordering
      and the summary aggregation of [excel_merger_app.py]

    Python [str] values are modelled as [list ascii]; one [ascii] stands for
    one code point in U+0000..U+00FF, so the character tables below
    ([str.lower], [str.isspace], [str.isdigit], the regex class [\d]) are
    Python's tables restricted to that range.  Every statement about a
    name or a tag below is a statement about names and tags of such code
    points. *)

From Stdlib Require Import List Ascii String NArith Bool Arith Lia QArith.
From Stdlib Require Import Permutation Sorted.
Import ListNotations.

Set Warnings "-register-all".

Close Scope Q_scope.
Close Scope Z_scope.
Open Scope nat_scope.
Open Scope list_scope.
Open Scope bool_scope.

(* ================================================================= *)
(** ** Text primitives *)

Definition str := list ascii.

(** A string literal read as a Python [str]. *)
Definition py (s : string) : str := list_ascii_of_string s.

Definition code (c : ascii) : N := N_of_ascii c.

Definition in_range (lo hi : N) (c : ascii) : bool :=
  (lo <=? code c)%N && (code c <=? hi)%N.

Definition char_eqb (a b : ascii) : bool := (code a =? code b)%N.

(** Characters changed by [str.lower]: A-Z and U+00C0..U+00DE except
    the multiplication sign U+00D7. *)
Definition is_upper (c : ascii) : bool :=
  in_range 65 90 c || (in_range 192 222 c && negb (code c =? 215)%N).

Definition char_lower (c : ascii) : ascii :=
  if is_upper c then ascii_of_N (code c + 32) else c.

(** [s.lower()] *)
Definition lower (s : str) : str := map char_lower s.

(** [c.isspace()]: TAB..CR, FS..US, SPACE, NEL, NBSP. *)
Definition isspace (c : ascii) : bool :=
  in_range 9 13 c || in_range 28 32 c || (code c =? 133)%N || (code c =? 160)%N.

(** The regex class [\d] (category Nd): 0-9. *)
Definition is_decimal (c : ascii) : bool := in_range 48 57 c.

(** [c.isdigit()]: the decimal digits and the superscripts
    U+00B2, U+00B3, U+00B9. *)
Definition char_isdigit (c : ascii) : bool :=
  is_decimal c || (code c =? 178)%N || (code c =? 179)%N || (code c =? 185)%N.

(** [t.isdigit()]: non-empty and every character is a digit. *)
Definition isdigit (t : str) : bool :=
  match t with
  | [] => false
  | _ => forallb char_isdigit t
  end.

(** [sys.get_int_max_str_digits()], which the program leaves at the
    interpreter's default: [int] refuses a longer run of digits. *)
Definition int_max_str_digits : N := 4300.

(** [int(t)] for a [t] with [t.isdigit()]: the decimal value, or [None]
    where Python raises [ValueError] (a superscript digit, or more
    digits than [int_max_str_digits]; leading zeros count). *)
Definition int_of_digits (t : str) : option N :=
  if forallb is_decimal t && (N.of_nat (List.length t) <=? int_max_str_digits)%N
  then Some (fold_left (fun acc c => (10 * acc + (code c - 48))%N) t 0%N)
  else None.

Fixpoint lstrip (s : str) : str :=
  match s with
  | c :: s' => if isspace c then lstrip s' else s
  | [] => []
  end.

Definition rstrip (s : str) : str := rev (lstrip (rev s)).

(** [s.strip()] *)
Definition strip (s : str) : str := rstrip (lstrip s).

(** [s.replace(c, "")] for a one-character [c]. *)
Definition remove_char (c : ascii) (s : str) : str :=
  filter (fun x => negb (char_eqb x c)) s.

(** [c in s] for a one-character [c]. *)
Definition has_char (c : ascii) (s : str) : bool := existsb (char_eqb c) s.

(** [s.split(sep)] for a one-character [sep]. *)
Fixpoint str_split (sep : ascii) (s : str) : list str :=
  match s with
  | [] => [[]]
  | c :: s' =>
      if char_eqb c sep then [] :: str_split sep s'
      else match str_split sep s' with
           | p :: ps => (c :: p) :: ps
           | [] => [[c]]
           end
  end.

(** [sep.join(parts)] for a one-character [sep]. *)
Fixpoint str_join (sep : ascii) (parts : list str) : str :=
  match parts with
  | [] => []
  | [p] => p
  | p :: ps => p ++ sep :: str_join sep ps
  end.

(** [a < b] on [str]: lexicographic on code points. *)
Fixpoint str_ltb (a b : str) : bool :=
  match a, b with
  | [], [] => false
  | [], _ :: _ => true
  | _ :: _, [] => false
  | x :: a', y :: b' =>
      if (code x <? code y)%N then true
      else if (code x =? code y)%N then str_ltb a' b'
      else false
  end.

Fixpoint str_eqb (a b : str) : bool :=
  match a, b with
  | [], [] => true
  | x :: a', y :: b' => char_eqb x y && str_eqb a' b'
  | _, _ => false
  end.

(** [s.startswith(p)] *)
Fixpoint startswith (p s : str) : bool :=
  match p, s with
  | [], _ => true
  | x :: p', y :: s' => char_eqb x y && startswith p' s'
  | _ :: _, [] => false
  end.

(** [s.endswith(p)] *)
Definition endswith (p s : str) : bool := startswith (rev p) (rev s).

(** [needle in hay] *)
Fixpoint contains (needle hay : str) : bool :=
  startswith needle hay ||
  match hay with
  | [] => false
  | _ :: hay' => contains needle hay'
  end.

(* ================================================================= *)
(** ** Sorting

    [list.sort] is a stable sort that only asks [x < y]; it is modelled by
    a stable insertion sort over the same comparison: an element is put
    before the first element that is not smaller than it. *)

Section Sort.
Context {A : Type} (ltb : A -> A -> bool).

Fixpoint insert_sorted (x : A) (l : list A) : list A :=
  match l with
  | [] => [x]
  | y :: l' => if ltb y x then y :: insert_sorted x l' else x :: l
  end.

Fixpoint sort_by (l : list A) : list A :=
  match l with
  | [] => []
  | x :: l' => insert_sorted x (sort_by l')
  end.
End Sort.

(* ================================================================= *)
(** ** [normalize_position] *)

Definition normalize_position (pos : option str) : str :=
  match pos with
  | None => []
  | Some pos =>
      let pos := remove_char " " (lower (strip pos)) in
      if has_char "+" pos then
        let parts := filter (fun p => negb (str_eqb p [])) (str_split "+" pos) in
        let parts := sort_by str_ltb parts in
        str_join "+" parts
      else pos
  end.

(* ================================================================= *)
(** ** Regular expressions with named groups

    The fragment of [re] that [NAME_RE] is written in. Matching is by
    backtracking in the order of Python's engine: the first alternative
    before the second, a greedy repetition longest first, a lazy one
    shortest first; the continuation [k] is the rest of the pattern. *)

Inductive regex : Type :=
| Lit (l : str)
    (* literal text; with re.IGNORECASE a letter matches both its cases *)
| Rep (cls : ascii -> bool) (lo : nat) (hi : option nat) (greedy : bool)
    (* cls{lo,hi} on a character class; hi = None is unbounded *)
| Seq (r1 r2 : regex)
| Alt (r1 r2 : regex)
| Opt (r : regex)                    (* (?:r)? *)
| Group (name : str) (r : regex)     (* (?P<name>r) *)
| Eol.                               (* $ *)

(** The groups captured so far, latest binding first. *)
Definition captures := list (str * str).

(** [m.group(name)]: [None] for a group that took no part in the match. *)
Fixpoint group (g : captures) (name : str) : option str :=
  match g with
  | [] => None
  | (n, v) :: g' => if str_eqb n name then Some v else group g' name
  end.

(** The literal [l] at the head of [s], compared case-insensitively;
    returns the rest of [s].  Within U+0000..U+00FF two characters match
    under [re.IGNORECASE] when their lower-case forms agree; beyond that
    range the letters s and i also match U+017F, U+0130 and U+0131,
    which the model does not cover. *)
Fixpoint eat_literal (l s : str) : option str :=
  match l, s with
  | [], _ => Some s
  | x :: l', y :: s' =>
      if char_eqb (char_lower x) (char_lower y) then eat_literal l' s' else None
  | _ :: _, [] => None
  end.

Definition or_else {X} (a : option X) (b : unit -> option X) : option X :=
  match a with
  | Some x => Some x
  | None => b tt
  end.

Section Repetition.
Context {X : Type} (cls : ascii -> bool) (greedy : bool).

(** One more character of the class, if the bound [hi] allows it. *)
Definition room (hi : option nat) : bool :=
  match hi with
  | Some 0 => false
  | _ => true
  end.

Fixpoint rep_run (lo : nat) (hi : option nat) (s : str)
         (k : str -> option X) : option X :=
  let stop := fun _ : unit => if (lo =? 0)%nat then k s else None in
  let more := fun _ : unit =>
    match s with
    | c :: s' =>
        if cls c && room hi
        then rep_run (pred lo) (option_map pred hi) s' k
        else None
    | [] => None
    end in
  if greedy then or_else (more tt) stop else or_else (stop tt) more.
End Repetition.

(** The text consumed between the input [s] and its suffix [s']. *)
Definition consumed (s s' : str) : str := firstn (List.length s - List.length s') s.

Fixpoint run (r : regex) (s : str) (g : captures)
         (k : str -> captures -> option captures) : option captures :=
  match r with
  | Lit l =>
      match eat_literal l s with
      | Some s' => k s' g
      | None => None
      end
  | Rep cls lo hi greedy => rep_run cls greedy lo hi s (fun s' => k s' g)
  | Seq r1 r2 => run r1 s g (fun s' g' => run r2 s' g' k)
  | Alt r1 r2 => or_else (run r1 s g k) (fun _ => run r2 s g k)
  | Opt r1 => or_else (run r1 s g k) (fun _ => k s g)
  | Group name r1 =>
      run r1 s g (fun s' g' => k s' ((name, consumed s s') :: g'))
  | Eol =>
      (* end of string, or just before a newline that ends the string *)
      match s with
      | [] => k s g
      | [c] => if char_eqb c "010" then k s g else None
      | _ => None
      end
  end.

(** [pattern.match(s)]: anchored at the start only. *)
Definition re_match (r : regex) (s : str) : option captures :=
  run r s [] (fun _ g => Some g).

Declare Scope regex_scope.
Delimit Scope regex_scope with re.
Infix ";;" := Seq (at level 61, right associativity) : regex_scope.

(** [.] without re.DOTALL *)
Definition any_but_newline (c : ascii) : bool := negb (char_eqb c "010").
(** [[^)]] *)
Definition not_close_paren (c : ascii) : bool := negb (char_eqb c ")").

(* ================================================================= *)
(** ** [NAME_RE] and [parse_from_name] *)

Definition NAME_RE : regex :=
  (Group (py "mouse") (Lit (py "p") ;; Rep is_decimal 1 None true) ;;
   Lit (py "-") ;;
   Rep any_but_newline 0 None false ;;
   Opt (Lit (py "_") ;; Group (py "view") (Rep is_decimal 3 (Some 6) true)) ;;
   Lit (py "(") ;;
   Group (py "kind") (Alt (Lit (py "microglia")) (Lit (py "ribeyes"))) ;;
   Lit (py "-") ;;
   Group (py "pos") (Rep not_close_paren 1 None true) ;;
   Lit (py ")") ;;
   Lit (py "_") ;;
   Opt (Group (py "tag") (Alt (Lit (py "Detailed")) (Lit (py "Statistics")))) ;;
   Opt (Lit (py ".csv")) ;;
   Eol)%re.

(** [x or d] for an optional string [x]. *)
Definition str_or (x : option str) (d : str) : str :=
  match x with
  | Some (c :: v) => c :: v
  | _ => d
  end.

Definition parse_from_name (name : str) : option (str * str * str * str) :=
  match re_match NAME_RE name with
  | None => None
  | Some m =>
      (* the groups mouse, kind and pos are outside every optional part
         of the pattern, so they are bound whenever the match succeeds *)
      let mouse := lower (str_or (group m (py "mouse")) []) in
      let view := str_or (group m (py "view")) (py "/") in
      let pos := normalize_position (Some (str_or (group m (py "pos")) [])) in
      let kind := lower (str_or (group m (py "kind")) []) in
      Some (mouse, view, pos, kind)
  end.

(* ================================================================= *)
(** ** [natural_key] *)

(** [re.split(r"(\d+)", text)]: the text between digit runs and the digit
    runs themselves, alternating, starting and ending with a text piece
    (possibly empty). *)
Fixpoint re_split_digits (text : str) : list str :=
  match text with
  | [] => [[]]
  | c :: rest =>
      let pieces := re_split_digits rest in
      if is_decimal c then
        match rest, pieces with
        | d :: _, t0 :: run :: more =>
            if is_decimal d then t0 :: (c :: run) :: more
            else [] :: [c] :: pieces
        | _, _ => [] :: [c] :: pieces
        end
      else
        match pieces with
        | t0 :: more => (c :: t0) :: more
        | [] => [[c]]
        end
  end.

(** An element of a natural key: an [int] or a [str]. *)
Inductive token : Type :=
| TInt (n : N)
| TStr (s : str).

Fixpoint traverse {A B} (f : A -> option B) (l : list A) : option (list B) :=
  match l with
  | [] => Some []
  | a :: l' =>
      match f a with
      | None => None
      | Some b => option_map (cons b) (traverse f l')
      end
  end.

(** [None] where [int(t)] raises [ValueError]. *)
Definition natural_key (text : str) : option (list token) :=
  traverse (fun t => if isdigit t then option_map TInt (int_of_digits t)
                     else Some (TStr (lower t)))
           (re_split_digits text).

(** [a == b] on key elements; an [int] never equals a [str]. *)
Definition token_eqb (a b : token) : bool :=
  match a, b with
  | TInt x, TInt y => (x =? y)%N
  | TStr x, TStr y => str_eqb x y
  | _, _ => false
  end.

(** [a < b] on key elements; [None] where Python raises [TypeError]
    (an [int] against a [str]). *)
Definition token_ltb (a b : token) : option bool :=
  match a, b with
  | TInt x, TInt y => Some (x <? y)%N
  | TStr x, TStr y => Some (str_ltb x y)
  | _, _ => None
  end.

(** [a < b] on lists: decided at the first index where the elements
    differ, else by length. *)
Fixpoint key_ltb (a b : list token) : option bool :=
  match a, b with
  | [], [] => Some false
  | [], _ :: _ => Some true
  | _ :: _, [] => Some false
  | x :: a', y :: b' => if token_eqb x y then key_ltb a' b' else token_ltb x y
  end.

Section KeyedSort.
Context {A : Type}.

(** Insertion into a list sorted by key, failing when a comparison
    fails. *)
Fixpoint insert_keyed (x : list token * A) (l : list (list token * A))
  : option (list (list token * A)) :=
  match l with
  | [] => Some [x]
  | y :: l' =>
      match key_ltb (fst y) (fst x) with
      | None => None
      | Some true => option_map (cons y) (insert_keyed x l')
      | Some false => Some (x :: l)
      end
  end.

Fixpoint sort_keyed (l : list (list token * A))
  : option (list (list token * A)) :=
  match l with
  | [] => Some []
  | x :: l' =>
      match sort_keyed l' with
      | None => None
      | Some sorted => insert_keyed x sorted
      end
  end.

(** [l.sort(key=lambda p: natural_key(name_of(p)))]: the keys are
    computed first, then the list is sorted (stably) by them. *)
Definition sort_natural (name_of : A -> str) (l : list A) : option (list A) :=
  match traverse (fun a => option_map (fun k => (k, a))
                                      (natural_key (name_of a))) l with
  | None => None
  | Some keyed => option_map (map snd) (sort_keyed keyed)
  end.
End KeyedSort.

(* ================================================================= *)
(** ** Discovery and aggregation *)

Section Aggregator.
(** The value [first_float_in_first_column] reads from a file: a float,
    only stored, never computed with. *)
Variable V : Type.
(** [os.sep] *)
Variable sep : ascii.

(** A directory of the input tree: its name, what [os.listdir] returns
    for it, each entry with the result of [first_float_in_first_column]
    for its path ([None] when no row has a float in the first column),
    and its sub-directories in the order [os.walk] visits them.  The
    tree describes a run in which every file that is read can be opened
    and decoded; where it cannot, the program raises, and that run has
    no tree here. *)
Inductive fs_tree : Type :=
| FsDir (name : str) (listing : list (str * option V)) (subdirs : list fs_tree).

Definition dir_name (t : fs_tree) : str :=
  match t with FsDir name _ _ => name end.

(** A directory reached by the walk: its path relative to the input
    directory, component by component, and its listing. *)
Record found_dir : Type := {
  rel_path : list str;
  dir_listing : list (str * option V)
}.

(** The directories [os.walk] yields below [prefix], top-down, without
    descending into a directory whose name starts with a dot. *)
Fixpoint walk (prefix : list str) (t : fs_tree) : list found_dir :=
  match t with
  | FsDir name listing subdirs =>
      let here := prefix ++ [name] in
      {| rel_path := here; dir_listing := listing |} ::
      (fix walk_all (ds : list fs_tree) : list found_dir :=
         match ds with
         | [] => []
         | d :: ds' =>
             (if startswith (py ".") (dir_name d) then [] else walk here d)
             ++ walk_all ds'
         end) subdirs
  end.

(** [os.path.relpath(p, input_dir)] *)
Definition relpath (d : found_dir) : str := str_join sep (rel_path d).

(** [os.path.basename(d)] *)
Definition basename (d : found_dir) : str := last (rel_path d) [].

(** [input_dir] is the root of the tree; it is not itself listed. *)
Definition list_all_dirs (input_dir : fs_tree) : option (list found_dir) :=
  match input_dir with
  | FsDir _ _ subdirs =>
      let dirs :=
        flat_map (fun d => if startswith (py ".") (dir_name d) then []
                           else walk [] d) subdirs in
      sort_natural relpath dirs
  end.

Definition list_csv_in_dir (d : found_dir) : option (list (str * option V)) :=
  let csvs :=
    filter (fun f => negb (startswith (py "~$") (fst f))
                     && endswith (py ".csv") (lower (fst f)))
           (dir_listing d) in
  sort_natural fst csvs.

(** A row of the summary; the fields are the dict's six entries. *)
Record row : Type := {
  mouse_ID : str;
  view_id : str;
  position : str;
  Ribeyes : option V;
  microglia : option V;
  engulfment_index : option V
}.

Definition row_key : Type := (str * str * str)%type.

Definition key_eqb (a b : row_key) : bool :=
  let '(m1, v1, p1) := a in
  let '(m2, v2, p2) := b in
  str_eqb m1 m2 && str_eqb v1 v2 && str_eqb p1 p2.

(** The [OrderedDict]: the entries in insertion order, keys distinct. *)
Definition summary_table : Type := list (row_key * row).

(** [summary.get(key)] *)
Fixpoint lookup (key : row_key) (summary : summary_table) : option row :=
  match summary with
  | [] => None
  | (k, r) :: rest => if key_eqb k key then Some r else lookup key rest
  end.

(** [key in summary] *)
Definition has_key (key : row_key) (summary : summary_table) : bool :=
  match lookup key summary with
  | Some _ => true
  | None => false
  end.

(** [summary[key][field] = ...]: the record stored under [key] is
    changed in place. *)
Fixpoint modify (key : row_key) (f : row -> row) (summary : summary_table)
  : summary_table :=
  match summary with
  | [] => []
  | (k, r) :: rest =>
      if key_eqb k key then (k, f r) :: rest
      else (k, r) :: modify key f rest
  end.

Definition set_Ribeyes (val : option V) (r : row) : row :=
  {| mouse_ID := mouse_ID r; view_id := view_id r; position := position r;
     Ribeyes := val; microglia := microglia r;
     engulfment_index := engulfment_index r |}.

Definition set_microglia (val : option V) (r : row) : row :=
  {| mouse_ID := mouse_ID r; view_id := view_id r; position := position r;
     Ribeyes := Ribeyes r; microglia := val;
     engulfment_index := engulfment_index r |}.

(** [not kind] *)
Definition falsy (kind : option str) : bool :=
  match kind with
  | None | Some [] => true
  | Some (_ :: _) => false
  end.

(** The body of the loop over the CSV files of one directory; a
    [continue] leaves the summary as it is. [fixed] is
    [(fixed_mouse, fixed_view, fixed_pos)] when the folder name parsed. *)
Definition process_csv (fixed : option row_key) (summary : summary_table)
           (csv : str * option V) : summary_table :=
  let csv_name := fst csv in
  let parsed_csv := parse_from_name csv_name in
  let resolved : option (row_key * option str) :=
    match fixed with
    | Some key =>
        Some (key, match parsed_csv with
                   | Some (_, _, _, kind) => Some kind
                   | None => None
                   end)
    | None =>
        match parsed_csv with
        | None => None
        | Some (mouse, view, pos, kind) => Some ((mouse, view, pos), Some kind)
        end
    end in
  match resolved with
  | None => summary
  | Some (key, kind) =>
      let kind :=
        if falsy kind then
          let lower := lower csv_name in
          if contains (py "ribeyes") lower then Some (py "ribeyes")
          else if contains (py "microglia") lower then Some (py "microglia")
          else None
        else kind in
      match kind with
      | None => summary
      | Some kind =>
          let val := snd csv in
          let '(mouse, view, pos) := key in
          let summary :=
            if has_key key summary then summary
            else summary ++
                 [(key, {| mouse_ID := mouse; view_id := view; position := pos;
                           Ribeyes := None; microglia := None;
                           engulfment_index := None |})] in
          if str_eqb kind (py "ribeyes") then modify key (set_Ribeyes val) summary
          else if str_eqb kind (py "microglia")
               then modify key (set_microglia val) summary
               else summary
      end
  end.

(** The body of the loop over the directories. *)
Definition process_dir (summary : summary_table) (d : found_dir)
  : option summary_table :=
  let folder_name := basename d in
  let folder_parsed := parse_from_name folder_name in
  match list_csv_in_dir d with
  | None => None
  | Some [] => Some summary
  | Some csvs =>
      let fixed :=
        match folder_parsed with
        | Some (mouse, view, pos, _) => Some (mouse, view, pos)
        | None => None
        end in
      Some (fold_left (process_csv fixed) csvs summary)
  end.

Fixpoint process_dirs (summary : summary_table) (dirs : list found_dir)
  : option summary_table :=
  match dirs with
  | [] => Some summary
  | d :: dirs' =>
      match process_dir summary d with
      | None => None
      | Some summary' => process_dirs summary' dirs'
      end
  end.

Definition build_summary (input_dir : fs_tree) : option summary_table :=
  match list_all_dirs input_dir with
  | None => None
  | Some all_dirs => process_dirs [] all_dirs
  end.
End Aggregator.

Arguments FsDir {V} name listing subdirs.
Arguments Build_found_dir {V} rel_path dir_listing.
Arguments rel_path {V} f.
Arguments dir_listing {V} f.
Arguments relpath {V} sep d.
Arguments basename {V} d.
Arguments walk {V} prefix t.
Arguments list_all_dirs {V} sep input_dir.
Arguments list_csv_in_dir {V} d.
Arguments Build_row {V}.
Arguments mouse_ID {V} r.
Arguments view_id {V} r.
Arguments position {V} r.
Arguments Ribeyes {V} r.
Arguments microglia {V} r.
Arguments engulfment_index {V} r.
Arguments lookup {V} key summary.
Arguments has_key {V} key summary.
Arguments modify {V} key f summary.
Arguments set_Ribeyes {V} val r.
Arguments set_microglia {V} val r.
Arguments process_csv {V} fixed summary csv.
Arguments process_dir {V} summary d.
Arguments process_dirs {V} summary dirs.
Arguments build_summary {V} sep input_dir.

(* ================================================================= *)
(** ** Derived notions used to state the properties *)

(** A parenthesised group [(<kind>-<position>)] starts at the head of
    [s]: an opening parenthesis, one of the two marker names in any
    case, a dash, at least one character other than a closing
    parenthesis, and a closing parenthesis. *)
Definition kind_position_group_at (s : str) : bool :=
  match s with
  | c :: s1 =>
      char_eqb c "(" &&
      match or_else (eat_literal (py "microglia") s1)
                    (fun _ => eat_literal (py "ribeyes") s1) with
      | Some (d :: p :: rest) =>
          char_eqb d "-" && negb (char_eqb p ")") && has_char ")" rest
      | _ => false
      end
  | [] => false
  end.

(** Such a group occurs somewhere in [s]. *)
Fixpoint has_kind_position_group (s : str) : bool :=
  kind_position_group_at s ||
  match s with
  | [] => false
  | _ :: s' => has_kind_position_group s'
  end.

(** A name built along the grammar with the underscore after the group
    but no [Detailed]/[Statistics] tag. *)
Definition tagless_name (digits filler : str) (view : option str)
           (kind pos : str) (csv : bool) : str :=
  py "p" ++ digits ++ py "-" ++ filler ++
  match view with Some v => py "_" ++ v | None => [] end ++
  py "(" ++ kind ++ py "-" ++ pos ++ py ")" ++ py "_" ++
  (if csv then py ".csv" else []).

(** [a <= b]: [b] is not smaller than [a]. *)
Definition not_after {A : Type} (ltb : A -> A -> bool) (a b : A) : Prop :=
  ltb b a = false.

(** What [normalize_position] computes after trimming, lower-casing and
    removing the spaces. *)
Definition sort_segments (pos : str) : str :=
  if has_char "+" pos
  then str_join "+" (sort_by str_ltb
                       (filter (fun p => negb (str_eqb p [])) (str_split "+" pos)))
  else pos.

(** A lowercase alphanumeric character: a-z or 0-9. *)
Definition lower_alnum (c : ascii) : bool := in_range 97 122 c || in_range 48 57 c.

(** A segment of a position tag: non-empty, lowercase alphanumeric. *)
Definition is_segment (p : str) : bool :=
  negb (str_eqb p []) && forallb lower_alnum p.

Definition within (hi : option nat) (n : nat) : Prop :=
  match hi with
  | None => True
  | Some h => n <= h
  end.

(** [matches r s s']: a prefix of [s] is in the language of [r] and [s']
    is what follows it. *)
Fixpoint matches (r : regex) (s s' : str) : Prop :=
  match r with
  | Lit l => eat_literal l s = Some s'
  | Rep cls lo hi _ =>
      exists w, s = w ++ s' /\ forallb cls w = true /\
                lo <= List.length w /\ within hi (List.length w)
  | Seq r1 r2 => exists mid, matches r1 s mid /\ matches r2 mid s'
  | Alt r1 r2 => matches r1 s s' \/ matches r2 s s'
  | Opt r1 => matches r1 s s' \/ s' = s
  | Group _ r1 => matches r1 s s'
  | Eol => s' = s /\ (s = [] \/ s = ["010"%char])
  end.

(** The parts a name is built from fit the grammar: subject digits, a
    filler without newline, a view token of 3 to 6 digits if any, one of
    the two marker names in any case, a non-empty position without a
    closing parenthesis. *)
Definition parts_fit_grammar (digits filler : str) (view : option str)
           (kind pos : str) : bool :=
  negb (str_eqb digits []) && forallb is_decimal digits &&
  forallb any_but_newline filler &&
  match view with
  | None => true
  | Some v => forallb is_decimal v && (3 <=? List.length v)%nat
              && (List.length v <=? 6)%nat
  end &&
  (str_eqb (lower kind) (py "microglia") || str_eqb (lower kind) (py "ribeyes")) &&
  negb (str_eqb pos []) && forallb not_close_paren pos.

(** The pieces of a split alternate: text without decimal digits where
    [text] is [true], a non-empty run of decimal digits where it is
    [false]; the last piece is a text. *)
Fixpoint split_shape (text : bool) (pieces : list str) : bool :=
  match pieces with
  | [] => negb text
  | t :: pieces' =>
      (if text then forallb (fun c => negb (is_decimal c)) t
       else negb (str_eqb t []) && forallb is_decimal t)
      && split_shape (negb text) pieces'
  end.

(** The elements of a key alternate between [str] and [int]. *)
Fixpoint alternates (text : bool) (k : list token) : bool :=
  match k with
  | [] => true
  | TStr _ :: k' => text && alternates (negb text) k'
  | TInt _ :: k' => negb text && alternates (negb text) k'
  end.

(** The order of keys, extended to all lists of elements by putting an
    [int] before a [str]; on two natural keys it is [key_ltb]. *)
Definition token_lt (a b : token) : bool :=
  match a, b with
  | TInt x, TInt y => (x <? y)%N
  | TStr x, TStr y => str_ltb x y
  | TInt _, TStr _ => true
  | TStr _, TInt _ => false
  end.

Fixpoint key_lt (a b : list token) : bool :=
  match a, b with
  | [], [] => false
  | [], _ :: _ => true
  | _ :: _, [] => false
  | x :: a', y :: b' => if token_eqb x y then key_lt a' b' else token_lt x y
  end.

Definition keyed_lt {A} (x y : list token * A) : bool := key_lt (fst x) (fst y).

(** The key of a name that has one. *)
Definition key_of (name : str) : list token :=
  match natural_key name with
  | Some k => k
  | None => []
  end.

(** [x] sorts strictly before [y]. *)
Definition precedes (x y : str) : Prop :=
  exists kx ky, natural_key x = Some kx /\ natural_key y = Some ky /\
                key_ltb kx ky = Some true.

(** The key of a keyed item has the form of a natural key. *)
Definition well_keyed {A : Type} (x : list token * A) : Prop :=
  alternates true (fst x) = true.

(** A digit that is not a decimal digit: one of the superscripts. *)
Definition odd_digit (c : ascii) : bool := char_isdigit c && negb (is_decimal c).

(** The name made of the one character U+00B2 (superscript two). *)
Definition superscript_two_name : str := [ascii_of_N 178].

Section Stored.
Context {V : Type}.

(** What the aggregation loop does once key and kind are resolved:
    create the row if the key is new, then write the value into the
    field of the kind. *)
Definition store (key : row_key) (kind : str) (val : option V)
           (summary : summary_table V) : summary_table V :=
  let '(mouse, view, pos) := key in
  let summary :=
    if has_key key summary then summary
    else summary ++
         [(key, {| mouse_ID := mouse; view_id := view; position := pos;
                   Ribeyes := None; microglia := None;
                   engulfment_index := None |})] in
  if str_eqb kind (py "ribeyes") then modify key (set_Ribeyes val) summary
  else if str_eqb kind (py "microglia")
       then modify key (set_microglia val) summary
       else summary.

(** The key and kind a file resolves to, [None] when it is skipped. *)
Definition resolve (fixed : option row_key) (csv_name : str)
  : option (row_key * str) :=
  let sniffed :=
    if contains (py "ribeyes") (lower csv_name) then Some (py "ribeyes")
    else if contains (py "microglia") (lower csv_name)
         then Some (py "microglia")
         else None in
  match fixed, parse_from_name csv_name with
  | Some key, Some (_, _, _, c :: kind) => Some (key, c :: kind)
  | Some key, _ => option_map (pair key) sniffed
  | None, Some (mouse, view, pos, c :: kind) =>
      Some ((mouse, view, pos), c :: kind)
  | None, Some (mouse, view, pos, []) =>
      option_map (pair (mouse, view, pos)) sniffed
  | None, None => None
  end.

(** Every entry's key is the identity of its record. *)
Definition coherent (summary : summary_table V) : Prop :=
  Forall (fun e => fst e = (mouse_ID (snd e), view_id (snd e), position (snd e)))
         summary.

(** The tables the aggregation passes through: it starts from the
    empty table and handles one file at a time. *)
Inductive reachable : summary_table V -> Prop :=
| reachable_empty : reachable []
| reachable_step fixed summary csv :
    reachable summary -> reachable (process_csv fixed summary csv).

(** The number of rows stored under [key]. *)
Definition rows_with_key (key : row_key) (summary : summary_table V) : nat :=
  List.length (filter (fun e => key_eqb (fst e) key) summary).

(** The record created for a key that is new. *)
Definition new_row (key : row_key) : row V :=
  let '(mouse, view, pos) := key in
  {| mouse_ID := mouse; view_id := view; position := pos;
     Ribeyes := None; microglia := None; engulfment_index := None |}.

(** The effect of one write on the record of its key. *)
Definition write_row (kind : str) (val : option V) (r : row V) : row V :=
  if str_eqb kind (py "ribeyes") then set_Ribeyes val r
  else if str_eqb kind (py "microglia") then set_microglia val r
  else r.

(** One resolved file: its key, its kind and the value read from it. *)
Definition write : Type := (row_key * str * option V)%type.

Definition apply_write (summary : summary_table V) (w : write)
  : summary_table V :=
  let '(key, kind, val) := w in store key kind val summary.

(** The files of a unit that are not skipped, in processing order. *)
Definition writes_of_csvs (fixed : option row_key)
           (csvs : list (str * option V)) : list write :=
  flat_map (fun csv => match resolve fixed (fst csv) with
                       | Some (key, kind) => [(key, kind, snd csv)]
                       | None => []
                       end) csvs.

Definition writes_of_dir (d : found_dir V) : option (list write) :=
  match list_csv_in_dir d with
  | None => None
  | Some csvs =>
      Some (writes_of_csvs
              match parse_from_name (basename d) with
              | Some (mouse, view, pos, _) => Some (mouse, view, pos)
              | None => None
              end csvs)
  end.

Fixpoint writes_of_dirs (dirs : list (found_dir V)) : option (list write) :=
  match dirs with
  | [] => Some []
  | d :: dirs' =>
      match writes_of_dir d, writes_of_dirs dirs' with
      | Some ws, Some ws' => Some (ws ++ ws')
      | _, _ => None
      end
  end.

(** The resolved files of a whole run, in processing order. *)
Definition writes_of_run (sep : ascii) (input_dir : fs_tree V)
  : option (list write) :=
  match list_all_dirs sep input_dir with
  | None => None
  | Some all_dirs => writes_of_dirs all_dirs
  end.

Definition writes_to (key : row_key) (w : write) : bool :=
  key_eqb (fst (fst w)) key.

(** No key is stored twice. *)
Definition keys_distinct (summary : summary_table V) : Prop :=
  forall key, rows_with_key key summary = if has_key key summary then 1 else 0.
End Stored.

(** The folder of the example, with and without the underscore that
    [NAME_RE] requires after the group. *)
Definition example_unit (folder_name : string) (val : option Q) : found_dir Q :=
  {| rel_path := [py folder_name];
     dir_listing := [(py "unrelated_0007(microglia-gcl)_Statistics.csv", val)] |}.

(* ================================================================= *)
(** ** Further notions for the properties of the remaining code *)

(** Equality of keys, element by element. *)
Fixpoint tokens_eqb (a b : list token) : bool :=
  match a, b with
  | [], [] => true
  | x :: a', y :: b' => token_eqb x y && tokens_eqb a' b'
  | _, _ => false
  end.


(** [descends t path listing]: following [path] from the directory [t],
    whose own name is the first component, through sub-directories whose
    names do not start with a dot, leads to a directory that lists
    [listing]. *)
Inductive descends {V : Type}
  : fs_tree V -> list str -> list (str * option V) -> Prop :=
| descends_here name listing subdirs :
    descends (FsDir name listing subdirs) [name] listing
| descends_sub name listing subdirs d path listing' :
    In d subdirs -> startswith (py ".") (dir_name V d) = false ->
    descends d path listing' ->
    descends (FsDir name listing subdirs) (name :: path) listing'.

(** A tree with a visible unit, a hidden directory and a unit nested in
    a visible directory. *)
Definition sample_tree : fs_tree Q :=
  FsDir (py "InputFolder") [(py "top.csv", None)]
        [FsDir (py "b10") [] [];
         FsDir (py ".git") [] [FsDir (py "x") [] []];
         FsDir (py "b2") [] [FsDir (py "inner") [(py "f.csv", None)] []]].


(** [matches_with r s g s' g']: as [matches], and [g'] is [g] extended
    by the groups bound on the way, each with the text it consumed. *)
Fixpoint matches_with (r : regex) (s : str) (g : captures)
         (s' : str) (g' : captures) : Prop :=
  match r with
  | Lit l => eat_literal l s = Some s' /\ g' = g
  | Rep cls lo hi _ =>
      (exists w, s = w ++ s' /\ forallb cls w = true /\
                 lo <= List.length w /\ within hi (List.length w)) /\ g' = g
  | Seq r1 r2 =>
      exists mid gm, matches_with r1 s g mid gm /\ matches_with r2 mid gm s' g'
  | Alt r1 r2 => matches_with r1 s g s' g' \/ matches_with r2 s g s' g'
  | Opt r1 => matches_with r1 s g s' g' \/ (s' = s /\ g' = g)
  | Group name r1 =>
      exists gi, matches_with r1 s g s' gi /\ g' = (name, consumed s s') :: gi
  | Eol => s' = s /\ g' = g /\ (s = [] \/ s = ["010"%char])
  end.


(** The groups with their texts lower-cased. *)
Definition lower_captures (g : captures) : captures :=
  map (fun b => (fst b, lower (snd b))) g.

(** Every character class of the pattern gives the same answer for a
    character and for its lower-case form. *)
Fixpoint classes_ignore_case (r : regex) : Prop :=
  match r with
  | Rep cls _ _ _ => forall c, cls (char_lower c) = cls c
  | Seq r1 r2 | Alt r1 r2 => classes_ignore_case r1 /\ classes_ignore_case r2
  | Opt r1 | Group _ r1 => classes_ignore_case r1
  | Lit _ | Eol => True
  end.


(* ================================================================= *)
(** ** [first_float_in_first_column]

    The file, opened as UTF-8 with an optional byte-order mark and read
    by [csv.reader], is the list of its rows, each a list of cells. *)

Section Reader.
(** The float type. *)
Variable V : Type.
(** [float(s)]; [None] where it raises [ValueError]. *)
Variable float_of : str -> option V.

Fixpoint first_float_in_first_column (rows : list (list str)) : option V :=
  match rows with
  | [] => None
  | row :: rest =>
      match row with
      | [] => first_float_in_first_column rest
      | cell :: _ =>
          match strip cell with
          | [] => first_float_in_first_column rest
          | s =>
              match float_of s with
              | Some v => Some v
              | None => first_float_in_first_column rest
              end
          end
      end
  end.

(** A row the reader passes over: it is empty, or its first cell is
    blank or is not a float. *)
Definition row_skipped (row : list str) : Prop :=
  match row with
  | [] => True
  | cell :: _ => strip cell = [] \/ float_of (strip cell) = None
  end.
End Reader.

Arguments first_float_in_first_column {V} float_of rows.
Arguments row_skipped {V} float_of row.

(** The keys of a list in the order of their first occurrence; [seen]
    holds the keys met so far. *)
Fixpoint first_occurrences_from (seen keys : list row_key) : list row_key :=
  match keys with
  | [] => []
  | k :: keys' =>
      if existsb (key_eqb k) seen then first_occurrences_from seen keys'
      else k :: first_occurrences_from (seen ++ [k]) keys'
  end.

Definition first_occurrences (keys : list row_key) : list row_key :=
  first_occurrences_from [] keys.

(** The three identity fields of a record. *)
Definition identity {V} (r : row V) : row_key :=
  (mouse_ID r, view_id r, position r).

(** The values of the writes of [kind] to [key], in order. *)
Definition values_written {V} (key : row_key) (kind : str)
           (ws : list (row_key * str * option V)) : list (option V) :=
  map snd (filter (fun w => key_eqb (fst (fst w)) key
                            && str_eqb (snd (fst w)) kind) ws).


(** An input directory with two units; in the first, two files are
    classified ribeyes and one, without a float, microglia. *)
Definition merge_tree : fs_tree Q :=
  FsDir (py "InputFolder") []
        [FsDir (py "p2-b(microglia-ipl)_Detailed")
               [(py "p2-b_0007(microglia-ipl)_Detailed.csv", Some (3 # 1)%Q)] [];
         FsDir (py "p1-a(ribeyes-opl)_Statistics")
               [(py "r2 ribeyes.csv", Some (2 # 1)%Q);
                (py "microglia.csv", None);
                (py "r1 ribeyes.csv", Some (1 # 1)%Q)] []].

(** The files of [merge_tree] that are stored, in processing order. *)
Definition merge_writes : list (row_key * str * option Q) :=
  [((py "p1", py "/", py "opl"), py "microglia", None);
   ((py "p1", py "/", py "opl"), py "ribeyes", Some (1 # 1)%Q);
   ((py "p1", py "/", py "opl"), py "ribeyes", Some (2 # 1)%Q);
   ((py "p2", py "/", py "ipl"), py "microglia", Some (3 # 1)%Q)].

(** The table [build_summary] makes of [merge_tree]. *)
Definition merge_table : summary_table Q :=
  [((py "p1", py "/", py "opl"),
    {| mouse_ID := py "p1"; view_id := py "/"; position := py "opl";
       Ribeyes := Some (2 # 1)%Q; microglia := None;
       engulfment_index := None |});
   ((py "p2", py "/", py "ipl"),
    {| mouse_ID := py "p2"; view_id := py "/"; position := py "ipl";
       Ribeyes := None; microglia := Some (3 # 1)%Q;
       engulfment_index := None |})].

(** * Properties *)

(** ** The primitives on sample inputs *)

Example strip_sample :
  strip (["009"; " "; "a"; " "; "b"; " "; "010"]%char) = py "a b".
Proof. reflexivity. Qed.

Example str_split_sample :
  str_split "+" (py "+a++b+") = [py ""; py "a"; py ""; py "b"; py ""].
Proof. reflexivity. Qed.

Example str_join_sample : str_join "+" [py "ipl"; py "opl"] = py "ipl+opl".
Proof. reflexivity. Qed.

Example re_split_digits_sample :
  re_split_digits (py "img10") = [py "img"; py "10"; py ""] /\
  re_split_digits (py "12") = [py ""; py "12"; py ""] /\
  re_split_digits (py "a1b22c") = [py "a"; py "1"; py "b"; py "22"; py "c"] /\
  re_split_digits (py "") = [py ""].
Proof. repeat split; reflexivity. Qed.

Example natural_key_sample :
  natural_key (py "Img010x") = Some [TStr (py "img"); TInt 10; TStr (py "x")].
Proof. vm_compute. reflexivity. Qed.

Example parse_from_name_sample :
  parse_from_name (py "P3-xyz_12(MicroGlia-OPL + ipl)_statistics.CSV")
  = Some (py "p3", py "/", py "ipl+opl", py "microglia").
Proof. vm_compute. reflexivity. Qed.

(** ** Characters and strings *)

Lemma code_inj (a b : ascii) : code a = code b -> a = b.
Proof.
  unfold code. intros H.
  rewrite <- (ascii_N_embedding a), <- (ascii_N_embedding b). now rewrite H.
Qed.

Lemma char_eqb_eq (a b : ascii) : char_eqb a b = true <-> a = b.
Proof.
  unfold char_eqb. rewrite N.eqb_eq. split; [apply code_inj | now intros ->].
Qed.

Lemma char_eqb_refl (a : ascii) : char_eqb a a = true.
Proof. now apply char_eqb_eq. Qed.

Lemma char_eqb_neq (a b : ascii) : char_eqb a b = false <-> a <> b.
Proof.
  rewrite <- char_eqb_eq. destruct (char_eqb a b); split; congruence.
Qed.

Lemma str_eqb_eq (a b : str) : str_eqb a b = true <-> a = b.
Proof.
  revert b. induction a as [|x a IH]; intros [|y b]; simpl;
    try (split; [discriminate | congruence]); [tauto|].
  rewrite andb_true_iff, char_eqb_eq, IH. split.
  - now intros [-> ->].
  - intros [= -> ->]. auto.
Qed.

Lemma str_eqb_refl (a : str) : str_eqb a a = true.
Proof. now apply str_eqb_eq. Qed.

Lemma str_eqb_neq (a b : str) : str_eqb a b = false <-> a <> b.
Proof.
  rewrite <- str_eqb_eq. destruct (str_eqb a b); split; congruence.
Qed.

Lemma key_eqb_eq (a b : row_key) : key_eqb a b = true <-> a = b.
Proof.
  destruct a as [[m1 v1] p1], b as [[m2 v2] p2]. unfold key_eqb.
  rewrite !andb_true_iff, !str_eqb_eq. split.
  - now intros [[-> ->] ->].
  - intros [= -> -> ->]. auto.
Qed.

Lemma key_eqb_refl (a : row_key) : key_eqb a a = true.
Proof. now apply key_eqb_eq. Qed.

Lemma key_eqb_neq (a b : row_key) : key_eqb a b = false <-> a <> b.
Proof.
  rewrite <- key_eqb_eq. destruct (key_eqb a b); split; congruence.
Qed.

(** A statement about every character, settled by running through the
    256 of them. *)
Ltac each_char c :=
  destruct c as [[] [] [] [] [] [] [] []]; vm_compute; try tauto; try congruence.

Lemma char_lower_idem (c : ascii) : char_lower (char_lower c) = char_lower c.
Proof. each_char c. Qed.

Lemma lower_idem (s : str) : lower (lower s) = lower s.
Proof.
  unfold lower. rewrite map_map. apply map_ext. apply char_lower_idem.
Qed.

Lemma char_lower_space (c : ascii) : isspace c = true -> char_lower c = c.
Proof. each_char c. Qed.

Lemma char_lower_not_space (c : ascii) :
  isspace c = false -> isspace (char_lower c) = false.
Proof. each_char c. Qed.

Lemma char_lower_is_space (c : ascii) :
  char_eqb (char_lower c) " " = char_eqb c " ".
Proof. each_char c. Qed.

Lemma has_char_In (c : ascii) (s : str) : has_char c s = true <-> In c s.
Proof.
  unfold has_char. rewrite existsb_exists. split.
  - intros (x & Hx & E). apply char_eqb_eq in E. now subst.
  - intros H. exists c. split; [assumption | apply char_eqb_refl].
Qed.

Lemma has_char_not_In (c : ascii) (s : str) : has_char c s = false <-> ~ In c s.
Proof.
  rewrite <- has_char_In. destruct (has_char c s); split; congruence.
Qed.

Lemma In_remove_char (c x : ascii) (s : str) :
  In x (remove_char c s) <-> In x s /\ x <> c.
Proof.
  unfold remove_char. rewrite filter_In, negb_true_iff, char_eqb_neq. tauto.
Qed.

Lemma str_split_not_nil (sep : ascii) (s : str) : str_split sep s <> [].
Proof.
  destruct s as [|c s]; simpl; [discriminate|].
  destruct (char_eqb c sep); [discriminate|].
  destruct (str_split sep s); discriminate.
Qed.

(** The characters of the pieces of a split are characters of the text. *)
Lemma In_str_split (sep : ascii) (s p : str) (c : ascii) :
  In p (str_split sep s) -> In c p -> In c s.
Proof.
  revert p. induction s as [|x s IH]; simpl; intros p Hp Hc.
  - destruct Hp as [<- | []]. destruct Hc.
  - destruct (char_eqb x sep).
    + destruct Hp as [<- | Hp]; [destruct Hc | right; eauto].
    + destruct (str_split sep s) as [|q qs] eqn:E.
      * destruct Hp as [<- | []]. destruct Hc as [<- | []]. now left.
      * destruct Hp as [<- | Hp].
        -- destruct Hc as [<- | Hc]; [now left | right].
           apply (IH q); [now left | assumption].
        -- right. apply (IH p); [now right | assumption].
Qed.

(** A joined text only holds the separator and characters of the parts. *)
Lemma In_str_join (sep : ascii) (l : list str) (c : ascii) :
  In c (str_join sep l) -> c = sep \/ exists p, In p l /\ In c p.
Proof.
  induction l as [|p l IH]; simpl; [tauto|].
  destruct l as [|q l].
  - intros H. right. exists p. auto.
  - intros H. apply in_app_or in H. destruct H as [H | [<- | H]].
    + right. exists p. auto.
    + now left.
    + destruct (IH H) as [-> | (r & Hr & Hc)]; [now left | right].
      exists r. split; [now right | assumption].
Qed.

(** ** Insertion sort *)

Section SortFacts.
Context {A : Type} (ltb : A -> A -> bool).

Lemma insert_sorted_perm (x : A) (l : list A) :
  Permutation (x :: l) (insert_sorted ltb x l).
Proof.
  induction l as [|y l IH]; simpl; [reflexivity|].
  destruct (ltb y x); [|reflexivity].
  rewrite perm_swap. now apply perm_skip.
Qed.

Lemma sort_by_perm (l : list A) : Permutation l (sort_by ltb l).
Proof.
  induction l as [|x l IH]; simpl; [reflexivity|].
  rewrite <- insert_sorted_perm. now apply perm_skip.
Qed.

(** The comparison is a strict weak order on the elements that
    satisfy [ok]. *)
Variable ok : A -> Prop.
Hypothesis ltb_asym : forall a b, ok a -> ok b -> ltb a b = true -> ltb b a = false.
Hypothesis not_after_trans :
  forall a b c, ok a -> ok b -> ok c ->
                not_after ltb a b -> not_after ltb b c -> not_after ltb a c.

Lemma insert_sorted_sorted (x : A) (l : list A) :
  ok x -> Forall ok l ->
  StronglySorted (not_after ltb) l -> StronglySorted (not_after ltb) (insert_sorted ltb x l).
Proof.
  intros Hx Hl Hs. induction Hs as [|y l Hs IH Hy]; simpl.
  - repeat constructor.
  - inversion Hl as [|? ? Hoky Hokl]; subst.
    destruct (ltb y x) eqn:E.
    + constructor; [now apply IH|].
      rewrite <- insert_sorted_perm. constructor; [|assumption].
      now apply ltb_asym.
    + constructor; [now constructor|].
      constructor; [assumption|].
      rewrite Forall_forall in Hy, Hokl |- *. intros z Hz.
      apply (not_after_trans x y z); auto.
Qed.

Lemma sort_by_sorted (l : list A) :
  Forall ok l -> StronglySorted (not_after ltb) (sort_by ltb l).
Proof.
  induction l as [|x l IH]; simpl; intros Hl; [constructor|].
  inversion Hl; subst. apply insert_sorted_sorted; auto.
  now rewrite <- sort_by_perm.
Qed.

(** Under a total order a sorted arrangement is unique. *)
Hypothesis not_after_antisym :
  forall a b, ok a -> ok b -> not_after ltb a b -> not_after ltb b a -> a = b.

Lemma sorted_perm_unique (l1 l2 : list A) :
  Forall ok l1 ->
  StronglySorted (not_after ltb) l1 -> StronglySorted (not_after ltb) l2 ->
  Permutation l1 l2 -> l1 = l2.
Proof.
  intros Hok H1. revert l2. induction H1 as [|x l1 H1 IH Hx]; intros l2 H2 P.
  - now apply Permutation_nil in P.
  - destruct H2 as [|y l2 H2 Hy].
    + symmetry in P. now apply Permutation_nil in P.
    + inversion Hok as [|? ? Hokx Hokl]; subst.
      assert (Hoky : ok y).
      { rewrite Forall_forall in Hok. apply Hok.
        apply (Permutation_in y (Permutation_sym P)). now left. }
      assert (E : x = y).
      { assert (Ix : In x (y :: l2)) by (apply (Permutation_in x P); now left).
        assert (Iy : In y (x :: l1))
          by (apply (Permutation_in y (Permutation_sym P)); now left).
        destruct Ix as [-> | Ix]; [reflexivity|].
        destruct Iy as [-> | Iy]; [reflexivity|].
        rewrite Forall_forall in Hx, Hy.
        apply not_after_antisym; auto. }
      subst y. f_equal. apply IH; auto.
      now apply Permutation_cons_inv in P.
Qed.

Lemma sort_by_perm_invariant (l1 l2 : list A) :
  Forall ok l1 -> Permutation l1 l2 -> sort_by ltb l1 = sort_by ltb l2.
Proof.
  intros Hok P.
  assert (Hok2 : Forall ok l2).
  { rewrite Forall_forall in *. intros z Hz. apply Hok.
    now apply (Permutation_in z (Permutation_sym P)). }
  apply sorted_perm_unique.
  - now rewrite <- sort_by_perm.
  - now apply sort_by_sorted.
  - now apply sort_by_sorted.
  - now rewrite <- !sort_by_perm.
Qed.
End SortFacts.

(** ** The order on strings *)

Ltac by_codes :=
  repeat match goal with
         | |- context [(?x <? ?y)%N] => destruct (N.ltb_spec x y)
         | |- context [(?x =? ?y)%N] => destruct (N.eqb_spec x y)
         | H : context [(?x <? ?y)%N] |- _ => destruct (N.ltb_spec x y)
         | H : context [(?x =? ?y)%N] |- _ => destruct (N.eqb_spec x y)
         end;
  try discriminate; try lia; auto.

Lemma str_ltb_asym (a b : str) : str_ltb a b = true -> str_ltb b a = false.
Proof.
  revert b. induction a as [|x a IH]; intros [|y b]; simpl; auto.
  intros H. by_codes.
Qed.

Lemma str_not_after_trans (a b c : str) :
  not_after str_ltb a b -> not_after str_ltb b c -> not_after str_ltb a c.
Proof.
  unfold not_after. revert b c.
  induction a as [|x a IH]; intros [|y b] [|z c]; simpl; auto; try discriminate.
  intros H1 H2. by_codes. eauto.
Qed.

Lemma str_not_after_antisym (a b : str) :
  not_after str_ltb a b -> not_after str_ltb b a -> a = b.
Proof.
  unfold not_after. revert b.
  induction a as [|x a IH]; intros [|y b]; simpl; auto; try discriminate.
  intros H1 H2. by_codes. f_equal; [now apply code_inj | auto].
Qed.

Lemma sort_strings_sorted (l : list str) :
  StronglySorted (not_after str_ltb) (sort_by str_ltb l).
Proof.
  apply (sort_by_sorted str_ltb (fun _ => True)).
  - intros a b _ _. apply str_ltb_asym.
  - intros a b c _ _ _. apply str_not_after_trans.
  - now apply Forall_forall.
Qed.

Lemma sort_strings_perm_invariant (l1 l2 : list str) :
  Permutation l1 l2 -> sort_by str_ltb l1 = sort_by str_ltb l2.
Proof.
  apply (sort_by_perm_invariant str_ltb (fun _ => True)).
  - intros a b _ _. apply str_ltb_asym.
  - intros a b c _ _ _. apply str_not_after_trans.
  - intros a b _ _. apply str_not_after_antisym.
  - now apply Forall_forall.
Qed.

(** ** [normalize_position] *)

Lemma normalize_position_unfold (s : str) :
  normalize_position (Some s) = sort_segments (remove_char " " (lower (strip s))).
Proof. reflexivity. Qed.

Lemma sort_segments_chars (pos : str) (c : ascii) :
  In c (sort_segments pos) -> c = "+"%char \/ In c pos.
Proof.
  unfold sort_segments. destruct (has_char "+" pos); [|tauto].
  intros H. apply In_str_join in H. destruct H as [-> | (p & Hp & Hc)]; [now left|].
  right. apply (Permutation_in p (Permutation_sym (sort_by_perm _ _))) in Hp.
  apply filter_In in Hp. destruct Hp as [Hp _]. eapply In_str_split; eauto.
Qed.

(** *** Trimming *)

Lemma lstrip_app (a b : str) :
  lstrip (a ++ b) = match lstrip a with [] => lstrip b | l => l ++ b end.
Proof.
  induction a as [|c a IH]; simpl; [now destruct (lstrip b)|].
  destruct (isspace c); [assumption | reflexivity].
Qed.

Lemma lstrip_spaces (a : str) : forallb isspace a = true -> lstrip a = [].
Proof.
  induction a as [|c a IH]; simpl; [reflexivity|].
  intros H. apply andb_true_iff in H. destruct H as [-> H]. auto.
Qed.

Lemma rstrip_app_spaces (a post : str) :
  forallb isspace post = true -> rstrip (a ++ post) = rstrip a.
Proof.
  intros H. unfold rstrip. rewrite rev_app_distr, lstrip_app.
  rewrite lstrip_spaces; [reflexivity|].
  rewrite forallb_forall in *. intros x Hx. apply H. now apply in_rev.
Qed.

(** Whitespace around the text does not survive [strip]. *)
Lemma strip_surrounding (pre body post : str) :
  forallb isspace pre = true -> forallb isspace post = true ->
  strip (pre ++ body ++ post) = strip body.
Proof.
  intros Hpre Hpost. unfold strip.
  rewrite lstrip_app, (lstrip_spaces pre Hpre), lstrip_app.
  destruct (lstrip body) as [|c l] eqn:E.
  - now rewrite (lstrip_spaces post Hpost).
  - now apply rstrip_app_spaces.
Qed.

(** When the only whitespace of a text is the space character, trimming
    it first makes no difference once the spaces are removed. *)
Lemma clean_lstrip (s : str) :
  (forall c, In c s -> isspace c = true -> c = " "%char) ->
  remove_char " " (lower (lstrip s)) = remove_char " " (lower s).
Proof.
  induction s as [|c s IH]; intros H; [reflexivity|].
  simpl lstrip. destruct (isspace c) eqn:E; [|reflexivity].
  rewrite IH by (intros; apply H; simpl; auto).
  rewrite (H c) by (simpl; auto). reflexivity.
Qed.

Lemma remove_char_rev (c : ascii) (s : str) :
  remove_char c (rev s) = rev (remove_char c s).
Proof.
  unfold remove_char. induction s as [|x s IH]; simpl; [reflexivity|].
  rewrite filter_app, IH. simpl. destruct (negb (char_eqb x c)); simpl.
  - reflexivity.
  - now rewrite app_nil_r.
Qed.

Lemma lower_rev (s : str) : lower (rev s) = rev (lower s).
Proof. apply map_rev. Qed.

Lemma clean_strip (s : str) :
  (forall c, In c s -> isspace c = true -> c = " "%char) ->
  remove_char " " (lower (strip s)) = remove_char " " (lower s).
Proof.
  intros H. unfold strip, rstrip.
  rewrite lower_rev, remove_char_rev, clean_lstrip.
  - rewrite lower_rev, remove_char_rev, rev_involutive. now apply clean_lstrip.
  - intros c Hc. apply in_rev in Hc. apply H.
    clear H. induction s as [|x s IH]; simpl in *; [assumption|].
    destruct (isspace x); [right; auto | assumption].
Qed.

(** A whitespace character other than the space is still there after
    lower-casing and removing the spaces. *)
Lemma odd_space_survives (s : str) (c : ascii) :
  In c s -> isspace c = true -> c <> " "%char ->
  In c (remove_char " " (lower s)).
Proof.
  intros Hc Hs Hn. apply In_remove_char. split; [|assumption].
  unfold lower. rewrite <- (char_lower_space c Hs). now apply in_map.
Qed.

(** *** What normalisation keeps *)

Lemma count_remove_char (x c : ascii) (s : str) :
  c <> x ->
  count_occ ascii_dec (remove_char x s) c = count_occ ascii_dec s c.
Proof.
  intros Hne. unfold remove_char. induction s as [|y s IH]; [reflexivity|].
  cbn [filter]. destruct (char_eqb y x) eqn:E; cbn [negb].
  - apply char_eqb_eq in E. subst y.
    rewrite count_occ_cons_neq by congruence. exact IH.
  - destruct (ascii_dec y c) as [-> | Hyc].
    + now rewrite !count_occ_cons_eq, IH.
    + now rewrite !count_occ_cons_neq, IH.
Qed.

Lemma count_str_split (sep c : ascii) (s : str) :
  c <> sep ->
  count_occ ascii_dec (List.concat (str_split sep s)) c = count_occ ascii_dec s c.
Proof.
  intros Hne. induction s as [|y s IH]; [reflexivity|].
  cbn [str_split]. destruct (char_eqb y sep) eqn:E.
  - apply char_eqb_eq in E. subst y. cbn [List.concat app].
    rewrite count_occ_cons_neq by congruence. exact IH.
  - destruct (str_split sep s) as [|p ps].
    + cbn [List.concat app] in IH |- *.
      destruct (ascii_dec y c) as [-> | Hyc].
      * now rewrite !count_occ_cons_eq, <- IH.
      * now rewrite !count_occ_cons_neq, <- IH.
    + cbn [List.concat app] in IH |- *.
      destruct (ascii_dec y c) as [-> | Hyc].
      * now rewrite !count_occ_cons_eq, <- IH.
      * now rewrite !count_occ_cons_neq, <- IH.
Qed.

Lemma count_concat_nonempty (c : ascii) (l : list str) :
  count_occ ascii_dec
            (List.concat (filter (fun p => negb (str_eqb p [])) l)) c
  = count_occ ascii_dec (List.concat l) c.
Proof.
  induction l as [|p l IH]; [reflexivity|].
  cbn [filter]. destruct p as [|y p]; cbn [str_eqb negb].
  - exact IH.
  - cbn [List.concat]. now rewrite !count_occ_app, IH.
Qed.

Lemma count_concat_perm (c : ascii) (l l' : list str) :
  Permutation l l' ->
  count_occ ascii_dec (List.concat l) c = count_occ ascii_dec (List.concat l') c.
Proof.
  induction 1 as [|p l l' _ IH|p q l|l l' l'' _ IH1 _ IH2];
    cbn [List.concat]; rewrite ?count_occ_app; lia.
Qed.

Lemma count_str_join (sep c : ascii) (l : list str) :
  c <> sep ->
  count_occ ascii_dec (str_join sep l) c = count_occ ascii_dec (List.concat l) c.
Proof.
  intros Hne. induction l as [|p l IH]; [reflexivity|].
  destruct l as [|q l].
  - cbn [str_join List.concat]. now rewrite app_nil_r.
  - change (str_join sep (p :: q :: l)) with (p ++ sep :: str_join sep (q :: l)).
    change (List.concat (p :: q :: l)) with (p ++ List.concat (q :: l)).
    rewrite !count_occ_app, count_occ_cons_neq by congruence. now rewrite IH.
Qed.

(** Sorting the segments keeps every character other than '+', as often
    as it occurs. *)
Lemma count_sort_segments (pos : str) (c : ascii) :
  c <> "+"%char ->
  count_occ ascii_dec (sort_segments pos) c = count_occ ascii_dec pos c.
Proof.
  intros Hne. unfold sort_segments. destruct (has_char "+" pos); [|reflexivity].
  rewrite count_str_join by assumption.
  rewrite <- (count_concat_perm c _ _ (sort_by_perm str_ltb _)).
  rewrite count_concat_nonempty. now apply count_str_split.
Qed.

Lemma lower_sort_segments (pos : str) :
  lower pos = pos -> lower (sort_segments pos) = sort_segments pos.
Proof.
  intros Hpos.
  assert (Hc : forall c, In c pos -> char_lower c = c).
  { intros c Hin. rewrite <- Hpos in Hin. unfold lower in Hin.
    apply in_map_iff in Hin. destruct Hin as (x & <- & _).
    apply char_lower_idem. }
  unfold lower. rewrite <- (map_id (sort_segments pos)) at 2.
  apply map_ext_in. intros c Hin.
  apply sort_segments_chars in Hin. destruct Hin as [-> | Hin]; [reflexivity|].
  now apply Hc.
Qed.

Lemma lower_remove_char_lower (x : ascii) (s : str) :
  lower (remove_char x (lower s)) = remove_char x (lower s).
Proof.
  unfold lower at 1. rewrite <- (map_id (remove_char x (lower s))) at 2.
  apply map_ext_in. intros c Hin. apply In_remove_char in Hin.
  destruct Hin as [Hin _]. unfold lower in Hin. apply in_map_iff in Hin.
  destruct Hin as (y & <- & _). apply char_lower_idem.
Qed.

(** C8 (as amended): for every input, [normalize_position] returns a
    string without any space character (U+0020); whitespace of any kind
    around the input is ignored; the result is in lower case; and every
    character other than the space and '+' -- a tab or a newline inside
    the tag among them -- stands in the result exactly as often as in
    the trimmed, lower-cased input. *)
Theorem normalize_position_has_no_space :
  (forall pos : option str, has_char " " (normalize_position pos) = false) /\
  (forall pre s post : str,
      forallb isspace pre = true -> forallb isspace post = true ->
      normalize_position (Some (pre ++ s ++ post)) = normalize_position (Some s)) /\
  (forall pos : option str,
      lower (normalize_position pos) = normalize_position pos) /\
  (forall (s : str) (c : ascii),
      c <> " "%char -> c <> "+"%char ->
      count_occ ascii_dec (normalize_position (Some s)) c
      = count_occ ascii_dec (lower (strip s)) c).
Proof.
  split; [|split; [|split]].
  - intros [s|]; [|reflexivity].
    rewrite normalize_position_unfold. apply has_char_not_In. intros H.
    apply sort_segments_chars in H. destruct H as [H | H]; [discriminate|].
    apply In_remove_char in H. now destruct H.
  - intros pre s post Hpre Hpost.
    rewrite !normalize_position_unfold. now rewrite strip_surrounding.
  - intros [s|]; [|reflexivity].
    rewrite normalize_position_unfold. apply lower_sort_segments.
    apply lower_remove_char_lower.
  - intros s c Hsp Hplus. rewrite normalize_position_unfold.
    rewrite count_sort_segments by assumption.
    now apply count_remove_char.
Qed.

(** C8 (as amended) at " OPL + IPL " between a tab and a newline, and at
    " A", tab, "b " where the tab inside the tag is kept. *)
Lemma normalize_position_has_no_space_witness :
  normalize_position (Some (["009"%char] ++ py " OPL + IPL " ++ ["010"%char]))
  = py "ipl+opl" /\
  has_char " " (normalize_position (Some (py " OPL + IPL "))) = false /\
  lower (normalize_position (Some (py " OPL + IPL ")))
  = normalize_position (Some (py " OPL + IPL ")) /\
  count_occ ascii_dec
            (normalize_position (Some [" "; "A"; "009"; "b"; " "]%char)) "009"%char
  = 1.
Proof.
  split; [|split; [|split]].
  - rewrite (proj1 (proj2 normalize_position_has_no_space)
                   ["009"%char] (py " OPL + IPL ") ["010"%char]);
      reflexivity.
  - apply (proj1 normalize_position_has_no_space).
  - apply (proj1 (proj2 (proj2 normalize_position_has_no_space))).
  - refine (eq_trans (proj2 (proj2 (proj2 normalize_position_has_no_space))
                            [" "; "A"; "009"; "b"; " "]%char "009"%char _ _) _);
      [discriminate | discriminate | reflexivity].
Defined.

(** C8 (counterexample): a tab inside the tag survives normalisation, so
    the result can contain whitespace. *)
Lemma normalize_position_keeps_tab :
  normalize_position (Some ["a"; "009"; "b"]%char) = ["a"; "009"; "b"]%char /\
  existsb isspace (normalize_position (Some ["a"; "009"; "b"]%char)) = true.
Proof. split; reflexivity. Qed.

(** *** Splitting what was joined *)

Lemma str_split_no_sep (sep : ascii) (p : str) :
  has_char sep p = false -> str_split sep p = [p].
Proof.
  induction p as [|c p IH]; simpl; [reflexivity|].
  rewrite orb_false_iff. intros [Hc Hp].
  replace (char_eqb c sep) with false.
  - now rewrite IH.
  - symmetry. apply char_eqb_neq. apply char_eqb_neq in Hc. congruence.
Qed.

Lemma str_split_app_sep (sep : ascii) (p rest : str) :
  has_char sep p = false ->
  str_split sep (p ++ sep :: rest) = p :: str_split sep rest.
Proof.
  induction p as [|c p IH]; simpl.
  - now rewrite char_eqb_refl.
  - rewrite orb_false_iff. intros [Hc Hp].
    replace (char_eqb c sep) with false.
    + now rewrite IH.
    + symmetry. apply char_eqb_neq. apply char_eqb_neq in Hc. congruence.
Qed.

Lemma str_split_join (sep : ascii) (l : list str) :
  l <> [] -> Forall (fun p => has_char sep p = false) l ->
  str_split sep (str_join sep l) = l.
Proof.
  induction l as [|p l IH]; [congruence|]. intros _ H.
  inversion H as [|? ? Hp Hl]; subst. destruct l as [|q l].
  - simpl. now apply str_split_no_sep.
  - change (str_join sep (p :: q :: l)) with (p ++ sep :: str_join sep (q :: l)).
    rewrite str_split_app_sep by assumption. f_equal. apply IH; [discriminate | assumption].
Qed.

Lemma has_char_app (c : ascii) (a b : str) :
  has_char c (a ++ b) = has_char c a || has_char c b.
Proof. apply existsb_app. Qed.

Lemma str_join_has_sep (sep : ascii) (p q : str) (l : list str) :
  has_char sep (str_join sep (p :: q :: l)) = true.
Proof.
  change (str_join sep (p :: q :: l)) with (p ++ sep :: str_join sep (q :: l)).
  rewrite has_char_app. simpl. rewrite char_eqb_refl. apply orb_true_r.
Qed.

(** *** Tags made of segments *)

Lemma lower_alnum_plain (c : ascii) :
  lower_alnum c = true -> isspace c = false /\ char_eqb "+" c = false.
Proof. each_char c. Qed.

Lemma segment_no_plus (p : str) : is_segment p = true -> has_char "+" p = false.
Proof.
  unfold is_segment. rewrite andb_true_iff. intros [_ H].
  apply has_char_not_In. intros Hin. rewrite forallb_forall in H.
  apply H, lower_alnum_plain in Hin. destruct Hin as [_ Hin].
  now rewrite char_eqb_refl in Hin.
Qed.

Lemma segments_keep_filter (segs : list str) :
  forallb is_segment segs = true ->
  filter (fun p => negb (str_eqb p [])) segs = segs.
Proof.
  induction segs as [|p segs IH]; simpl; [reflexivity|].
  rewrite andb_true_iff. intros [Hp Hs]. unfold is_segment in Hp.
  apply andb_true_iff in Hp. destruct Hp as [-> _]. now rewrite IH.
Qed.

Lemma sort_segments_join (segs : list str) :
  forallb is_segment segs = true ->
  sort_segments (str_join "+" segs) = str_join "+" (sort_by str_ltb segs).
Proof.
  intros H. destruct segs as [|p [|q l]].
  - reflexivity.
  - simpl in H. rewrite andb_true_r in H. unfold sort_segments. simpl.
    now rewrite (segment_no_plus p H).
  - unfold sort_segments. rewrite str_join_has_sep, str_split_join.
    + now rewrite segments_keep_filter.
    + discriminate.
    + rewrite forallb_forall in H. apply Forall_forall.
      intros x Hx. now apply segment_no_plus, H.
Qed.

(** A text that spells the tag [segs] up to letter case, spaces, and
    whitespace of any kind around it, normalises to the sorted tag. *)
Lemma normalize_position_of_segments (segs : list str) (pre body post : str) :
  forallb is_segment segs = true ->
  forallb isspace pre = true -> forallb isspace post = true ->
  remove_char " " (lower body) = str_join "+" segs ->
  normalize_position (Some (pre ++ body ++ post))
  = str_join "+" (sort_by str_ltb segs).
Proof.
  intros Hsegs Hpre Hpost Hbody.
  rewrite normalize_position_unfold, strip_surrounding by assumption.
  rewrite clean_strip.
  - rewrite Hbody. now apply sort_segments_join.
  - intros c Hc Hs.
    destruct (char_eqb c " ") eqn:E; [now apply char_eqb_eq|]. exfalso.
    apply char_eqb_neq in E.
    pose proof (odd_space_survives body c Hc Hs E) as Hin.
    rewrite Hbody in Hin. apply In_str_join in Hin.
    destruct Hin as [-> | (p & Hp & Hcp)]; [discriminate|].
    rewrite forallb_forall in Hsegs. apply Hsegs in Hp.
    unfold is_segment in Hp. apply andb_true_iff in Hp. destruct Hp as [_ Hp].
    rewrite forallb_forall in Hp. apply Hp, lower_alnum_plain in Hcp.
    destruct Hcp. congruence.
Qed.

(** C3: two texts that spell '+'-joins of permutations of the same
    lowercase alphanumeric segments, up to letter case, spaces and
    surrounding whitespace, normalise to the same string: the segments
    in ascending lexicographic order joined by '+'. *)
Theorem normalize_position_permutation_invariant
        (segs1 segs2 : list str) (pre1 body1 post1 pre2 body2 post2 : str) :
  forallb is_segment segs1 = true ->
  Permutation segs1 segs2 ->
  forallb isspace pre1 = true -> forallb isspace post1 = true ->
  remove_char " " (lower body1) = str_join "+" segs1 ->
  forallb isspace pre2 = true -> forallb isspace post2 = true ->
  remove_char " " (lower body2) = str_join "+" segs2 ->
  let sorted := sort_by str_ltb segs1 in
  Permutation segs1 sorted /\
  StronglySorted (not_after str_ltb) sorted /\
  normalize_position (Some (pre1 ++ body1 ++ post1)) = str_join "+" sorted /\
  normalize_position (Some (pre2 ++ body2 ++ post2)) = str_join "+" sorted.
Proof.
  intros Hsegs P Hpre1 Hpost1 Hbody1 Hpre2 Hpost2 Hbody2 sorted.
  subst sorted. repeat split.
  - apply sort_by_perm.
  - apply sort_strings_sorted.
  - now apply normalize_position_of_segments.
  - rewrite (sort_strings_perm_invariant segs1 segs2 P).
    apply normalize_position_of_segments; auto.
    rewrite forallb_forall in *. intros x Hx. apply Hsegs.
    now apply (Permutation_in x (Permutation_sym P)).
Qed.

(** C3 at the tags "opl+ipl" and "ipl+opl": both normalise to "ipl+opl". *)
Lemma normalize_position_permutation_witness :
  normalize_position (Some (py "opl+ipl")) = py "ipl+opl" /\
  normalize_position (Some (py "ipl+opl")) = py "ipl+opl".
Proof.
  destruct (normalize_position_permutation_invariant
              [py "opl"; py "ipl"] [py "ipl"; py "opl"]
              [] (py "opl+ipl") [] [] (py "ipl+opl") [])
    as (P & S & E1 & E2);
    try reflexivity; [apply perm_swap|].
  split; [exact E1 | exact E2].
Defined.

(** ** The matcher against the language of a pattern *)

Lemma rep_run_eq {X} cls greedy lo hi s (k : str -> option X) :
  rep_run cls greedy lo hi s k =
  let stop := fun _ : unit => if (lo =? 0)%nat then k s else None in
  let more := fun _ : unit =>
    match s with
    | c :: s' =>
        if cls c && room hi
        then rep_run cls greedy (pred lo) (option_map pred hi) s' k
        else None
    | [] => None
    end in
  if greedy then or_else (more tt) stop else or_else (stop tt) more.
Proof. destruct s; reflexivity. Qed.

Lemma or_else_some {X} (a : option X) (b : unit -> option X) (res : X) :
  or_else a b = Some res -> a = Some res \/ b tt = Some res.
Proof. destruct a; simpl; auto. Qed.

Lemma rep_run_sound {X} cls greedy (s : str) :
  forall lo hi (k : str -> option X) res,
    rep_run cls greedy lo hi s k = Some res ->
    exists w s', s = w ++ s' /\ forallb cls w = true /\
                 lo <= List.length w /\ within hi (List.length w) /\
                 k s' = Some res.
Proof.
  induction s as [|c s IH]; intros lo hi k res H; rewrite rep_run_eq in H;
    cbv zeta in H.
  - assert (Hstop : (if (lo =? 0)%nat then k [] else None) = Some res).
    { destruct greedy; apply or_else_some in H; destruct H; auto; discriminate. }
    destruct (Nat.eqb_spec lo 0); [|discriminate].
    exists [], []. subst lo. repeat split; auto. destruct hi; simpl; lia.
  - assert (Hcases :
              (if (lo =? 0)%nat then k (c :: s) else None) = Some res \/
              (if cls c && room hi
               then rep_run cls greedy (pred lo) (option_map pred hi) s k
               else None) = Some res).
    { destruct greedy; apply or_else_some in H; tauto. }
    destruct Hcases as [Hstop | Hmore].
    + destruct (Nat.eqb_spec lo 0); [|discriminate].
      exists [], (c :: s). subst lo. repeat split; auto. destruct hi; simpl; lia.
    + destruct (cls c) eqn:Ec; [|discriminate].
      destruct (room hi) eqn:Er; [|discriminate]. simpl in Hmore.
      apply IH in Hmore. destruct Hmore as (w & s' & -> & Hw & Hlo & Hhi & Hk).
      exists (c :: w), s'. simpl. rewrite Ec. repeat split; auto; [lia|].
      destruct hi as [[|h]|]; simpl in *; try discriminate; auto; lia.
Qed.

Lemma run_sound (r : regex) :
  forall s g k res,
    run r s g k = Some res ->
    exists s' g', matches r s s' /\ k s' g' = Some res.
Proof.
  induction r as [l | cls lo hi greedy | r1 IH1 r2 IH2 | r1 IH1 r2 IH2
                  | r1 IH1 | name r1 IH1 | ]; intros s g k res H; simpl in H.
  - destruct (eat_literal l s) as [s'|] eqn:E; [|discriminate].
    exists s', g. auto.
  - apply rep_run_sound in H. destruct H as (w & s' & Hs & Hw & Hlo & Hhi & Hk).
    exists s', g. split; [|assumption]. exists w. auto.
  - apply IH1 in H. destruct H as (mid & g1 & M1 & H).
    apply IH2 in H. destruct H as (s' & g2 & M2 & H).
    exists s', g2. split; [|assumption]. exists mid. auto.
  - apply or_else_some in H. destruct H as [H | H].
    + apply IH1 in H. destruct H as (s' & g' & M & Hk).
      exists s', g'. simpl. auto.
    + apply IH2 in H. destruct H as (s' & g' & M & Hk).
      exists s', g'. simpl. auto.
  - apply or_else_some in H. destruct H as [H | H].
    + apply IH1 in H. destruct H as (s' & g' & M & Hk).
      exists s', g'. simpl. auto.
    + exists s, g. simpl. auto.
  - apply IH1 in H. destruct H as (s' & g' & M & Hk).
    exists s', ((name, consumed s s') :: g'). auto.
  - destruct s as [|c [|d s]]; try discriminate.
    + exists [], g. simpl. auto.
    + destruct (char_eqb c "010") eqn:E; [|discriminate].
      apply char_eqb_eq in E. subst c. exists ["010"%char], g. simpl. auto.
Qed.

Lemma rep_run_complete {X} cls greedy (w : str) :
  forall lo hi s' (k : str -> option X),
    forallb cls w = true -> lo <= List.length w -> within hi (List.length w) ->
    k s' <> None ->
    rep_run cls greedy lo hi (w ++ s') k <> None.
Proof.
  induction w as [|c w IH]; intros lo hi s' k Hw Hlo Hhi Hk;
    rewrite rep_run_eq; cbv zeta.
  - simpl in Hlo. replace lo with 0 by lia. simpl app.
    change (0 =? 0)%nat with true. cbv iota.
    destruct greedy; unfold or_else.
    + destruct (match s' with [] => None | _ => _ end); [discriminate | assumption].
    + destruct (k s'); [discriminate | congruence].
  - simpl in Hw. apply andb_true_iff in Hw. destruct Hw as [Hc Hw].
    simpl app. cbv iota. rewrite Hc.
    assert (Hr : room hi = true).
    { destruct hi as [[|h]|]; simpl in *; auto; lia. }
    rewrite Hr. simpl andb. cbv iota.
    assert (Hmore : rep_run cls greedy (pred lo) (option_map pred hi) (w ++ s') k
                    <> None).
    { apply IH; auto; [simpl in Hlo; lia|].
      destruct hi as [h|]; simpl in *; auto; lia. }
    destruct greedy; unfold or_else.
    + destruct (rep_run cls true (pred lo) (option_map pred hi) (w ++ s') k);
        [discriminate | congruence].
    + destruct (if (lo =? 0)%nat then k (c :: w ++ s') else None);
        [discriminate | assumption].
Qed.

Lemma run_complete (r : regex) :
  forall s s' g k,
    matches r s s' -> (forall g', k s' g' <> None) -> run r s g k <> None.
Proof.
  induction r as [l | cls lo hi greedy | r1 IH1 r2 IH2 | r1 IH1 r2 IH2
                  | r1 IH1 | name r1 IH1 | ]; intros s s' g k M Hk; simpl in *.
  - rewrite M. apply Hk.
  - destruct M as (w & -> & Hw & Hlo & Hhi).
    apply rep_run_complete; auto.
  - destruct M as (mid & M1 & M2).
    apply (IH1 s mid); [assumption|]. intros g'. now apply (IH2 mid s').
  - unfold or_else. destruct (run r1 s g k) eqn:E; [discriminate|].
    destruct M as [M | M].
    + exfalso. revert E. now apply (IH1 s s').
    + now apply (IH2 s s').
  - unfold or_else. destruct (run r1 s g k) eqn:E; [discriminate|].
    destruct M as [M | ->].
    + exfalso. revert E. now apply (IH1 s s').
    + apply Hk.
  - apply (IH1 s s'); [assumption|]. intros g'. apply Hk.
  - destruct M as [-> [-> | ->]]; [apply Hk|].
    change (char_eqb "010" "010") with true. apply Hk.
Qed.

(** [match] succeeds exactly on the texts with a prefix in the language. *)
Lemma re_match_iff (r : regex) (s : str) :
  re_match r s <> None <-> exists s', matches r s s'.
Proof.
  unfold re_match. split.
  - destruct (run r s [] (fun _ g => Some g)) eqn:E; [|congruence]. intros _.
    apply run_sound in E. destruct E as (s' & g' & M & _). eauto.
  - intros (s' & M). apply (run_complete r s s'); [assumption | discriminate].
Qed.

(** ** [NAME_RE] *)

Lemma eat_literal_cons (x : ascii) (l s s' : str) :
  eat_literal (x :: l) s = Some s' ->
  exists y s1, s = y :: s1 /\ char_lower x = char_lower y /\
               eat_literal l s1 = Some s'.
Proof.
  destruct s as [|y s1]; simpl; [discriminate|].
  destruct (char_eqb (char_lower x) (char_lower y)) eqn:E; [|discriminate].
  apply char_eqb_eq in E. eauto.
Qed.

Lemma eat_literal_suffix (l s s' : str) :
  eat_literal l s = Some s' -> exists w, s = w ++ s' /\ lower w = lower l.
Proof.
  revert s. induction l as [|x l IH]; intros s H.
  - injection H as <-. now exists [].
  - apply eat_literal_cons in H. destruct H as (y & s1 & -> & E & H).
    apply IH in H. destruct H as (w & -> & Hw).
    exists (y :: w). simpl. now rewrite Hw, E.
Qed.

Lemma eat_literal_app (l w s' : str) :
  lower w = lower l -> eat_literal l (w ++ s') = Some s'.
Proof.
  revert w. induction l as [|x l IH]; intros [|y w]; simpl; try discriminate.
  - reflexivity.
  - intros [= E H]. rewrite E, char_eqb_refl. auto.
Qed.

Lemma matches_suffix (r : regex) :
  forall s s', matches r s s' -> exists w, s = w ++ s'.
Proof.
  induction r as [l | cls lo hi greedy | r1 IH1 r2 IH2 | r1 IH1 r2 IH2
                  | r1 IH1 | name r1 IH1 | ]; intros s s' M; simpl in M.
  - apply eat_literal_suffix in M. destruct M as (w & -> & _). eauto.
  - destruct M as (w & -> & _). eauto.
  - destruct M as (mid & M1 & M2).
    apply IH1 in M1. apply IH2 in M2. destruct M1 as (w1 & ->), M2 as (w2 & ->).
    exists (w1 ++ w2). now rewrite app_assoc.
  - destruct M as [M | M]; eauto.
  - destruct M as [M | ->]; eauto. now exists [].
  - eauto.
  - destruct M as [-> _]. now exists [].
Qed.

Lemma has_kind_position_group_app (w s : str) :
  has_kind_position_group s = true -> has_kind_position_group (w ++ s) = true.
Proof.
  intros H. induction w as [|c w IH]; [assumption|].
  simpl app. simpl has_kind_position_group. rewrite IH. apply orb_true_r.
Qed.

Lemma char_lower_open_paren (y : ascii) :
  char_lower "(" = char_lower y -> y = "("%char.
Proof. each_char y. Qed.

Lemma char_lower_close_paren (y : ascii) :
  char_lower ")" = char_lower y -> y = ")"%char.
Proof. each_char y. Qed.

Lemma char_lower_dash (y : ascii) :
  char_lower "-" = char_lower y -> y = "-"%char.
Proof. each_char y. Qed.

(** The two marker names cannot both start a text. *)
Lemma marker_literals_disjoint (s a b : str) :
  eat_literal (py "microglia") s = Some a ->
  eat_literal (py "ribeyes") s = Some b -> False.
Proof.
  intros Ha Hb.
  apply eat_literal_cons in Ha. destruct Ha as (y & s1 & -> & E1 & _).
  apply eat_literal_cons in Hb. destruct Hb as (y' & s2 & [= <- <-] & E2 & _).
  rewrite <- E1 in E2. discriminate.
Qed.

Lemma group_at_head (s : str) :
  kind_position_group_at s = true -> has_kind_position_group s = true.
Proof.
  intros H. destruct s as [|c s]; [discriminate|].
  change (kind_position_group_at (c :: s) || has_kind_position_group s = true).
  now rewrite H.
Qed.

Lemma kind_position_group_at_intro (s1 : str) (p : ascii) (rest : str) :
  or_else (eat_literal (py "microglia") s1)
          (fun _ => eat_literal (py "ribeyes") s1)
  = Some ("-"%char :: p :: rest) ->
  char_eqb p ")" = false -> has_char ")" rest = true ->
  kind_position_group_at ("("%char :: s1) = true.
Proof.
  intros Hk Hp Hr. unfold kind_position_group_at.
  rewrite Hk, Hp, Hr. reflexivity.
Qed.

(** What follows the optional view token of a matching name is a
    parenthesised kind-position group. *)
Lemma NAME_RE_has_group (name s' : str) :
  matches NAME_RE name s' -> has_kind_position_group name = true.
Proof.
  unfold NAME_RE. cbn [matches].
  intros (m1 & M1 & m2 & M2 & m3 & M3 & m4 & M4 & m5 & M5 & m6 & M6 &
          m7 & M7 & m8 & M8 & m9 & M9 & _).
  assert (Hsuf : exists w, name = w ++ m4).
  { apply (matches_suffix
             (Seq (Group (py "mouse") (Seq (Lit (py "p")) (Rep is_decimal 1 None true)))
                  (Seq (Lit (py "-"))
                       (Seq (Rep any_but_newline 0 None false)
                            (Opt (Seq (Lit (py "_"))
                                      (Group (py "view")
                                             (Rep is_decimal 3 (Some 6) true)))))))).
    cbn [matches]. exists m1. split; [exact M1|].
    exists m2. split; [exact M2|]. exists m3. split; [exact M3 | exact M4]. }
  destruct Hsuf as (w & ->). apply has_kind_position_group_app.
  apply eat_literal_cons in M5. destruct M5 as (y & s1 & -> & Ey & M5).
  injection M5 as ->.
  apply char_lower_open_paren in Ey. subst y.
  apply eat_literal_cons in M7. destruct M7 as (d & s2 & -> & Ed & M7).
  injection M7 as ->.
  apply char_lower_dash in Ed. subst d.
  destruct M8 as (pos & -> & Hpos & Hlen & _).
  destruct pos as [|p pos]; [simpl in Hlen; lia|].
  simpl in Hpos. apply andb_true_iff in Hpos. destruct Hpos as [Hp _].
  apply eat_literal_cons in M9. destruct M9 as (z & s3 & -> & Ez & _).
  apply char_lower_close_paren in Ez. subst z.
  assert (Hkind : or_else (eat_literal (py "microglia") m5)
                          (fun _ => eat_literal (py "ribeyes") m5)
                  = Some ("-"%char :: (p :: pos) ++ ")"%char :: s3)).
  { destruct M6 as [M6 | M6].
    - now rewrite M6.
    - destruct (eat_literal (py "microglia") m5) eqn:E; [|exact M6].
      exfalso. eapply marker_literals_disjoint; eauto. }
  apply group_at_head.
  apply (kind_position_group_at_intro m5 p (pos ++ ")"%char :: s3) Hkind).
  - unfold not_close_paren in Hp. now apply negb_true_iff in Hp.
  - rewrite has_char_app. simpl. apply orb_true_r.
Qed.

Lemma parse_from_name_matches (name : str) :
  parse_from_name name <> None <-> exists s', matches NAME_RE name s'.
Proof.
  rewrite <- re_match_iff. unfold parse_from_name.
  destruct (re_match NAME_RE name); split; congruence.
Qed.

(** C7: a name without a parenthesised kind-position group, such as
    p3-xyz_Detailed.csv, is rejected: [parse_from_name] returns [None]. *)
Theorem parse_from_name_rejects_missing_group (name : str) :
  has_kind_position_group name = false -> parse_from_name name = None.
Proof.
  intros H. destruct (parse_from_name name) eqn:E; [|reflexivity].
  assert (Hm : parse_from_name name <> None) by congruence.
  apply parse_from_name_matches in Hm. destruct Hm as (s' & M).
  apply NAME_RE_has_group in M. congruence.
Qed.

(** C7 at p3-xyz_Detailed.csv. *)
Lemma parse_from_name_rejects_witness :
  parse_from_name (py "p3-xyz_Detailed.csv") = None.
Proof.
  apply parse_from_name_rejects_missing_group. reflexivity.
Defined.

(** C4: p3-xyz_000123(microglia-opl+ipl)_Detailed.csv parses to subject
    p3, view 000123, normalised position ipl+opl and kind microglia. *)
Theorem parse_from_name_round_trip :
  parse_from_name (py "p3-xyz_000123(microglia-opl+ipl)_Detailed.csv")
  = Some (py "p3", py "000123", py "ipl+opl", py "microglia").
Proof. vm_compute. reflexivity. Qed.

Lemma eat_literal_exact (l s' : str) : eat_literal l (l ++ s') = Some s'.
Proof. now apply eat_literal_app. Qed.

Lemma nonempty_length (s : str) : str_eqb s [] = false -> 1 <= List.length s.
Proof. destruct s; simpl; [discriminate | lia]. Qed.

Lemma tagless_name_matches digits filler view kind pos csv :
  parts_fit_grammar digits filler view kind pos = true ->
  matches NAME_RE (tagless_name digits filler view kind pos csv) [].
Proof.
  unfold parts_fit_grammar. rewrite !andb_true_iff, !negb_true_iff, orb_true_iff.
  intros [[[[[[Hd1 Hd2] Hf] Hv] Hk] Hp1] Hp2].
  unfold NAME_RE, tagless_name. cbn [matches].
  eexists. split.
  { eexists. split; [apply eat_literal_exact|].
    exists digits. split; [reflexivity|].
    repeat split; auto. now apply nonempty_length. }
  eexists. split; [apply eat_literal_exact|].
  eexists. split.
  { exists filler. split; [reflexivity|]. repeat split; auto. lia. }
  eexists. split.
  { destruct view as [v|].
    - left. rewrite <- app_assoc. eexists. split; [apply eat_literal_exact|].
      exists v. split; [reflexivity|].
      rewrite !andb_true_iff, !Nat.leb_le in Hv. simpl. tauto.
    - right. reflexivity. }
  eexists. split; [apply eat_literal_exact|].
  eexists. split.
  { rewrite !str_eqb_eq in Hk. destruct Hk as [Hk | Hk].
    - left. apply eat_literal_app. now rewrite Hk.
    - right. apply eat_literal_app. now rewrite Hk. }
  eexists. split; [apply eat_literal_exact|].
  eexists. split.
  { exists pos. split; [reflexivity|]. repeat split; auto.
    now apply nonempty_length. }
  eexists. split; [apply eat_literal_exact|].
  eexists. split; [apply eat_literal_exact|].
  eexists. split; [right; reflexivity|].
  destruct csv.
  - exists []. split; [left; reflexivity | split; auto].
  - exists []. split; [right; reflexivity | split; auto].
Qed.

(** C5 (as amended): a name that follows the grammar and carries no
    Detailed/Statistics tag is still parsed provided the underscore that
    follows the parenthesised group is present, as in
    p3-xyz(microglia-opl)_ and p3-xyz(microglia-opl)_.csv. *)
Theorem parse_from_name_tag_optional digits filler view kind pos csv :
  parts_fit_grammar digits filler view kind pos = true ->
  parse_from_name (tagless_name digits filler view kind pos csv) <> None.
Proof.
  intros H. apply parse_from_name_matches. exists [].
  now apply tagless_name_matches.
Qed.

(** C5 (as amended) at p3-xyz(microglia-opl)_ and p3-xyz(microglia-opl)_.csv. *)
Lemma parse_from_name_tag_optional_witness :
  parse_from_name (py "p3-xyz(microglia-opl)_") <> None /\
  parse_from_name (py "p3-xyz(microglia-opl)_.csv") <> None.
Proof.
  split.
  - apply (parse_from_name_tag_optional
             (py "3") (py "xyz") None (py "microglia") (py "opl") false).
    reflexivity.
  - apply (parse_from_name_tag_optional
             (py "3") (py "xyz") None (py "microglia") (py "opl") true).
    reflexivity.
Defined.

(** C5 (counterexample): without the underscore after the group neither
    p3-xyz(microglia-opl) nor p3-xyz(microglia-opl).csv is parsed. *)
Lemma parse_from_name_needs_underscore :
  parse_from_name (py "p3-xyz(microglia-opl)") = None /\
  parse_from_name (py "p3-xyz(microglia-opl).csv") = None.
Proof. split; vm_compute; reflexivity. Qed.

(** ** The summary table *)

Section TableFacts.
Context {V : Type}.
Implicit Types (summary : summary_table V) (key : row_key) (r : row V).

Lemma process_csv_resolve fixed summary (csv : str * option V) :
  process_csv fixed summary csv =
  match resolve fixed (fst csv) with
  | None => summary
  | Some (key, kind) => store key kind (snd csv) summary
  end.
Proof.
  unfold process_csv, resolve, store.
  destruct fixed as [[[m v] p]|];
    destruct (parse_from_name (fst csv)) as [[[[m' v'] p'] [|c kind]]|];
    cbn [falsy fst snd];
    destruct (contains (py "ribeyes") (lower (fst csv)));
    try reflexivity;
    destruct (contains (py "microglia") (lower (fst csv)));
    reflexivity.
Qed.

(** Once the folder name parsed, every file resolves to its key. *)
Lemma resolve_fixed key csv_name key' kind :
  resolve (Some key) csv_name = Some (key', kind) -> key' = key.
Proof.
  unfold resolve.
  destruct (parse_from_name csv_name) as [[[[m' v'] p'] [|c k]]|];
    destruct (contains (py "ribeyes") (lower csv_name));
    destruct (contains (py "microglia") (lower csv_name));
    simpl; congruence.
Qed.

Lemma lookup_app key summary (e : row_key * row V) :
  lookup key (summary ++ [e]) =
  match lookup key summary with
  | Some r => Some r
  | None => if key_eqb (fst e) key then Some (snd e) else None
  end.
Proof.
  induction summary as [|[k r] summary IH]; simpl.
  - now destruct e.
  - destruct (key_eqb k key); auto.
Qed.

Lemma lookup_modify key key' f summary :
  lookup key (modify key' f summary) =
  if key_eqb key' key then option_map f (lookup key summary)
  else lookup key summary.
Proof.
  induction summary as [|[k r] summary IH]; simpl.
  - now destruct (key_eqb key' key).
  - destruct (key_eqb k key') eqn:E1; simpl.
    + apply key_eqb_eq in E1. subst k.
      destruct (key_eqb key' key); reflexivity.
    + destruct (key_eqb k key) eqn:E2; [|assumption].
      apply key_eqb_eq in E2. subst k.
      replace (key_eqb key' key) with false; [reflexivity|].
      symmetry. apply key_eqb_neq. apply key_eqb_neq in E1. congruence.
Qed.

Lemma store_eq key kind val summary :
  store key kind val summary =
  modify key (write_row kind val)
         (if has_key key summary then summary
          else summary ++ [(key, new_row key)]).
Proof.
  unfold store, write_row, new_row. destruct key as [[m v] p].
  destruct (str_eqb kind (py "ribeyes")); [reflexivity|].
  destruct (str_eqb kind (py "microglia")); [reflexivity|].
  set (s := if has_key _ _ then _ else _). clearbody s.
  induction s as [|[k r] s IH]; simpl; [reflexivity|].
  destruct (key_eqb k (m, v, p)); [reflexivity | now rewrite <- IH].
Qed.

Lemma lookup_store key key' kind val summary :
  lookup key (store key' kind val summary) =
  if key_eqb key' key
  then Some (write_row kind val
               (match lookup key summary with Some r => r | None => new_row key end))
  else lookup key summary.
Proof.
  rewrite store_eq, lookup_modify. unfold has_key.
  destruct (key_eqb key' key) eqn:E.
  - apply key_eqb_eq in E. subst key'.
    destruct (lookup key summary) eqn:L; simpl.
    + now rewrite L.
    + rewrite lookup_app, L. simpl. now rewrite key_eqb_refl.
  - destruct (lookup key' summary) eqn:L; [reflexivity|].
    rewrite lookup_app. simpl. rewrite E. now destruct (lookup key summary).
Qed.

Lemma write_row_identity kind val r :
  mouse_ID (write_row kind val r) = mouse_ID r /\
  view_id (write_row kind val r) = view_id r /\
  position (write_row kind val r) = position r.
Proof.
  unfold write_row.
  destruct (str_eqb kind (py "ribeyes")); [simpl; auto|].
  destruct (str_eqb kind (py "microglia")); simpl; auto.
Qed.

Lemma modify_keys key f summary :
  map fst (modify key f summary) = map fst summary.
Proof.
  induction summary as [|[k r] summary IH]; simpl; [reflexivity|].
  destruct (key_eqb k key); simpl; [reflexivity | now rewrite IH].
Qed.

Lemma coherent_modify key f summary :
  (forall r, (mouse_ID (f r), view_id (f r), position (f r))
             = (mouse_ID r, view_id r, position r)) ->
  coherent summary -> coherent (modify key f summary).
Proof.
  intros Hf. unfold coherent.
  induction summary as [|[k r] summary IH]; simpl; intros H; [constructor|].
  inversion H as [|? ? Hk Hrest]; subst. simpl in Hk.
  destruct (key_eqb k key).
  - constructor; [simpl; now rewrite Hf | assumption].
  - constructor; [assumption | auto].
Qed.

Lemma coherent_store key kind val summary :
  coherent summary -> coherent (store key kind val summary).
Proof.
  intros H. rewrite store_eq. apply coherent_modify.
  - intros r. destruct (write_row_identity kind val r) as (-> & -> & ->).
    reflexivity.
  - destruct (has_key key summary); [assumption|].
    apply Forall_app. split; [assumption|].
    constructor; [|constructor]. now destruct key as [[m v] p].
Qed.

Lemma coherent_lookup summary key r :
  coherent summary -> lookup key summary = Some r ->
  key = (mouse_ID r, view_id r, position r).
Proof.
  unfold coherent. induction summary as [|[k r'] summary IH]; simpl;
    intros H L; [discriminate|].
  inversion H as [|? ? Hk Hrest]; subst. simpl in Hk.
  destruct (key_eqb k key) eqn:E; [|auto].
  apply key_eqb_eq in E. congruence.
Qed.

Lemma reachable_coherent summary : reachable summary -> coherent summary.
Proof.
  induction 1 as [|fixed summary csv _ IH]; [constructor|].
  rewrite process_csv_resolve.
  destruct (resolve fixed (fst csv)) as [[key kind]|]; [|assumption].
  now apply coherent_store.
Qed.

Lemma fold_process_csv_reachable fixed csvs summary :
  reachable summary -> reachable (fold_left (process_csv fixed) csvs summary).
Proof.
  revert summary. induction csvs as [|csv csvs IH]; simpl; intros summary H;
    [assumption|].
  apply IH. now constructor.
Qed.

Lemma process_dirs_reachable dirs summary table :
  reachable summary -> process_dirs summary dirs = Some table ->
  reachable table.
Proof.
  revert summary. induction dirs as [|d dirs IH]; simpl; intros summary H E.
  - now injection E as <-.
  - destruct (process_dir summary d) as [summary'|] eqn:Ed; [|discriminate].
    apply (IH summary'); [|assumption].
    unfold process_dir in Ed.
    destruct (list_csv_in_dir d) as [[|csv csvs]|]; try discriminate.
    + now injection Ed as <-.
    + injection Ed as <-. apply fold_process_csv_reachable. now constructor.
Qed.

Lemma build_summary_reachable sep (input_dir : fs_tree V) table :
  build_summary sep input_dir = Some table -> reachable table.
Proof.
  unfold build_summary.
  destruct (list_all_dirs sep input_dir) as [dirs|]; [|discriminate].
  apply process_dirs_reachable. constructor.
Qed.

(** C10: in every table the aggregation passes through, and in the
    table [build_summary] returns, each key maps to a record whose
    subject, view and position are the components of the key; handling
    one more file leaves these three fields of every existing record
    as they are. *)
Theorem key_record_coherence summary :
  reachable summary \/
  (exists sep (input_dir : fs_tree V),
      build_summary sep input_dir = Some summary) ->
  (forall key r,
      lookup key summary = Some r ->
      key = (mouse_ID r, view_id r, position r)) /\
  (forall fixed csv key r,
      lookup key summary = Some r ->
      exists r', lookup key (process_csv fixed summary csv) = Some r' /\
                 mouse_ID r' = mouse_ID r /\ view_id r' = view_id r /\
                 position r' = position r).
Proof.
  intros H.
  assert (R : reachable summary).
  { destruct H as [H | (sep & input_dir & H)]; [assumption|].
    eapply build_summary_reachable; eauto. }
  split.
  - intros key r. apply coherent_lookup. now apply reachable_coherent.
  - intros fixed csv key r L. rewrite process_csv_resolve.
    destruct (resolve fixed (fst csv)) as [[key' kind]|]; [|eauto].
    rewrite lookup_store, L.
    destruct (key_eqb key' key); [|eauto].
    eexists. split; [reflexivity|]. apply write_row_identity.
Qed.
End TableFacts.

(** ** Kind resolution and folder precedence *)

Section ResolutionFacts.
Context {V : Type}.

(** C6 (as amended): a file whose own name does not parse carries no
    explicit kind. In a unit whose folder name parsed, its kind is then
    sniffed from the lower-cased file name with "ribeyes" (marker a)
    tried first, "microglia" (marker b) second, and the file is skipped
    when neither occurs; in a unit whose folder name did not parse the
    file is skipped without sniffing. *)
Theorem kind_sniffing_order (fixed : option row_key)
        (summary : summary_table V) (csv_name : str) (val : option V) :
  parse_from_name csv_name = None ->
  process_csv fixed summary (csv_name, val) =
  match fixed with
  | None => summary
  | Some key =>
      if contains (py "ribeyes") (lower csv_name)
      then store key (py "ribeyes") val summary
      else if contains (py "microglia") (lower csv_name)
           then store key (py "microglia") val summary
           else summary
  end.
Proof.
  intros H. rewrite process_csv_resolve. unfold resolve. cbn [fst snd].
  rewrite H. destruct fixed as [key|]; [|reflexivity].
  destruct (contains (py "ribeyes") (lower csv_name)); [reflexivity|].
  destruct (contains (py "microglia") (lower csv_name)); reflexivity.
Qed.

Lemma fold_process_csv_other fixed (key : row_key) csvs :
  forall summary : summary_table V,
    (forall csv key' kind,
        In csv csvs -> resolve fixed (fst csv) = Some (key', kind) ->
        key' <> key) ->
    lookup key (fold_left (process_csv fixed) csvs summary)
    = lookup key summary.
Proof.
  induction csvs as [|csv csvs IH]; intros summary H; simpl; [reflexivity|].
  rewrite IH by (intros; eapply H; simpl; eauto).
  rewrite process_csv_resolve.
  destruct (resolve fixed (fst csv)) as [[key' kind]|] eqn:E; [|reflexivity].
  rewrite lookup_store.
  replace (key_eqb key' key) with false; [reflexivity|].
  symmetry. apply key_eqb_neq. eapply H; simpl; eauto.
Qed.

End ResolutionFacts.

(** C6 (counterexample): in a unit whose folder fixed the key, the file
    microglia_ribeyes.csv, whose name holds both marker names, is stored
    as ribeyes (marker a), not as microglia (marker b). *)
Lemma sniffing_prefers_ribeyes :
  process_csv (Some (py "p1", py "/", py "opl")) []
              (py "microglia_ribeyes.csv", Some (5 # 2)%Q)
  = [((py "p1", py "/", py "opl"),
      {| mouse_ID := py "p1"; view_id := py "/"; position := py "opl";
         Ribeyes := Some (5 # 2)%Q; microglia := None;
         engulfment_index := None |})].
Proof. vm_compute. reflexivity. Qed.

(** C6 (as amended) at ribeyes_only.csv, microglia_only.csv and notes.csv. *)
Lemma kind_sniffing_order_witness :
  let key := (py "p1", py "/", py "opl") in
  process_csv (Some key) [] (py "microglia_only.csv", Some (5 # 4)%Q)
  = store key (py "microglia") (Some (5 # 4)%Q) [] /\
  process_csv (Some key) [] (py "notes.csv", Some (5 # 4)%Q) = [].
Proof.
  split.
  - apply (kind_sniffing_order (Some (py "p1", py "/", py "opl")) []
                               (py "microglia_only.csv")).
    vm_compute. reflexivity.
  - apply (kind_sniffing_order (Some (py "p1", py "/", py "opl")) []
                               (py "notes.csv")).
    vm_compute. reflexivity.
Defined.

(** C1 (counterexample): the folder name p5-foo(ribeyes-gcl) does not
    match the parser, the file name does not either, and no row is
    produced. *)
Lemma folder_without_underscore_gives_no_row :
  parse_from_name (py "p5-foo(ribeyes-gcl)") = None /\
  process_dir [] (example_unit "p5-foo(ribeyes-gcl)" (Some (5 # 2)%Q)) = Some [] /\
  build_summary "/" (FsDir (py "InputFolder") []
                       [FsDir (py "p5-foo(ribeyes-gcl)")
                              [(py "unrelated_0007(microglia-gcl)_Statistics.csv",
                                Some (5 # 2)%Q)] []])
  = Some [].
Proof. repeat split; vm_compute; reflexivity. Qed.

(** ** Merging the two markers of a key *)

Section Writes.
Context {V : Type}.

Lemma fold_process_csv_writes fixed csvs :
  forall summary : summary_table V,
    fold_left (process_csv fixed) csvs summary
    = fold_left apply_write (writes_of_csvs fixed csvs) summary.
Proof.
  induction csvs as [|csv csvs IH]; intros summary; simpl; [reflexivity|].
  rewrite fold_left_app, IH, process_csv_resolve.
  now destruct (resolve fixed (fst csv)) as [[key kind]|].
Qed.

Lemma process_dir_writes (summary : summary_table V) d :
  process_dir summary d
  = option_map (fun ws => fold_left apply_write ws summary) (writes_of_dir d).
Proof.
  unfold process_dir, writes_of_dir.
  destruct (list_csv_in_dir d) as [[|csv csvs]|]; try reflexivity.
  simpl option_map. now rewrite fold_process_csv_writes.
Qed.

Lemma process_dirs_writes dirs :
  forall summary : summary_table V,
    process_dirs summary dirs
    = option_map (fun ws => fold_left apply_write ws summary)
                 (writes_of_dirs dirs).
Proof.
  induction dirs as [|d dirs IH]; intros summary; simpl; [reflexivity|].
  rewrite process_dir_writes.
  destruct (writes_of_dir d) as [ws|]; simpl; [|reflexivity].
  rewrite IH. destruct (writes_of_dirs dirs) as [ws'|]; simpl; [|reflexivity].
  now rewrite fold_left_app.
Qed.

(** [build_summary] is the fold of the resolved files over the empty
    table. *)
Lemma build_summary_writes sep (input_dir : fs_tree V) :
  build_summary sep input_dir
  = option_map (fun ws => fold_left apply_write ws [])
               (writes_of_run sep input_dir).
Proof.
  unfold build_summary, writes_of_run.
  destruct (list_all_dirs sep input_dir); [apply process_dirs_writes | reflexivity].
Qed.

(** The record of a key only depends on the writes to that key. *)
Lemma lookup_fold_writes key ws :
  forall summary : summary_table V,
    lookup key (fold_left apply_write ws summary)
    = fold_left (fun r w => Some (write_row (snd (fst w)) (snd w)
                                    (match r with
                                     | Some r => r
                                     | None => new_row key
                                     end)))
                (filter (writes_to key) ws) (lookup key summary).
Proof.
  induction ws as [|[[k kind] val] ws IH]; intros summary; simpl; [reflexivity|].
  rewrite IH. unfold writes_to at 2. simpl. rewrite lookup_store.
  destruct (key_eqb k key); reflexivity.
Qed.

Lemma rows_with_key_modify key key' f (summary : summary_table V) :
  rows_with_key key (modify key' f summary) = rows_with_key key summary.
Proof.
  unfold rows_with_key.
  induction summary as [|[k r] summary IH]; simpl; [reflexivity|].
  destruct (key_eqb k key') eqn:E; simpl.
  - now destruct (key_eqb k key).
  - destruct (key_eqb k key); simpl; now rewrite IH.
Qed.

Lemma has_key_modify key key' f (summary : summary_table V) :
  has_key key (modify key' f summary) = has_key key summary.
Proof.
  unfold has_key. rewrite lookup_modify.
  destruct (key_eqb key' key); [|reflexivity].
  now destruct (lookup key summary).
Qed.

Lemma keys_distinct_store key kind val (summary : summary_table V) :
  keys_distinct summary -> keys_distinct (store key kind val summary).
Proof.
  intros H k. rewrite store_eq, rows_with_key_modify, has_key_modify.
  destruct (has_key key summary) eqn:E; [apply H|].
  unfold rows_with_key. rewrite filter_app, length_app.
  fold (rows_with_key k summary). rewrite H.
  unfold has_key in *. rewrite lookup_app. simpl.
  destruct (key_eqb key k) eqn:Ek.
  - apply key_eqb_eq in Ek. subst k.
    destruct (lookup key summary); [discriminate | reflexivity].
  - destruct (lookup k summary); reflexivity.
Qed.

Lemma keys_distinct_fold ws :
  forall summary : summary_table V,
    keys_distinct summary -> keys_distinct (fold_left apply_write ws summary).
Proof.
  induction ws as [|[[k kind] val] ws IH]; intros summary H; simpl; [assumption|].
  apply IH. now apply keys_distinct_store.
Qed.

(** C2: when exactly two files of a run resolve to a key, one classified
    ribeyes (marker a) with value [a] and one classified microglia
    (marker b) with value [b], the table holds exactly one row for that
    key; it carries the key's subject, view and position, [a] as the
    ribeyes value and [b] as the microglia value. *)
Theorem two_markers_merge_into_one_row sep (input_dir : fs_tree V)
        (ws : list write) (mouse view pos : str) (a b : option V) :
  let key := (mouse, view, pos) in
  writes_of_run sep input_dir = Some ws ->
  Permutation (filter (writes_to key) ws)
              [(key, py "ribeyes", a); (key, py "microglia", b)] ->
  exists table,
    build_summary sep input_dir = Some table /\
    rows_with_key key table = 1 /\
    lookup key table
    = Some {| mouse_ID := mouse; view_id := view; position := pos;
              Ribeyes := a; microglia := b; engulfment_index := None |}.
Proof.
  intros key Hws P. rewrite build_summary_writes, Hws. simpl option_map.
  eexists. split; [reflexivity|].
  assert (L : lookup key (fold_left apply_write ws [])
              = Some {| mouse_ID := mouse; view_id := view; position := pos;
                        Ribeyes := a; microglia := b;
                        engulfment_index := None |}).
  { rewrite lookup_fold_writes.
    assert (E : filter (writes_to key) ws
                = [(key, py "ribeyes", a); (key, py "microglia", b)] \/
                filter (writes_to key) ws
                = [(key, py "microglia", b); (key, py "ribeyes", a)]).
    { apply Permutation_sym in P.
      pose proof (Permutation_length P) as Hlen.
      destruct (filter (writes_to key) ws) as [|x [|y [|z l]]];
        try discriminate.
      apply Permutation_length_2 in P. destruct P as [[<- <-] | [<- <-]]; auto. }
    destruct E as [-> | ->]; reflexivity. }
  split; [|exact L].
  assert (D : keys_distinct (fold_left apply_write ws ([] : summary_table V))).
  { apply keys_distinct_fold. intros k. reflexivity. }
  rewrite (D key). unfold has_key. now rewrite L.
Qed.
End Writes.

(** C2 at the folder p1-a(ribeyes-opl)_Statistics holding two files, one
    read as 2.5 and classified ribeyes, one read as 1.25 and classified
    microglia. *)
Lemma two_markers_merge_witness :
  let input_dir :=
    FsDir (py "InputFolder") []
          [FsDir (py "p1-a(ribeyes-opl)_Statistics")
                 [(py "p1-a(ribeyes-opl)_Statistics.csv", Some (5 # 2)%Q);
                  (py "p1-a(microglia-opl)_Statistics.csv", Some (5 # 4)%Q)] []] in
  let key := (py "p1", py "/", py "opl") in
  exists table,
    build_summary "/" input_dir = Some table /\
    rows_with_key key table = 1 /\
    lookup key table
    = Some {| mouse_ID := py "p1"; view_id := py "/"; position := py "opl";
              Ribeyes := Some (5 # 2)%Q; microglia := Some (5 # 4)%Q;
              engulfment_index := None |}.
Proof.
  intros input_dir key.
  apply (two_markers_merge_into_one_row
           "/" input_dir
           [(key, py "microglia", Some (5 # 4)%Q); (key, py "ribeyes", Some (5 # 2)%Q)]
           (py "p1") (py "/") (py "opl") (Some (5 # 2)%Q) (Some (5 # 4)%Q)).
  - vm_compute. reflexivity.
  - apply perm_swap.
Defined.

(** ** Natural keys *)

Lemma re_split_digits_shape (text : str) :
  split_shape true (re_split_digits text) = true.
Proof.
  induction text as [|c rest IH]; [reflexivity|].
  cbn [re_split_digits]. destruct (is_decimal c) eqn:Ec.
  - assert (Hnew : split_shape true ([] :: [c] :: re_split_digits rest) = true).
    { cbn [split_shape negb forallb str_eqb andb]. now rewrite Ec, IH. }
    destruct rest as [|d rest']; [exact Hnew|].
    destruct (re_split_digits (d :: rest')) as [|t0 [|run more]] eqn:E;
      try exact Hnew.
    destruct (is_decimal d); [|exact Hnew].
    cbn [split_shape negb forallb str_eqb andb] in IH |- *.
    rewrite Ec. rewrite !andb_true_iff in IH |- *. tauto.
  - destruct (re_split_digits rest) as [|t0 more]; [discriminate|].
    cbn [split_shape negb forallb] in IH |- *. now rewrite Ec.
Qed.

Lemma traverse_some {A B} (f : A -> option B) (l : list A) (out : list B) :
  traverse f l = Some out -> Forall2 (fun a b => f a = Some b) l out.
Proof.
  revert out. induction l as [|a l IH]; simpl; intros out H.
  - injection H as <-. constructor.
  - destruct (f a) as [b|] eqn:E; [|discriminate].
    destruct (traverse f l) as [bs|]; [|discriminate].
    injection H as <-. constructor; auto.
Qed.

Lemma traverse_map {A B} (f : A -> option B) (g : A -> B) (l : list A) :
  (forall a, In a l -> f a = Some (g a)) -> traverse f l = Some (map g l).
Proof.
  induction l as [|a l IH]; simpl; intros H; [reflexivity|].
  rewrite (H a) by auto. now rewrite IH by auto.
Qed.

Lemma isdigit_run (t : str) :
  str_eqb t [] = false -> forallb is_decimal t = true -> isdigit t = true.
Proof.
  destruct t as [|c t]; [discriminate|]. intros _ H. unfold isdigit.
  rewrite forallb_forall in *. intros x Hx. unfold char_isdigit.
  now rewrite (H x Hx).
Qed.

Lemma int_of_text_fails (t : str) :
  forallb (fun c => negb (is_decimal c)) t = true -> isdigit t = true ->
  int_of_digits t = None.
Proof.
  destruct t as [|c t]; [discriminate|]. simpl. intros H _.
  apply andb_true_iff in H. destruct H as [H _]. apply negb_true_iff in H.
  unfold int_of_digits. simpl. now rewrite H.
Qed.

Lemma key_of_pieces_alternates (pieces : list str) :
  forall text k,
    split_shape text pieces = true ->
    traverse (fun t => if isdigit t then option_map TInt (int_of_digits t)
                       else Some (TStr (lower t))) pieces = Some k ->
    alternates text k = true.
Proof.
  induction pieces as [|t pieces IH]; intros text k Hs Hk; simpl in Hk.
  - now injection Hk as <-.
  - cbn [split_shape] in Hs. apply andb_true_iff in Hs. destruct Hs as [Ht Hs].
    destruct (isdigit t) eqn:Ed.
    + destruct text.
      * now rewrite (int_of_text_fails t Ht Ed) in Hk.
      * destruct (int_of_digits t) as [n|]; [|discriminate]. simpl in Hk.
        destruct (traverse _ pieces) as [k'|] eqn:Ek; [|discriminate].
        injection Hk as <-. simpl. now apply (IH true).
    + destruct text.
      * destruct (traverse _ pieces) as [k'|] eqn:Ek; [|discriminate].
        injection Hk as <-. simpl. now apply (IH false).
      * apply andb_true_iff in Ht. destruct Ht as [Hne Hdec].
        apply negb_true_iff in Hne. rewrite (isdigit_run t Hne Hdec) in Ed.
        discriminate.
Qed.

(** A natural key starts with a [str] and alternates. *)
Lemma natural_key_alternates (name : str) (k : list token) :
  natural_key name = Some k -> alternates true k = true.
Proof.
  apply key_of_pieces_alternates, re_split_digits_shape.
Qed.

(** Two keys of that form never compare an [int] with a [str]. *)
Lemma key_ltb_defined (a : list token) :
  forall text b,
    alternates text a = true -> alternates text b = true ->
    key_ltb a b = Some (key_lt a b).
Proof.
  induction a as [|x a IH]; intros text [|y b] Ha Hb; try reflexivity.
  simpl. destruct x as [n|s], y as [m|u]; simpl in *;
    destruct text; simpl in *; try discriminate.
  - destruct (n =? m)%N; [now apply (IH true) | reflexivity].
  - destruct (str_eqb s u); [now apply (IH false) | reflexivity].
Qed.

(** The characters of the pieces of a split come from the text. *)
Lemma In_re_split_digits (text t : str) (c : ascii) :
  In t (re_split_digits text) -> In c t -> In c text.
Proof.
  revert t. induction text as [|x rest IH]; intros t Ht Hc.
  - destruct Ht as [<- | []]. destruct Hc.
  - cbn [re_split_digits] in Ht.
    assert (Hnew : In t ([] :: [x] :: re_split_digits rest) -> In c (x :: rest)).
    { intros [<- | [<- | H]]; [destruct Hc | | right; eauto].
      destruct Hc as [<- | []]. now left. }
    destruct (is_decimal x).
    + destruct rest as [|d rest']; [auto|].
      destruct (re_split_digits (d :: rest')) as [|t0 [|run more]] eqn:E; auto.
      destruct (is_decimal d); auto.
      destruct Ht as [<- | [<- | Ht]].
      * right. apply (IH t0); simpl; auto.
      * destruct Hc as [<- | Hc]; [now left | right].
        apply (IH run); simpl; auto.
      * right. apply (IH t); simpl; auto.
    + destruct (re_split_digits rest) as [|t0 more] eqn:E.
      * destruct Ht as [<- | []]. destruct Hc as [<- | []]. now left.
      * destruct Ht as [<- | Ht].
        -- destruct Hc as [<- | Hc]; [now left | right].
           apply (IH t0); simpl; auto.
        -- right. apply (IH t); simpl; auto.
Qed.

Lemma traverse_defined {A B} (f : A -> option B) (l : list A) :
  (forall a, In a l -> f a <> None) -> traverse f l <> None.
Proof.
  induction l as [|a l IH]; simpl; intros H; [discriminate|].
  destruct (f a) eqn:E.
  - assert (Hl : traverse f l <> None) by (apply IH; auto).
    now destruct (traverse f l).
  - exfalso. apply (H a); auto.
Qed.

(** The pieces of a split, put together, are the text. *)
Lemma re_split_digits_concat (text : str) :
  List.concat (re_split_digits text) = text.
Proof.
  induction text as [|c rest IH]; [reflexivity|].
  cbn [re_split_digits].
  assert (Hnew : List.concat ([] :: [c] :: re_split_digits rest) = c :: rest).
  { cbn [List.concat app]. now rewrite IH. }
  destruct (is_decimal c).
  - destruct rest as [|d rest']; [exact Hnew|].
    destruct (re_split_digits (d :: rest')) as [|t0 [|run more]] eqn:E;
      try exact Hnew.
    destruct (is_decimal d) eqn:Ed; [|exact Hnew].
    pose proof (re_split_digits_shape (d :: rest')) as Hs. rewrite E in Hs.
    cbn [split_shape] in Hs. apply andb_true_iff in Hs. destruct Hs as [Ht0 _].
    assert (t0 = []).
    { destruct t0 as [|x t0]; [reflexivity|]. exfalso.
      cbn [List.concat app] in IH. injection IH as Hx _; subst x.
      cbn [forallb] in Ht0. now rewrite Ed in Ht0. }
    subst t0. cbn [List.concat app] in IH |- *. now rewrite IH.
  - destruct (re_split_digits rest) as [|t0 more];
      cbn [List.concat app] in IH |- *; now rewrite <- IH.
Qed.

Lemma length_piece_le (pieces : list str) (t : str) :
  In t pieces -> List.length t <= List.length (List.concat pieces).
Proof.
  induction pieces as [|p pieces IH]; intros Hin; [destruct Hin|].
  cbn [List.concat]. rewrite length_app. destruct Hin as [-> | Hin]; [lia|].
  specialize (IH Hin). lia.
Qed.

(** [natural_key] raises on no name of at most [int_max_str_digits]
    characters that holds no such character. *)
Lemma natural_key_of_plain_name (name : str) :
  forallb (fun c => negb (odd_digit c)) name = true ->
  (N.of_nat (List.length name) <= int_max_str_digits)%N ->
  natural_key name <> None.
Proof.
  intros H Hlen. unfold natural_key. apply traverse_defined. intros t Ht.
  destruct (isdigit t) eqn:Ed; [|discriminate].
  unfold int_of_digits.
  replace (forallb is_decimal t) with true.
  - replace (N.of_nat (List.length t) <=? int_max_str_digits)%N with true;
      [discriminate|].
    symmetry. apply N.leb_le.
    pose proof (length_piece_le _ t Ht) as Hle.
    rewrite re_split_digits_concat in Hle. lia.
  - symmetry. apply forallb_forall. intros c Hc.
    assert (Hd : char_isdigit c = true).
    { destruct t as [|x t]; [discriminate|]. unfold isdigit in Ed.
      rewrite forallb_forall in Ed. now apply Ed. }
    rewrite forallb_forall in H.
    pose proof (H c (In_re_split_digits name t c Ht Hc)) as Hp.
    unfold odd_digit in Hp. rewrite Hd in Hp. simpl in Hp.
    now apply negb_true_iff, negb_false_iff in Hp.
Qed.

(** *** The order on keys *)

Lemma str_ltb_total (a b : str) :
  str_eqb a b = false -> str_ltb a b = false -> str_ltb b a = true.
Proof.
  intros Hne H. destruct (str_ltb b a) eqn:E; [reflexivity|].
  apply str_eqb_neq in Hne. exfalso. apply Hne.
  now apply str_not_after_antisym.
Qed.

Lemma str_ltb_trans (a b c : str) :
  str_ltb a b = true -> str_ltb b c = true -> str_ltb a c = true.
Proof.
  intros H1 H2. destruct (str_ltb a c) eqn:E; [reflexivity|].
  apply str_ltb_asym in H1.
  pose proof (str_not_after_trans c a b E H1) as H. congruence.
Qed.

Lemma token_eqb_eq (x y : token) : token_eqb x y = true <-> x = y.
Proof.
  destruct x as [n|s], y as [m|u]; simpl;
    try (split; [discriminate | congruence]).
  - rewrite N.eqb_eq. split; congruence.
  - rewrite str_eqb_eq. split; congruence.
Qed.

Lemma token_eqb_refl (x : token) : token_eqb x x = true.
Proof. now apply token_eqb_eq. Qed.

Lemma token_lt_asym (x y : token) : token_lt x y = true -> token_lt y x = false.
Proof.
  destruct x as [n|s], y as [m|u]; simpl; try congruence.
  - intros H. by_codes.
  - apply str_ltb_asym.
Qed.

Lemma token_lt_trans (x y z : token) :
  token_lt x y = true -> token_lt y z = true -> token_lt x z = true.
Proof.
  destruct x as [n|s], y as [m|u], z as [p|v]; simpl; try congruence.
  - intros H1 H2. by_codes.
  - apply str_ltb_trans.
Qed.

Lemma token_lt_total (x y : token) :
  token_eqb x y = false -> token_lt x y = false -> token_lt y x = true.
Proof.
  destruct x as [n|s], y as [m|u]; simpl; try congruence.
  - intros H1 H2. by_codes.
  - apply str_ltb_total.
Qed.

Lemma token_lt_irrefl (x : token) : token_lt x x = false.
Proof.
  destruct (token_lt x x) eqn:E; [|reflexivity].
  pose proof (token_lt_asym x x E). congruence.
Qed.

Lemma token_eqb_sym (x y : token) : token_eqb x y = token_eqb y x.
Proof.
  destruct (token_eqb x y) eqn:E.
  - apply token_eqb_eq in E. subst. now rewrite token_eqb_refl.
  - destruct (token_eqb y x) eqn:E'; [|reflexivity].
    apply token_eqb_eq in E'. subst. now rewrite token_eqb_refl in E.
Qed.

Lemma key_lt_asym (a b : list token) : key_lt a b = true -> key_lt b a = false.
Proof.
  revert b. induction a as [|x a IH]; intros [|y b]; simpl; auto.
  rewrite (token_eqb_sym y x). destruct (token_eqb x y); [apply IH|].
  apply token_lt_asym.
Qed.

Lemma key_not_after_trans (a b c : list token) :
  not_after key_lt a b -> not_after key_lt b c -> not_after key_lt a c.
Proof.
  unfold not_after. revert b c.
  induction a as [|x a IH]; intros [|y b] [|z c]; simpl; auto; try discriminate.
  destruct (token_eqb y x) eqn:Eyx.
  - apply token_eqb_eq in Eyx. subst y.
    destruct (token_eqb z x) eqn:Ezx; [apply IH | auto].
  - intros Hyx. destruct (token_eqb z y) eqn:Ezy.
    + apply token_eqb_eq in Ezy. subst z. now rewrite Eyx.
    + intros Hzy.
      assert (Hxy : token_lt x y = true) by now apply token_lt_total.
      assert (Hyz : token_lt y z = true) by now apply token_lt_total.
      pose proof (token_lt_trans x y z Hxy Hyz) as Hxz.
      destruct (token_eqb z x) eqn:Ezx.
      * apply token_eqb_eq in Ezx. subst z.
        now rewrite token_lt_irrefl in Hxz.
      * now apply token_lt_asym.
Qed.

(** *** Sorting by key *)

Section KeyedSortFacts.
Context {A : Type}.
Implicit Types (x : list token * A) (l : list (list token * A)).

Lemma insert_keyed_total x l :
  well_keyed x -> Forall well_keyed l ->
  insert_keyed x l = Some (insert_sorted keyed_lt x l).
Proof.
  intros Hx. induction l as [|y l IH]; intros Hl; simpl; [reflexivity|].
  inversion Hl as [|? ? Hy Hl']; subst.
  rewrite (key_ltb_defined (fst y) true (fst x) Hy Hx).
  unfold keyed_lt at 1. destruct (key_lt (fst y) (fst x)); [|reflexivity].
  now rewrite IH.
Qed.

Lemma sort_keyed_total l :
  Forall well_keyed l -> sort_keyed l = Some (sort_by keyed_lt l).
Proof.
  induction l as [|x l IH]; intros Hl; simpl; [reflexivity|].
  inversion Hl as [|? ? Hx Hl']; subst. rewrite IH by assumption.
  apply insert_keyed_total; [assumption|].
  rewrite Forall_forall in *. intros y Hy. apply Hl'.
  now apply (Permutation_in y (Permutation_sym (sort_by_perm keyed_lt l))).
Qed.

Lemma sort_by_keyed_sorted l :
  StronglySorted (not_after keyed_lt) (sort_by keyed_lt l).
Proof.
  apply (sort_by_sorted keyed_lt (fun _ => True)).
  - intros a b _ _. apply key_lt_asym.
  - intros a b c _ _ _. apply key_not_after_trans.
  - now apply Forall_forall.
Qed.

(** When every name has a key, the sort succeeds and returns the
    stable insertion sort by key. *)
Lemma sort_natural_total (name_of : A -> str) (items : list A) :
  (forall a, In a items -> natural_key (name_of a) <> None) ->
  sort_natural name_of items
  = Some (map snd (sort_by keyed_lt
                     (map (fun a => (key_of (name_of a), a)) items))).
Proof.
  intros H. unfold sort_natural.
  rewrite (traverse_map _ (fun a => (key_of (name_of a), a))).
  - rewrite sort_keyed_total; [reflexivity|].
    apply Forall_forall. intros x Hx. apply in_map_iff in Hx.
    destruct Hx as (a & <- & Ha). unfold well_keyed, key_of. simpl.
    destruct (natural_key (name_of a)) as [k|] eqn:E; [|reflexivity].
    now apply natural_key_alternates in E.
  - intros a Ha. unfold key_of.
    destruct (natural_key (name_of a)) eqn:E; [reflexivity|].
    now apply H in Ha.
Qed.
End KeyedSortFacts.

Lemma StronglySorted_nth {A} (R : A -> A -> Prop) (l : list A) :
  StronglySorted R l ->
  forall i j a b, i < j -> nth_error l i = Some a -> nth_error l j = Some b ->
                  R a b.
Proof.
  induction 1 as [|x l Hs IH Hx]; intros i j a b Hij Ha Hb.
  - now destruct i.
  - destruct j as [|j]; [lia|]. simpl in Hb. destruct i as [|i]; simpl in Ha.
    + injection Ha as <-. rewrite Forall_forall in Hx. apply Hx.
      eapply nth_error_In; eauto.
    + apply (IH i j); auto. lia.
Qed.

(** In a list sorted by natural key, a name stands before every name
    that sorts strictly after it. *)
Lemma sorted_names_in_order (names out : list str) :
  sort_natural (fun x => x) names = Some out ->
  forall i j x y,
    nth_error out i = Some x -> nth_error out j = Some y ->
    precedes x y -> i < j.
Proof.
  intros Hsort i j x y Hx Hy (kx & ky & Ekx & Eky & Hlt).
  assert (Hdef : forall a, In a names -> natural_key a <> None).
  { intros a Ha E. unfold sort_natural in Hsort.
    destruct (traverse _ names) as [keyed|] eqn:Et; [|discriminate].
    apply traverse_some in Et. clear Hsort.
    induction Et as [|a' b l l' Hab _ IH]; [destruct Ha|].
    destruct Ha as [-> | Ha]; [|auto]. now rewrite E in Hab. }
  rewrite (sort_natural_total (fun x => x) names Hdef) in Hsort.
  injection Hsort as <-.
  set (sorted := sort_by keyed_lt (map (fun a => (key_of a, a)) names)) in *.
  assert (Hkeys : forall n e, nth_error sorted n = Some e -> fst e = key_of (snd e)).
  { intros n e He. apply nth_error_In in He.
    apply (Permutation_in e (Permutation_sym (sort_by_perm keyed_lt _))) in He.
    apply in_map_iff in He. now destruct He as (a & <- & _). }
  rewrite nth_error_map in Hx, Hy.
  destruct (nth_error sorted i) as [ex|] eqn:Ei; [|discriminate].
  destruct (nth_error sorted j) as [ey|] eqn:Ej; [|discriminate].
  injection Hx as Hx. injection Hy as Hy.
  pose proof (Hkeys i ex Ei) as Kx. pose proof (Hkeys j ey Ej) as Ky.
  rewrite Hx in Kx. rewrite Hy in Ky. unfold key_of in Kx, Ky.
  rewrite Ekx in Kx. rewrite Eky in Ky.
  assert (Hlt' : key_lt kx ky = true).
  { pose proof (natural_key_alternates x kx Ekx) as Ax.
    pose proof (natural_key_alternates y ky Eky) as Ay.
    rewrite (key_ltb_defined kx true ky Ax Ay) in Hlt. congruence. }
  destruct (Nat.lt_trichotomy i j) as [Hij | [Hij | Hij]]; [assumption | |].
  - subst j. rewrite Ei in Ej. injection Ej as <-.
    rewrite Kx in Ky. subst ky. pose proof (key_lt_asym kx kx Hlt'). congruence.
  - pose proof (StronglySorted_nth _ _ (sort_by_keyed_sorted _) j i ey ex
                                   Hij Ej Ei) as Hs.
    unfold not_after, keyed_lt in Hs. rewrite Kx, Ky in Hs. congruence.
Qed.

(** *** The names img1, img2, img10 *)

Lemma img_names_precede :
  precedes (py "img1") (py "img2") /\
  precedes (py "img2") (py "img10") /\
  precedes (py "img1") (py "img10").
Proof.
  repeat split; eexists; eexists; (split; [|split]);
    (vm_compute; reflexivity).
Qed.

(** For every list of names that all have a natural key and that
    contains img1, img2 and img10, the sort by natural key succeeds,
    returns a permutation of the list, and places every img1 before every
    img2 and every img2 before every img10. *)
Lemma natural_sort_places_img (names : list str) :
  (forall n, In n names -> natural_key n <> None) ->
  In (py "img1") names -> In (py "img2") names -> In (py "img10") names ->
  exists out,
    sort_natural (fun x => x) names = Some out /\
    Permutation names out /\
    (exists i1 i2 i3,
        nth_error out i1 = Some (py "img1") /\
        nth_error out i2 = Some (py "img2") /\
        nth_error out i3 = Some (py "img10")) /\
    (forall i1 i2 i3,
        nth_error out i1 = Some (py "img1") ->
        nth_error out i2 = Some (py "img2") ->
        nth_error out i3 = Some (py "img10") ->
        i1 < i2 /\ i2 < i3).
Proof.
  intros Hdef H1 H2 H10.
  pose proof (sort_natural_total (fun x => x) names Hdef) as Hsort.
  eexists. split; [exact Hsort|].
  assert (P : Permutation names
                (map snd (sort_by keyed_lt (map (fun a => (key_of a, a)) names)))).
  { rewrite <- sort_by_perm, map_map. simpl. now rewrite map_id. }
  split; [exact P|]. split.
  - apply (Permutation_in _ P) in H1, H2, H10.
    apply In_nth_error in H1, H2, H10.
    destruct H1 as (i1 & H1), H2 as (i2 & H2), H10 as (i3 & H10).
    exists i1, i2, i3. auto.
  - intros i1 i2 i3 E1 E2 E3.
    destruct img_names_precede as (P12 & P23 & _). split.
    + exact (sorted_names_in_order names _ Hsort i1 i2 _ _ E1 E2 P12).
    + exact (sorted_names_in_order names _ Hsort i2 i3 _ _ E2 E3 P23).
Qed.

(** The list of the spec's example. *)
Lemma natural_sort_example :
  sort_natural (fun x => x) [py "img2"; py "img10"; py "img1"]
  = Some [py "img1"; py "img2"; py "img10"].
Proof. vm_compute. reflexivity. Qed.

(** C9 (failing input): [natural_key] raises on the name U+00B2 --
    [re.split] keeps it whole, [isdigit] accepts it and [int] rejects
    it -- so sorting a list that holds img1, img2, img10 and that name
    raises as well and yields no order at all; [build_summary] raises on
    an input directory with four sub-directories of these names. *)
Theorem natural_sort_raises_on_superscript :
  re_split_digits superscript_two_name = [superscript_two_name] /\
  isdigit superscript_two_name = true /\
  int_of_digits superscript_two_name = None /\
  natural_key superscript_two_name = None /\
  sort_natural (fun x => x)
               [py "img1"; py "img2"; py "img10"; superscript_two_name]
  = None /\
  build_summary (V:=Q) "/"
    (FsDir (py "InputFolder") []
           [FsDir (py "img1") [] []; FsDir (py "img2") [] [];
            FsDir (py "img10") [] []; FsDir superscript_two_name [] []])
  = None.
Proof. repeat split; vm_compute; reflexivity. Qed.

(** C10 at the table reached after one file, p1-a(ribeyes-opl)_.csv read
    as 2.5, in a folder whose name does not parse. *)
Lemma key_record_coherence_witness :
  let summary :=
    process_csv None [] (py "p1-a(ribeyes-opl)_.csv", Some (5 # 2)%Q) in
  lookup (py "p1", py "/", py "opl") summary
  = Some {| mouse_ID := py "p1"; view_id := py "/"; position := py "opl";
            Ribeyes := Some (5 # 2)%Q; microglia := None;
            engulfment_index := None |} /\
  (forall key r, lookup key summary = Some r ->
                 key = (mouse_ID r, view_id r, position r)).
Proof.
  intros summary. split; [vm_compute; reflexivity|].
  apply (key_record_coherence summary). left. repeat constructor.
Defined.

(* ================================================================= *)
(** * Further properties of the code *)

(** ** [natural_key] *)

Lemma is_decimal_lower (c : ascii) : is_decimal (char_lower c) = is_decimal c.
Proof. each_char c. Qed.

Lemma char_isdigit_lower (c : ascii) : char_isdigit c = true -> char_lower c = c.
Proof. each_char c. Qed.

Lemma re_split_digits_lower (text : str) :
  re_split_digits (lower text) = map lower (re_split_digits text).
Proof.
  induction text as [|c rest IH]; [reflexivity|].
  change (lower (c :: rest)) with (char_lower c :: lower rest).
  cbn [re_split_digits]. rewrite is_decimal_lower, IH.
  destruct (is_decimal c).
  - destruct rest as [|d rest']; [reflexivity|].
    change (lower (d :: rest')) with (char_lower d :: lower rest').
    destruct (re_split_digits (d :: rest')) as [|t0 [|run more]]; try reflexivity.
    cbn [map]. rewrite is_decimal_lower. now destruct (is_decimal d).
  - now destruct (re_split_digits rest) as [|t0 more].
Qed.

Lemma isdigit_lower (t : str) : isdigit t = true -> lower t = t.
Proof.
  destruct t as [|c t]; [discriminate|]. unfold isdigit. intros H.
  unfold lower. rewrite <- (map_id (c :: t)) at 2. apply map_ext_in.
  intros x Hx. rewrite forallb_forall in H. now apply char_isdigit_lower, H.
Qed.

Lemma all_digits_lower (l : str) :
  forallb char_isdigit (lower l) = forallb char_isdigit l.
Proof.
  induction l as [|x l IH]; [reflexivity|].
  unfold lower in *. cbn [map forallb]. rewrite IH. f_equal. each_char x.
Qed.

Lemma isdigit_of_lower (t : str) : isdigit (lower t) = isdigit t.
Proof.
  destruct t as [|c t]; [reflexivity|].
  change (forallb char_isdigit (lower (c :: t)) = forallb char_isdigit (c :: t)).
  apply all_digits_lower.
Qed.

(** X1: the natural key does not depend on letter case. *)
Theorem natural_key_ignores_case (name : str) :
  natural_key (lower name) = natural_key name.
Proof.
  unfold natural_key. rewrite re_split_digits_lower.
  induction (re_split_digits name) as [|t pieces IH]; [reflexivity|].
  cbn [map traverse]. rewrite IH, isdigit_of_lower.
  destruct (isdigit t) eqn:E.
  - now rewrite (isdigit_lower t E).
  - now rewrite lower_idem.
Qed.

Lemma re_split_digits_run (d : str) :
  d <> [] -> forallb is_decimal d = true -> re_split_digits d = [[]; d; []].
Proof.
  induction d as [|c d IH]; [congruence|]. intros _ H.
  cbn [forallb] in H. apply andb_true_iff in H. destruct H as [Hc Hd].
  cbn [re_split_digits]. rewrite Hc. destruct d as [|c' d']; [reflexivity|].
  rewrite IH by (auto; discriminate).
  cbn [forallb] in Hd. apply andb_true_iff in Hd. destruct Hd as [-> _].
  reflexivity.
Qed.

Lemma re_split_digits_text_run (t d : str) :
  forallb (fun c => negb (is_decimal c)) t = true ->
  d <> [] -> forallb is_decimal d = true ->
  re_split_digits (t ++ d) = [t; d; []].
Proof.
  intros Ht Hne Hd. induction t as [|c t IH].
  - now apply re_split_digits_run.
  - cbn [forallb] in Ht. apply andb_true_iff in Ht. destruct Ht as [Hc Ht].
    apply negb_true_iff in Hc. cbn [app re_split_digits].
    now rewrite Hc, IH.
Qed.

Lemma int_of_digits_decimal (d : str) (n : N) :
  int_of_digits d = Some n -> forallb is_decimal d = true.
Proof.
  unfold int_of_digits. now destruct (forallb is_decimal d).
Qed.

(** The key of a digit-free text followed by one run of digits. *)
Lemma natural_key_text_run (t d : str) (n : N) :
  forallb (fun c => negb (char_isdigit c)) t = true ->
  d <> [] -> int_of_digits d = Some n ->
  natural_key (t ++ d) = Some [TStr (lower t); TInt n; TStr []].
Proof.
  intros Ht Hne Hd. pose proof (int_of_digits_decimal d n Hd) as Hdec.
  unfold natural_key. rewrite re_split_digits_text_run; auto.
  - cbn [traverse].
    assert (E1 : isdigit t = false).
    { destruct t as [|c t]; [reflexivity|]. unfold isdigit.
      cbn [forallb] in Ht |- *. apply andb_true_iff in Ht. destruct Ht as [Hc _].
      apply negb_true_iff in Hc. now rewrite Hc. }
    assert (E2 : isdigit d = true).
    { apply isdigit_run; [|assumption]. now destruct d. }
    rewrite E1, E2, Hd. reflexivity.
  - rewrite forallb_forall in *. intros c Hc. specialize (Ht c Hc).
    unfold char_isdigit in Ht. destruct (is_decimal c); [discriminate | reflexivity].
Qed.

(** X2: two names that differ only in their trailing run of digits are
    ordered by the number the run denotes: img2 before img10, and img01
    has the key of img1. *)
Theorem trailing_number_orders_names (t d1 d2 : str) (n1 n2 : N) :
  forallb (fun c => negb (char_isdigit c)) t = true ->
  d1 <> [] -> int_of_digits d1 = Some n1 ->
  d2 <> [] -> int_of_digits d2 = Some n2 ->
  (precedes (t ++ d1) (t ++ d2) <-> (n1 < n2)%N) /\
  (n1 = n2 -> natural_key (t ++ d1) = natural_key (t ++ d2)).
Proof.
  intros Ht H1 E1 H2 E2.
  pose proof (natural_key_text_run t d1 n1 Ht H1 E1) as K1.
  pose proof (natural_key_text_run t d2 n2 Ht H2 E2) as K2.
  split.
  - unfold precedes. rewrite K1, K2. split.
    + intros (kx & ky & [= <-] & [= <-] & H). cbn [key_ltb token_eqb] in H.
      rewrite str_eqb_refl in H. cbn [token_ltb] in H.
      destruct (N.eqb_spec n1 n2) as [->|Hn].
      * rewrite str_eqb_refl in H. discriminate.
      * injection H as H. now apply N.ltb_lt.
    + intros Hlt. eexists. eexists. split; [reflexivity|]. split; [reflexivity|].
      cbn [key_ltb token_eqb token_ltb]. rewrite str_eqb_refl.
      destruct (N.eqb_spec n1 n2) as [->|Hn]; [lia|].
      f_equal. now apply N.ltb_lt.
  - intros ->. now rewrite K1, K2.
Qed.

(** X2 at img2 and img10, and at img01 and img1. *)
Lemma trailing_number_orders_names_witness :
  (precedes (py "img2") (py "img10") <-> (2 < 10)%N) /\
  natural_key (py "img01") = natural_key (py "img1").
Proof.
  split.
  - apply (trailing_number_orders_names (py "img") (py "2") (py "10") 2 10);
      try reflexivity; discriminate.
  - apply (trailing_number_orders_names (py "img") (py "01") (py "1") 1 1);
      try reflexivity; discriminate.
Defined.

(** X3: sorting never compares an [int] with a [str]: the comparison of two
    natural keys is always defined (no [TypeError]). *)
Theorem natural_keys_always_compare (a b : str) (ka kb : list token) :
  natural_key a = Some ka -> natural_key b = Some kb ->
  key_ltb ka kb <> None.
Proof.
  intros Ha Hb. apply natural_key_alternates in Ha, Hb.
  rewrite (key_ltb_defined ka true kb Ha Hb). discriminate.
Qed.

(** X3 at the keys of img2 and of 7x. *)
Lemma natural_keys_always_compare_witness :
  key_ltb [TStr (py "img"); TInt 2; TStr []] [TStr (py ""); TInt 7; TStr (py "x")]
  <> None.
Proof.
  apply (natural_keys_always_compare (py "img2") (py "7x")); vm_compute; reflexivity.
Defined.

(** X4: [natural_key] raises on no name of at most 4300 characters
    that is free of superscript digits; the bound keeps every run of
    digits within what [int] converts. *)
Theorem natural_key_defined_on_plain_names (name : str) :
  forallb (fun c => negb (odd_digit c)) name = true ->
  List.length name <= 4300 ->
  exists k, natural_key name = Some k /\ alternates true k = true.
Proof.
  intros H Hlen. destruct (natural_key name) as [k|] eqn:E.
  - exists k. split; [reflexivity|]. now apply natural_key_alternates in E.
  - exfalso. apply (natural_key_of_plain_name name H); [|exact E].
    unfold int_max_str_digits. lia.
Qed.

(** X4 at p3-xyz_000123(microglia-opl+ipl)_Detailed.csv. *)
Lemma natural_key_defined_on_plain_names_witness :
  exists k, natural_key (py "p3-xyz_000123(microglia-opl+ipl)_Detailed.csv")
            = Some k /\ alternates true k = true.
Proof.
  apply natural_key_defined_on_plain_names.
  - vm_compute. reflexivity.
  - apply Nat.leb_le. reflexivity.
Defined.

(** The bound is needed: [int] refuses a run of 4301 digits, so
    [natural_key] raises on a name made of them, while a run of 4300
    digits is converted. *)
Lemma natural_key_long_run_raises :
  natural_key (repeat "1"%char 4301) = None /\
  natural_key (repeat "1"%char 4300) <> None.
Proof. split; vm_compute; [reflexivity | discriminate]. Qed.

(** ** Sorting by natural key *)

Lemma tokens_eqb_eq (a b : list token) : tokens_eqb a b = true <-> a = b.
Proof.
  revert b. induction a as [|x a IH]; intros [|y b]; simpl;
    try (split; [discriminate | congruence]); [tauto|].
  rewrite andb_true_iff, token_eqb_eq, IH. split.
  - now intros [-> ->].
  - intros [= -> ->]. auto.
Qed.

Lemma key_lt_irrefl (a : list token) : key_lt a a = false.
Proof.
  destruct (key_lt a a) eqn:E; [|reflexivity].
  pose proof (key_lt_asym a a E). congruence.
Qed.

Section NaturalSortFacts.
Context {A : Type} (name_of : A -> str).

Lemma sort_natural_some_defined (items out : list A) :
  sort_natural name_of items = Some out ->
  forall a, In a items -> natural_key (name_of a) <> None.
Proof.
  unfold sort_natural. intros Hsort a Ha E.
  destruct (traverse _ items) as [keyed|] eqn:Et; [|discriminate].
  apply traverse_some in Et. clear Hsort.
  induction Et as [|a' b l l' Hab _ IH]; [destruct Ha|].
  destruct Ha as [-> | Ha]; [|auto]. now rewrite E in Hab.
Qed.

Lemma sort_natural_none (items : list A) :
  sort_natural name_of items = None <->
  exists a, In a items /\ natural_key (name_of a) = None.
Proof.
  split.
  - intros H.
    assert (D : {forall a, In a items -> natural_key (name_of a) <> None} +
                {exists a, In a items /\ natural_key (name_of a) = None}).
    { clear H. induction items as [|x l IH].
      - left. intros a [].
      - destruct (natural_key (name_of x)) eqn:E.
        + destruct IH as [IH | IH].
          * left. intros a [<- | Ha]; [congruence | auto].
          * right. destruct IH as (a & Ha & Hk). exists a. simpl. auto.
        + right. exists x. simpl. auto. }
    destruct D as [D | D]; [|assumption].
    rewrite (sort_natural_total name_of items D) in H. discriminate.
  - intros (a & Ha & E). destruct (sort_natural name_of items) eqn:H; [|reflexivity].
    exfalso. now apply (sort_natural_some_defined items l H a Ha).
Qed.

(** X5: the sort raises exactly when some name has no natural key. *)
Theorem sort_natural_fails_iff (items : list A) :
  sort_natural name_of items = None <->
  exists a, In a items /\ natural_key (name_of a) = None.
Proof.
  exact (sort_natural_none items).
Qed.

Lemma sort_natural_perm (items out : list A) :
  sort_natural name_of items = Some out -> Permutation items out.
Proof.
  intros Hsort.
  pose proof (sort_natural_some_defined items out Hsort) as Hdef.
  rewrite (sort_natural_total name_of items Hdef) in Hsort.
  injection Hsort as <-.
  rewrite <- sort_by_perm, map_map. simpl. now rewrite map_id.
Qed.

(** X6: a successful sort returns a permutation of its input in which no
    item stands after an item whose name sorts strictly after its own. *)
Theorem sort_natural_sorted_permutation (items out : list A) :
  sort_natural name_of items = Some out ->
  Permutation items out /\
  (forall i j a b,
      i < j -> nth_error out i = Some a -> nth_error out j = Some b ->
      ~ precedes (name_of b) (name_of a)).
Proof.
  intros Hsort.
  pose proof (sort_natural_some_defined items out Hsort) as Hdef.
  rewrite (sort_natural_total name_of items Hdef) in Hsort.
  injection Hsort as <-.
  set (keyed := map (fun a => (key_of (name_of a), a)) items).
  split.
  - rewrite <- sort_by_perm. unfold keyed. rewrite map_map. simpl.
    now rewrite map_id.
  - intros i j a b Hij Ha Hb (kb & ka & Ekb & Eka & Hlt).
    assert (Hkeys : forall n e, nth_error (sort_by keyed_lt keyed) n = Some e ->
                                fst e = key_of (name_of (snd e))).
    { intros n e He. apply nth_error_In in He.
      apply (Permutation_in e (Permutation_sym (sort_by_perm keyed_lt _))) in He.
      apply in_map_iff in He. now destruct He as (x & <- & _). }
    rewrite nth_error_map in Ha, Hb.
    destruct (nth_error (sort_by keyed_lt keyed) i) as [ea|] eqn:Ei; [|discriminate].
    destruct (nth_error (sort_by keyed_lt keyed) j) as [eb|] eqn:Ej; [|discriminate].
    injection Ha as Ha. injection Hb as Hb.
    pose proof (Hkeys i ea Ei) as Ka. pose proof (Hkeys j eb Ej) as Kb.
    rewrite Ha in Ka. rewrite Hb in Kb. unfold key_of in Ka, Kb.
    rewrite Eka in Ka. rewrite Ekb in Kb.
    pose proof (natural_key_alternates _ _ Eka) as Aa.
    pose proof (natural_key_alternates _ _ Ekb) as Ab.
    rewrite (key_ltb_defined kb true ka Ab Aa) in Hlt.
    pose proof (StronglySorted_nth _ _ (sort_by_keyed_sorted keyed) i j ea eb
                                   Hij Ei Ej) as Hs.
    unfold not_after, keyed_lt in Hs. rewrite Ka, Kb in Hs. congruence.
Qed.

Lemma insert_sorted_filter_key (k : list token) (x : list token * A) l :
  filter (fun e => tokens_eqb (fst e) k) (insert_sorted keyed_lt x l)
  = filter (fun e => tokens_eqb (fst e) k) (x :: l).
Proof.
  induction l as [|y l IH]; [reflexivity|].
  cbn [insert_sorted]. destruct (keyed_lt y x) eqn:E; [|reflexivity].
  cbn [filter] in IH |- *. rewrite IH.
  destruct (tokens_eqb (fst y) k) eqn:Ey; [|reflexivity].
  destruct (tokens_eqb (fst x) k) eqn:Ex; [|reflexivity].
  apply tokens_eqb_eq in Ey, Ex. unfold keyed_lt in E.
  rewrite Ey, Ex, key_lt_irrefl in E. discriminate.
Qed.

Lemma sort_by_filter_key (k : list token) (l : list (list token * A)) :
  filter (fun e => tokens_eqb (fst e) k) (sort_by keyed_lt l)
  = filter (fun e => tokens_eqb (fst e) k) l.
Proof.
  induction l as [|x l IH]; [reflexivity|].
  cbn [sort_by]. rewrite insert_sorted_filter_key. cbn [filter]. now rewrite IH.
Qed.

Lemma filter_map_snd {K} (q : A -> bool) (l : list (K * A)) :
  filter q (map snd l) = map snd (filter (fun e => q (snd e)) l).
Proof.
  induction l as [|e l IH]; [reflexivity|].
  cbn [map filter]. rewrite IH. now destruct (q (snd e)).
Qed.

(** X7: the sort is stable: the items that share a key stand in the output
    in the order they had in the input. *)
Theorem sort_natural_stable (items out : list A) (k : list token) :
  sort_natural name_of items = Some out ->
  filter (fun a => tokens_eqb (key_of (name_of a)) k) out
  = filter (fun a => tokens_eqb (key_of (name_of a)) k) items.
Proof.
  intros Hsort.
  pose proof (sort_natural_some_defined items out Hsort) as Hdef.
  rewrite (sort_natural_total name_of items Hdef) in Hsort.
  injection Hsort as <-.
  set (keyed := map (fun a => (key_of (name_of a), a)) items).
  assert (Hk : forall l : list (list token * A),
             (forall e, In e l -> fst e = key_of (name_of (snd e))) ->
             filter (fun e => tokens_eqb (key_of (name_of (snd e))) k) l
             = filter (fun e => tokens_eqb (fst e) k) l).
  { intros l Hl. apply filter_ext_in. intros e He. now rewrite (Hl e He). }
  rewrite filter_map_snd, Hk, sort_by_filter_key.
  - rewrite <- Hk.
    + rewrite <- (filter_map_snd (fun a => tokens_eqb (key_of (name_of a)) k)).
      unfold keyed. rewrite map_map. simpl. now rewrite map_id.
    + intros e He. apply in_map_iff in He. now destruct He as (x & <- & _).
  - intros e He.
    apply (Permutation_in e (Permutation_sym (sort_by_perm keyed_lt _))) in He.
    apply in_map_iff in He. now destruct He as (x & <- & _).
Qed.
End NaturalSortFacts.

(** X6 at the names b2, B10 and a, which sort to a, b2, B10. *)
Lemma sort_natural_sorted_permutation_witness :
  Permutation [py "b2"; py "B10"; py "a"] [py "a"; py "b2"; py "B10"] /\
  (forall i j a b,
      i < j -> nth_error [py "a"; py "b2"; py "B10"] i = Some a ->
      nth_error [py "a"; py "b2"; py "B10"] j = Some b -> ~ precedes b a).
Proof.
  apply (sort_natural_sorted_permutation (fun x => x) [py "b2"; py "B10"; py "a"]).
  vm_compute. reflexivity.
Defined.

(** X7 at IMG1 and img1, which share a key and keep their input order. *)
Lemma sort_natural_stable_witness :
  filter (fun a => tokens_eqb (key_of a) [TStr (py "img"); TInt 1; TStr []])
         [py "a"; py "IMG1"; py "img1"; py "img7"]
  = filter (fun a => tokens_eqb (key_of a) [TStr (py "img"); TInt 1; TStr []])
           [py "img7"; py "IMG1"; py "a"; py "img1"].
Proof.
  apply (sort_natural_stable (fun x => x) [py "img7"; py "IMG1"; py "a"; py "img1"]).
  vm_compute. reflexivity.
Defined.

(** ** [list_csv_in_dir] *)

(** The files [list_csv_in_dir] keeps: the name ends in .csv in any
    case and does not start with the lock-file marker. *)
Lemma list_csv_in_dir_perm {V} (d : found_dir V) csvs :
  list_csv_in_dir d = Some csvs ->
  Permutation
    (filter (fun f => negb (startswith (py "~$") (fst f))
                      && endswith (py ".csv") (lower (fst f))) (dir_listing d))
    csvs.
Proof.
  unfold list_csv_in_dir. intros H.
  now apply (sort_natural_perm fst) in H.
Qed.

(** X8: the result of [list_csv_in_dir] holds exactly the entries of the
    directory whose name ends in .csv (in any letter case) and does not
    start with ~$, each as often as the directory lists it. *)
Theorem list_csv_in_dir_selects {V} (d : found_dir V) csvs :
  list_csv_in_dir d = Some csvs ->
  (forall f, In f csvs <->
             In f (dir_listing d) /\
             startswith (py "~$") (fst f) = false /\
             endswith (py ".csv") (lower (fst f)) = true) /\
  List.length csvs
  = List.length
      (filter (fun f => negb (startswith (py "~$") (fst f))
                        && endswith (py ".csv") (lower (fst f))) (dir_listing d)).
Proof.
  intros H. apply list_csv_in_dir_perm in H. split.
  - intros f. split.
    + intros Hf. apply (Permutation_in f (Permutation_sym H)) in Hf.
      apply filter_In in Hf. destruct Hf as [Hin Hc].
      apply andb_true_iff in Hc. destruct Hc as [Hc1 Hc2].
      apply negb_true_iff in Hc1. auto.
    + intros (Hin & Hc1 & Hc2). apply (Permutation_in f H).
      apply filter_In. split; [assumption|]. now rewrite Hc1, Hc2.
  - symmetry. now apply Permutation_length.
Qed.

(** X8 at a directory listing ~$b.csv, b.CSV, notes.txt and a.csv. *)
Lemma list_csv_in_dir_selects_witness :
  let d := {| rel_path := [py "unit"];
              dir_listing := [(py "~$b.csv", Some (1 # 1)%Q);
                              (py "b.CSV", Some (2 # 1)%Q);
                              (py "notes.txt", None);
                              (py "a.csv", None)] |} in
  list_csv_in_dir d = Some [(py "a.csv", None); (py "b.CSV", Some (2 # 1)%Q)] /\
  (forall f, In f [(py "a.csv", None); (py "b.CSV", Some (2 # 1)%Q)] <->
             In f (dir_listing d) /\
             startswith (py "~$") (fst f) = false /\
             endswith (py ".csv") (lower (fst f)) = true).
Proof.
  intros d. split; [vm_compute; reflexivity|].
  apply (list_csv_in_dir_selects d). vm_compute. reflexivity.
Defined.

(** ** [list_all_dirs] *)

Lemma fs_tree_induction {V} (P : fs_tree V -> Prop) :
  (forall name listing subdirs,
      Forall P subdirs -> P (FsDir name listing subdirs)) ->
  forall t, P t.
Proof.
  intros H. fix IH 1. intros [name listing subdirs]. apply H.
  induction subdirs as [|d ds IHds]; [constructor|].
  constructor; [apply IH | exact IHds].
Qed.

Lemma walk_eq {V} (prefix : list str) name listing (subdirs : list (fs_tree V)) :
  walk prefix (FsDir name listing subdirs)
  = {| rel_path := prefix ++ [name]; dir_listing := listing |}
    :: flat_map (fun d => if startswith (py ".") (dir_name V d) then []
                          else walk (prefix ++ [name]) d) subdirs.
Proof.
  reflexivity.
Qed.

(** The walk below a directory yields exactly the directories reached
    from it without entering a dot directory. *)
Lemma In_walk {V} (t : fs_tree V) :
  forall prefix fd,
    In fd (walk prefix t) <->
    exists path, descends t path (dir_listing fd) /\
                 rel_path fd = prefix ++ path.
Proof.
  induction t as [name listing subdirs IH] using fs_tree_induction.
  intros prefix fd. rewrite walk_eq. cbn [In]. rewrite in_flat_map. split.
  - intros [<- | (d & Hd & Hin)].
    + exists [name]. split; [constructor | reflexivity].
    + destruct (startswith (py ".") (dir_name V d)) eqn:E; [destruct Hin|].
      rewrite Forall_forall in IH. apply (IH d Hd) in Hin.
      destruct Hin as (path & Hp & Hr). exists (name :: path). split.
      * now apply (descends_sub name listing subdirs d).
      * now rewrite Hr, <- app_assoc.
  - intros (path & Hp & Hr). inversion Hp; subst.
    + left. destruct fd as [rp dl]. simpl in *. now subst.
    + right. exists d. split; [assumption|].
      match goal with H : startswith _ _ = false |- _ => rewrite H end.
      rewrite Forall_forall in IH. apply (IH d); [assumption|].
      exists path0. split; [assumption|]. now rewrite Hr, <- app_assoc.
Qed.

Lemma descends_visible {V} (t : fs_tree V) path listing :
  descends t path listing ->
  startswith (py ".") (dir_name V t) = false ->
  path <> [] /\ Forall (fun c => startswith (py ".") c = false) path.
Proof.
  induction 1 as [name listing subdirs | name listing subdirs d path listing'
                                         Hin Hdot Hd IH]; intros Ht.
  - split; [discriminate | repeat constructor; exact Ht].
  - split; [discriminate|]. constructor; [exact Ht | now apply IH].
Qed.

Lemma In_list_all_dirs {V} sep name listing (subdirs : list (fs_tree V)) dirs fd :
  list_all_dirs sep (FsDir name listing subdirs) = Some dirs ->
  (In fd dirs <->
   exists d, In d subdirs /\ startswith (py ".") (dir_name V d) = false /\
             descends d (rel_path fd) (dir_listing fd)).
Proof.
  unfold list_all_dirs. intros H. apply sort_natural_perm in H.
  split.
  - intros Hin. apply (Permutation_in fd (Permutation_sym H)) in Hin.
    apply in_flat_map in Hin. destruct Hin as (d & Hd & Hin).
    destruct (startswith (py ".") (dir_name V d)) eqn:E; [destruct Hin|].
    apply In_walk in Hin. destruct Hin as (path & Hp & Hr).
    exists d. simpl in Hr. rewrite Hr. auto.
  - intros (d & Hd & Hdot & Hp). apply (Permutation_in fd H).
    apply in_flat_map. exists d. split; [assumption|]. rewrite Hdot.
    apply In_walk. exists (rel_path fd). auto.
Qed.

(** X9: [list_all_dirs] returns exactly the directories below the input
    directory that are reached without entering a directory whose name
    starts with a dot; the input directory itself is not among them. *)
Theorem list_all_dirs_exact {V} sep name listing (subdirs : list (fs_tree V))
        dirs :
  list_all_dirs sep (FsDir name listing subdirs) = Some dirs ->
  forall fd,
    In fd dirs <->
    exists d, In d subdirs /\ startswith (py ".") (dir_name V d) = false /\
              descends d (rel_path fd) (dir_listing fd).
Proof.
  intros H fd. now apply (In_list_all_dirs sep name listing subdirs dirs fd).
Qed.

(** X10: no directory returned by [list_all_dirs] lies in or below a
    directory whose name starts with a dot, and none is the input
    directory (the relative path is never empty). *)
Theorem list_all_dirs_skips_hidden {V} sep (input_dir : fs_tree V) dirs fd :
  list_all_dirs sep input_dir = Some dirs -> In fd dirs ->
  rel_path fd <> [] /\
  Forall (fun c => startswith (py ".") c = false) (rel_path fd).
Proof.
  destruct input_dir as [name listing subdirs]. intros H Hin.
  apply (In_list_all_dirs sep name listing subdirs dirs fd H) in Hin.
  destruct Hin as (d & _ & Hdot & Hp).
  exact (descends_visible d _ _ Hp Hdot).
Qed.

(** X9 at a tree with the folders b10, .git (holding x) and b2 (holding
    inner). *)
Lemma list_all_dirs_exact_witness :
  list_all_dirs "/" sample_tree
  = Some [ {| rel_path := [py "b2"]; dir_listing := [] |};
           {| rel_path := [py "b2"; py "inner"];
              dir_listing := [(py "f.csv", None)] |};
           {| rel_path := [py "b10"]; dir_listing := [] |} ] /\
  (forall fd,
      In fd [ {| rel_path := [py "b2"]; dir_listing := [] |};
              {| rel_path := [py "b2"; py "inner"];
                 dir_listing := [(py "f.csv", None)] |};
              {| rel_path := [py "b10"]; dir_listing := [] |} ] <->
      exists d, In d [FsDir (py "b10") [] [];
                      FsDir (py ".git") [] [FsDir (py "x") [] []];
                      FsDir (py "b2") []
                            [FsDir (py "inner") [(py "f.csv", None)] []]] /\
                startswith (py ".") (dir_name Q d) = false /\
                descends d (rel_path fd) (dir_listing fd)).
Proof.
  split; [vm_compute; reflexivity|].
  apply (list_all_dirs_exact "/" (py "InputFolder") [(py "top.csv", None)]).
  vm_compute. reflexivity.
Defined.

(** X10 at the folder b2/inner of the same tree. *)
Lemma list_all_dirs_skips_hidden_witness :
  rel_path {| rel_path := [py "b2"; py "inner"];
              dir_listing := [(py "f.csv", (None : option Q))] |} <> [] /\
  Forall (fun c => startswith (py ".") c = false) [py "b2"; py "inner"].
Proof.
  apply (list_all_dirs_skips_hidden
           "/" sample_tree
           [ {| rel_path := [py "b2"]; dir_listing := [] |};
             {| rel_path := [py "b2"; py "inner"];
                dir_listing := [(py "f.csv", None)] |};
             {| rel_path := [py "b10"]; dir_listing := [] |} ]).
  - vm_compute. reflexivity.
  - simpl. auto.
Defined.

(** ** More on [normalize_position] *)

Lemma isspace_lower (c : ascii) : isspace (char_lower c) = isspace c.
Proof. each_char c. Qed.

Lemma lstrip_lower (s : str) : lstrip (lower s) = lower (lstrip s).
Proof.
  induction s as [|c s IH]; [reflexivity|].
  change (lower (c :: s)) with (char_lower c :: lower s).
  cbn [lstrip]. rewrite isspace_lower. now destruct (isspace c).
Qed.

Lemma strip_lower (s : str) : strip (lower s) = lower (strip s).
Proof.
  unfold strip, rstrip.
  now rewrite lstrip_lower, <- lower_rev, lstrip_lower, lower_rev.
Qed.

Lemma lstrip_remove_space (s : str) :
  lstrip (remove_char " " s) = remove_char " " (lstrip s).
Proof.
  induction s as [|c s IH]; [reflexivity|].
  unfold remove_char in *. cbn [filter lstrip].
  destruct (isspace c) eqn:Es.
  - destruct (char_eqb c " "); cbn [negb]; [exact IH|].
    cbn [lstrip]. now rewrite Es.
  - assert (E : char_eqb c " " = false).
    { destruct (char_eqb c " ") eqn:E; [|reflexivity].
      apply char_eqb_eq in E. subst c. discriminate. }
    rewrite E. cbn [negb lstrip filter]. now rewrite Es, E.
Qed.

Lemma strip_remove_space (s : str) :
  strip (remove_char " " s) = remove_char " " (strip s).
Proof.
  unfold strip, rstrip.
  now rewrite lstrip_remove_space, <- remove_char_rev, lstrip_remove_space,
    remove_char_rev.
Qed.

Lemma normalize_position_by_clean_text (s : str) :
  normalize_position (Some s)
  = sort_segments (strip (remove_char " " (lower s))).
Proof.
  now rewrite normalize_position_unfold, strip_remove_space, strip_lower.
Qed.

Lemma normalize_position_ignores_case_and_spaces_aux (s1 s2 : str) :
  remove_char " " (lower s1) = remove_char " " (lower s2) ->
  normalize_position (Some s1) = normalize_position (Some s2).
Proof.
  intros H. now rewrite !normalize_position_by_clean_text, H.
Qed.

(** X11: two tags that differ only in letter case and in the placement of
    space characters normalise to the same string. *)
Theorem normalize_position_ignores_case_and_spaces (s1 s2 : str) :
  remove_char " " (lower s1) = remove_char " " (lower s2) ->
  normalize_position (Some s1) = normalize_position (Some s2).
Proof.
  intros H. now rewrite !normalize_position_by_clean_text, H.
Qed.

(** X11 at the tags " Opl +IPL" and "oPL+ i p l ". *)
Lemma normalize_position_ignores_case_and_spaces_witness :
  normalize_position (Some (py " Opl +IPL")) = normalize_position (Some (py "oPL+ i p l ")).
Proof.
  apply normalize_position_ignores_case_and_spaces. reflexivity.
Defined.

Lemma str_split_pieces_no_sep (sep : ascii) (s p : str) :
  In p (str_split sep s) -> has_char sep p = false.
Proof.
  revert p. induction s as [|c s IH]; intros p Hp; cbn [str_split] in Hp.
  - now destruct Hp as [<- | []].
  - destruct (char_eqb c sep) eqn:E.
    + destruct Hp as [<- | Hp]; [reflexivity | auto].
    + destruct (str_split sep s) as [|q qs] eqn:Eq.
      * destruct Hp as [<- | []]. simpl.
        replace (char_eqb sep c) with false; [reflexivity|].
        symmetry. apply char_eqb_neq. apply char_eqb_neq in E. congruence.
      * destruct Hp as [<- | Hp]; [|apply IH; now right].
        simpl. replace (char_eqb sep c) with false.
        -- apply IH. now left.
        -- symmetry. apply char_eqb_neq. apply char_eqb_neq in E. congruence.
Qed.

Lemma sorted_strings_fixed (l : list str) :
  StronglySorted (not_after str_ltb) l -> sort_by str_ltb l = l.
Proof.
  intros H. apply (sorted_perm_unique str_ltb (fun _ => True)).
  - intros a b _ _. apply str_not_after_antisym.
  - now apply Forall_forall.
  - apply sort_strings_sorted.
  - assumption.
  - symmetry. apply sort_by_perm.
Qed.

(** The segments [sort_segments] sorts: non-empty, free of '+'. *)
Lemma sorted_parts_facts (pos : str) :
  let parts := sort_by str_ltb
                 (filter (fun p => negb (str_eqb p [])) (str_split "+" pos)) in
  StronglySorted (not_after str_ltb) parts /\
  Forall (fun p => p <> [] /\ has_char "+" p = false) parts.
Proof.
  intros parts. split; [apply sort_strings_sorted|].
  apply Forall_forall. intros p Hp.
  apply (Permutation_in p (Permutation_sym (sort_by_perm _ _))) in Hp.
  apply filter_In in Hp. destruct Hp as [Hin Hne]. split.
  - apply negb_true_iff, str_eqb_neq in Hne. exact Hne.
  - now apply (str_split_pieces_no_sep "+" pos).
Qed.

Lemma str_split_join_parts (parts : list str) :
  parts <> [] ->
  Forall (fun p => p <> [] /\ has_char "+" p = false) parts ->
  str_split "+" (str_join "+" parts) = parts.
Proof.
  intros Hne H. apply str_split_join; [assumption|].
  rewrite Forall_forall in *. intros p Hp. now apply H.
Qed.

(** X12: the result of [normalize_position], split at '+', is a list of
    segments in ascending order none of which is empty -- or the single
    empty segment when nothing is left of the input. *)
Theorem normalize_position_canonical (s : str) :
  let segments := str_split "+" (normalize_position (Some s)) in
  StronglySorted (not_after str_ltb) segments /\
  (segments = [[]] \/ Forall (fun p => p <> []) segments).
Proof.
  cbv zeta. rewrite normalize_position_unfold.
  set (pos := remove_char " " (lower (strip s))). unfold sort_segments.
  destruct (has_char "+" pos) eqn:E.
  - destruct (sorted_parts_facts pos) as [Hs Hf].
    set (parts := sort_by str_ltb _) in *. clearbody parts.
    destruct parts as [|p parts].
    + split; [repeat constructor | now left].
    + rewrite str_split_join_parts by (auto; discriminate).
      split; [assumption | right].
      rewrite Forall_forall in *. intros q Hq. now apply Hf.
  - rewrite str_split_no_sep by assumption. split; [repeat constructor|].
    destruct pos as [|c pos]; [now left | right].
    repeat constructor. discriminate.
Qed.

(** Sorting the segments of an already normalised text changes nothing. *)
Lemma sort_segments_idem (pos : str) :
  sort_segments (sort_segments pos) = sort_segments pos.
Proof.
  destruct (has_char "+" pos) eqn:E.
  - assert (Ep : sort_segments pos
                 = str_join "+"
                     (sort_by str_ltb
                        (filter (fun p => negb (str_eqb p []))
                                (str_split "+" pos)))).
    { unfold sort_segments. now rewrite E. }
    rewrite Ep. destruct (sorted_parts_facts pos) as [Hs Hf].
    set (parts := sort_by str_ltb _) in *. clearbody parts.
    destruct parts as [|p [|q parts]].
    + reflexivity.
    + inversion Hf as [|? ? [_ Hp] _]; subst. unfold sort_segments.
      cbn [str_join]. now rewrite Hp.
    + unfold sort_segments. rewrite str_join_has_sep.
      rewrite str_split_join_parts by (auto; discriminate).
      assert (Hk : filter (fun p => negb (str_eqb p [])) (p :: q :: parts)
                   = p :: q :: parts).
      { clear Hs Ep. induction Hf as [|x l [Hx _] _ IH]; [reflexivity|].
        cbn [filter]. apply str_eqb_neq in Hx. rewrite Hx. cbn [negb].
        now rewrite IH. }
      now rewrite Hk, sorted_strings_fixed.
  - assert (Ep : sort_segments pos = pos).
    { unfold sort_segments. now rewrite E. }
    now rewrite !Ep.
Qed.

Lemma lstrip_no_space (s : str) :
  forallb (fun c => negb (isspace c)) s = true -> lstrip s = s.
Proof.
  destruct s as [|c s]; [reflexivity|]. cbn [forallb lstrip].
  intros H. apply andb_true_iff in H. destruct H as [H _].
  apply negb_true_iff in H. now rewrite H.
Qed.

Lemma strip_no_space (s : str) :
  forallb (fun c => negb (isspace c)) s = true -> strip s = s.
Proof.
  intros H. unfold strip, rstrip. rewrite (lstrip_no_space s H).
  rewrite lstrip_no_space, rev_involutive; [reflexivity|].
  rewrite forallb_forall in *. intros c Hc. apply H. now apply in_rev.
Qed.

(** The characters of a normalised text: '+', or the lower-case form of
    a character of the input that is not whitespace. *)
Lemma normalize_position_chars (s : str) (c : ascii) :
  (forall x, In x s -> isspace x = true -> x = " "%char) ->
  In c (normalize_position (Some s)) ->
  isspace c = false /\ char_lower c = c.
Proof.
  intros Hs Hc. rewrite normalize_position_by_clean_text in Hc.
  apply sort_segments_chars in Hc. destruct Hc as [-> | Hc]; [now split|].
  assert (Hin : In c (remove_char " " (lower s))).
  { revert Hc. unfold strip, rstrip.
    generalize (remove_char " " (lower s)). intros l Hc.
    apply in_rev in Hc.
    assert (L : forall x (t : str), In x (lstrip t) -> In x t).
    { intros x t. induction t as [|y t IH]; [auto|]. cbn [lstrip].
      destruct (isspace y); [right; auto | auto]. }
    apply L, in_rev in Hc. now apply L. }
  apply In_remove_char in Hin. destruct Hin as [Hin Hne].
  unfold lower in Hin. apply in_map_iff in Hin. destruct Hin as (x & <- & Hx).
  split; [|apply char_lower_idem].
  rewrite isspace_lower. destruct (isspace x) eqn:E; [|reflexivity].
  exfalso. apply Hne. now rewrite (Hs x Hx E).
Qed.

(** X13: normalising twice gives what normalising once gives, for every
    input whose only whitespace is the space character. *)
Theorem normalize_position_idempotent (s : str) :
  (forall x, In x s -> isspace x = true -> x = " "%char) ->
  normalize_position (Some (normalize_position (Some s)))
  = normalize_position (Some s).
Proof.
  intros Hs. set (y := normalize_position (Some s)).
  assert (Hy : forall c, In c y -> isspace c = false /\ char_lower c = c).
  { intros c. now apply normalize_position_chars. }
  rewrite normalize_position_unfold.
  assert (E1 : strip y = y).
  { apply strip_no_space. apply forallb_forall. intros c Hc.
    now rewrite (proj1 (Hy c Hc)). }
  assert (E2 : lower y = y).
  { unfold lower. rewrite <- (map_id y) at 2. apply map_ext_in.
    intros c Hc. apply (Hy c Hc). }
  assert (E3 : remove_char " " y = y).
  { unfold remove_char. apply forallb_filter_id. apply forallb_forall.
    intros c Hc. apply negb_true_iff, char_eqb_neq. intros ->.
    now destruct (Hy _ Hc). }
  rewrite E1, E2, E3. unfold y. rewrite normalize_position_unfold.
  apply sort_segments_idem.
Qed.

(** X13 at the tag " OPL + ipl+ ". *)
Lemma normalize_position_idempotent_witness :
  normalize_position (Some (normalize_position (Some (py " OPL + ipl+ "))))
  = normalize_position (Some (py " OPL + ipl+ ")).
Proof.
  apply normalize_position_idempotent.
  intros x Hx. simpl in Hx.
  repeat (destruct Hx as [<- | Hx]; [vm_compute; try discriminate; reflexivity|]).
  destruct Hx.
Defined.

(** ** The fields [parse_from_name] returns *)

Lemma run_sound_with (r : regex) :
  forall s g k res,
    run r s g k = Some res ->
    exists s' g', matches_with r s g s' g' /\ k s' g' = Some res.
Proof.
  induction r as [l | cls lo hi greedy | r1 IH1 r2 IH2 | r1 IH1 r2 IH2
                  | r1 IH1 | name r1 IH1 | ]; intros s g k res H; simpl in H.
  - destruct (eat_literal l s) as [s'|] eqn:E; [|discriminate].
    exists s', g. simpl. auto.
  - apply rep_run_sound in H. destruct H as (w & s' & Hs & Hw & Hlo & Hhi & Hk).
    exists s', g. split; [|assumption]. simpl. split; [|reflexivity].
    exists w. auto.
  - apply IH1 in H. destruct H as (mid & g1 & M1 & H).
    apply IH2 in H. destruct H as (s' & g2 & M2 & H).
    exists s', g2. split; [|assumption]. exists mid, g1. auto.
  - apply or_else_some in H. destruct H as [H | H].
    + apply IH1 in H. destruct H as (s' & g' & M & Hk).
      exists s', g'. simpl. auto.
    + apply IH2 in H. destruct H as (s' & g' & M & Hk).
      exists s', g'. simpl. auto.
  - apply or_else_some in H. destruct H as [H | H].
    + apply IH1 in H. destruct H as (s' & g' & M & Hk).
      exists s', g'. simpl. auto.
    + exists s, g. simpl. auto.
  - apply IH1 in H. destruct H as (s' & g' & M & Hk).
    exists s', ((name, consumed s s') :: g'). split; [|assumption].
    exists g'. auto.
  - destruct s as [|c [|d s]]; try discriminate.
    + exists [], g. simpl. auto.
    + destruct (char_eqb c "010") eqn:E; [|discriminate].
      apply char_eqb_eq in E. subst c. exists ["010"%char], g. simpl. auto.
Qed.

Lemma consumed_app (w s' : str) : consumed (w ++ s') s' = w.
Proof.
  unfold consumed. rewrite length_app.
  replace (List.length w + List.length s' - List.length s') with (List.length w)
    by lia.
  rewrite firstn_app, Nat.sub_diag, firstn_all. simpl. apply app_nil_r.
Qed.

Lemma consumed_cons_app (c : ascii) (w s' : str) :
  consumed (c :: w ++ s') s' = c :: w.
Proof. apply (consumed_app (c :: w) s'). Qed.

Lemma eat_literal_split (l s s' : str) :
  eat_literal l s = Some s' ->
  exists w, s = w ++ s' /\ lower w = lower l /\ consumed s s' = w.
Proof.
  intros H. apply eat_literal_suffix in H. destruct H as (w & -> & Hw).
  exists w. repeat split; auto. apply consumed_app.
Qed.

Lemma lower_decimal (w : str) : forallb is_decimal w = true -> lower w = w.
Proof.
  intros H. unfold lower. rewrite <- (map_id w) at 2. apply map_ext_in.
  intros c Hc. rewrite forallb_forall in H. specialize (H c Hc).
  apply char_isdigit_lower. unfold char_isdigit. now rewrite H.
Qed.

Lemma char_lower_underscore (y : ascii) :
  char_lower "_" = char_lower y -> y = "_"%char.
Proof. each_char y. Qed.

Lemma eat_one (x : ascii) (s s' : str) :
  eat_literal [x] s = Some s' ->
  exists y, s = y :: s' /\ char_lower x = char_lower y.
Proof.
  intros H. apply eat_literal_cons in H. destruct H as (y & s1 & -> & E & H).
  injection H as ->. eauto.
Qed.

Lemma lower_kind_cases (K : str) :
  lower K = lower (py "microglia") \/ lower K = lower (py "ribeyes") ->
  K <> [] /\ (lower K = py "microglia" \/ lower K = py "ribeyes").
Proof.
  intros H. split.
  - intros ->. destruct H; discriminate.
  - exact H.
Qed.

(** The text a successful match of [NAME_RE] went through, and the
    fields read from its groups. *)
Lemma parse_from_name_decomposes (name mouse view pos kind : str) :
  parse_from_name name = Some (mouse, view, pos, kind) ->
  exists (p : ascii) (digits filler viewtok K P tag csv nl : str),
    name = p :: digits ++ "-"%char :: filler ++ viewtok
             ++ "("%char :: K ++ "-"%char :: P
             ++ ")"%char :: "_"%char :: tag ++ csv ++ nl /\
    char_lower p = "p"%char /\
    digits <> [] /\ forallb is_decimal digits = true /\
    mouse = "p"%char :: digits /\
    forallb any_but_newline filler = true /\
    (viewtok = [] /\ view = py "/" \/
     viewtok = "_"%char :: view /\ forallb is_decimal view = true /\
     3 <= List.length view <= 6) /\
    kind = lower K /\ (kind = py "microglia" \/ kind = py "ribeyes") /\
    P <> [] /\ forallb not_close_paren P = true /\
    pos = normalize_position (Some P) /\
    (tag = [] \/ lower tag = py "detailed" \/ lower tag = py "statistics") /\
    (csv = [] \/ lower csv = py ".csv") /\
    (nl = [] \/ nl = ["010"%char]).
Proof.
  unfold parse_from_name, re_match.
  destruct (run NAME_RE name [] (fun _ g => Some g)) as [m|] eqn:E; [|discriminate].
  apply run_sound_with in E. destruct E as (s' & g' & M & Hk).
  injection Hk as ->.
  unfold NAME_RE in M. cbn [matches_with] in M.
  destruct M as (m1 & g1 & (gi1 & (mid1 & gm1 & (Hp & ->) & (Hdig & ->)) & ->) &
                 m2 & g2 & (Hdash & ->) &
                 m3 & g3 & (Hfill & ->) &
                 m4 & g4 & Hview &
                 m5 & g5 & (Hopen & ->) &
                 m6 & g6 & (gi6 & Hkind & ->) &
                 m7 & g7 & (Hdash2 & ->) &
                 m8 & g8 & (gi8 & (Hpos & ->) & ->) &
                 m9 & g9 & (Hclose & ->) &
                 m10 & g10 & (Hund & ->) &
                 m11 & g11 & Htag &
                 m12 & g12 & Hcsv &
                 (-> & -> & Hend)).
  (* the subject *)
  apply eat_one in Hp. destruct Hp as (p & -> & Ep).
  destruct Hdig as (digits & -> & Hdigits & Hlen & _).
  rewrite consumed_cons_app in *.
  apply eat_one in Hdash. destruct Hdash as (y & -> & Ey).
  apply char_lower_dash in Ey. subst y.
  destruct Hfill as (filler & -> & Hfiller & _).
  (* the kind and the position *)
  apply eat_one in Hopen. destruct Hopen as (y & -> & Ey).
  apply char_lower_open_paren in Ey. subst y.
  assert (HK : exists K, m5 = K ++ m6 /\ consumed m5 m6 = K /\ gi6 = g4 /\
                         K <> [] /\
                         (lower K = py "microglia" \/ lower K = py "ribeyes")).
  { destruct Hkind as [[H ->] | [H ->]];
      apply eat_literal_split in H; destruct H as (K & -> & HK & HcK);
      exists K; repeat split; auto;
        try (apply lower_kind_cases; auto);
        intros ->; discriminate. }
  destruct HK as (K & -> & HcK & -> & HKne & HKl). rewrite HcK in *. clear Hkind.
  apply eat_one in Hdash2. destruct Hdash2 as (y & -> & Ey).
  apply char_lower_dash in Ey. subst y.
  destruct Hpos as (P & -> & HP & HPlen & _). rewrite consumed_app in *.
  apply eat_one in Hclose. destruct Hclose as (y & -> & Ey).
  apply char_lower_close_paren in Ey. subst y.
  apply eat_one in Hund. destruct Hund as (y & -> & Ey).
  apply char_lower_underscore in Ey. subst y.
  (* the tail *)
  assert (HT : exists tag csv,
             m10 = tag ++ csv ++ m12 /\
             (tag = [] \/ lower tag = py "detailed" \/ lower tag = py "statistics") /\
             (csv = [] \/ lower csv = py ".csv") /\
             (g12 = (py "pos", P) :: (py "kind", K) :: g4 \/
              exists t, g12 = (py "tag", t) :: (py "pos", P) :: (py "kind", K) :: g4)).
  { assert (HC : exists csv, m11 = csv ++ m12 /\ (csv = [] \/ lower csv = py ".csv")
                             /\ g12 = g11).
    { destruct Hcsv as [[H ->] | [-> ->]].
      - apply eat_literal_split in H. destruct H as (csv & -> & Hl & _).
        exists csv. auto.
      - exists []. auto. }
    destruct HC as (csv & Em11 & Hcsv' & Eg12). subst m11 g12.
    destruct Htag as [(gi & [[H ->] | [H ->]] & ->) | [Em10 ->]].
    - apply eat_literal_split in H. destruct H as (tag & -> & Hl & _).
      exists tag, csv. repeat split; auto. right. eauto.
    - apply eat_literal_split in H. destruct H as (tag & -> & Hl & _).
      exists tag, csv. repeat split; auto. right. eauto.
    - exists [], csv. repeat split; auto. }
  destruct HT as (tag & csv & -> & Htag' & Hcsv' & Hg12). clear Htag Hcsv.
  destruct P as [|c0 P0]; [simpl in HPlen; lia|].
  destruct K as [|k0 K0]; [congruence|].
  assert (Elow : char_lower p = "p"%char) by (symmetry; exact Ep).
  assert (Hmouse : lower (p :: digits) = "p"%char :: digits).
  { change (lower (p :: digits)) with (char_lower p :: lower digits).
    now rewrite Elow, lower_decimal. }
  assert (Hdne : digits <> []) by (intros ->; simpl in Hlen; lia).
  (* the view token *)
  destruct Hview as [(mid & gm & (Hu & ->) & gi & ((Hv & ->) & ->)) | [Em3 ->]];
    [|subst m3].
  - apply eat_one in Hu. destruct Hu as (y & -> & Ey).
    apply char_lower_underscore in Ey. subst y.
    destruct Hv as (v & -> & Hvdec & Hvlo & Hvhi). rewrite consumed_app in *.
    simpl in Hvhi. destruct v as [|v0 v1]; [simpl in Hvlo; lia|].
    intros Hres.
    assert (Hfields : mouse = lower (p :: digits) /\ view = v0 :: v1 /\
                      pos = normalize_position (Some (c0 :: P0)) /\
                      kind = lower (k0 :: K0)).
    { destruct Hg12 as [-> | (t & ->)]; cbn in Hres; injection Hres; auto. }
    destruct Hfields as (-> & -> & -> & ->).
    exists p, digits, filler, ("_"%char :: v0 :: v1), (k0 :: K0), (c0 :: P0),
      tag, csv, m12.
    split; [reflexivity|].
    repeat split; auto; try discriminate.
  - intros Hres.
    assert (Hfields : mouse = lower (p :: digits) /\ view = py "/" /\
                      pos = normalize_position (Some (c0 :: P0)) /\
                      kind = lower (k0 :: K0)).
    { destruct Hg12 as [-> | (t & ->)]; cbn in Hres; injection Hres; auto. }
    destruct Hfields as (-> & -> & -> & ->).
    exists p, digits, filler, [], (k0 :: K0), (c0 :: P0), tag, csv, m12.
    split; [reflexivity|].
    repeat split; auto; discriminate.
Qed.

Lemma In_lstrip (x : ascii) (t : str) : In x (lstrip t) -> In x t.
Proof.
  induction t as [|y t IH]; [auto|]. cbn [lstrip].
  destruct (isspace y); [right; auto | auto].
Qed.

Lemma In_strip (x : ascii) (t : str) : In x (strip t) -> In x t.
Proof.
  unfold strip, rstrip. intros H.
  apply in_rev, In_lstrip, in_rev in H. now apply In_lstrip.
Qed.

(** Where the characters of a normalised position come from. *)
Lemma normalize_position_char_origin (s : str) (c : ascii) :
  In c (normalize_position (Some s)) ->
  c = "+"%char \/ (c <> " "%char /\ exists x, In x s /\ c = char_lower x).
Proof.
  intros Hc. rewrite normalize_position_unfold in Hc.
  apply sort_segments_chars in Hc. destruct Hc as [-> | Hc]; [now left | right].
  apply In_remove_char in Hc. destruct Hc as [Hc Hne]. split; [assumption|].
  unfold lower in Hc. apply in_map_iff in Hc. destruct Hc as (x & <- & Hx).
  exists x. split; [now apply In_strip | reflexivity].
Qed.

(** X14: for names of code points U+0000..U+00FF, every parsed name has
    a subject of the form p<digits> in lower case,
    a view that is "/" or 3 to 6 decimal digits, one of the two marker
    names as kind, and a position without space and without closing
    parenthesis. *)
Theorem parse_from_name_field_formats (name mouse view pos kind : str) :
  parse_from_name name = Some (mouse, view, pos, kind) ->
  (exists digits, digits <> [] /\ forallb is_decimal digits = true /\
                  mouse = "p"%char :: digits) /\
  (view = py "/" \/
   forallb is_decimal view = true /\ 3 <= List.length view <= 6) /\
  (kind = py "microglia" \/ kind = py "ribeyes") /\
  has_char " " pos = false /\ has_char ")" pos = false.
Proof.
  intros H. apply parse_from_name_decomposes in H.
  destruct H as (p & digits & filler & viewtok & K & P & tag & csv & nl &
                 _ & _ & Hd1 & Hd2 & Hm & _ & Hv & _ & Hk & _ & HP & Hpos & _).
  split; [exists digits; auto|]. split; [destruct Hv as [[_ ->] | (_ & ? & ?)]; auto|].
  split; [assumption|]. subst pos. split.
  - apply has_char_not_In. intros Hin.
    apply normalize_position_char_origin in Hin.
    destruct Hin as [Hin | [Hin _]]; [discriminate | congruence].
  - apply has_char_not_In. intros Hin.
    apply normalize_position_char_origin in Hin.
    destruct Hin as [Hin | (_ & x & Hx & E)]; [discriminate|].
    apply char_lower_close_paren in E. subst x.
    rewrite forallb_forall in HP. specialize (HP _ Hx). discriminate.
Qed.

(** X14 at P12-slide A_0042(Ribeyes-ONL + inl)_Statistics.csv. *)
Lemma parse_from_name_field_formats_witness :
  (exists digits, digits <> [] /\ forallb is_decimal digits = true /\
                  py "p12" = "p"%char :: digits) /\
  (py "0042" = py "/" \/
   forallb is_decimal (py "0042") = true /\ 3 <= List.length (py "0042") <= 6) /\
  (py "ribeyes" = py "microglia" \/ py "ribeyes" = py "ribeyes") /\
  has_char " " (py "inl+onl") = false /\ has_char ")" (py "inl+onl") = false.
Proof.
  apply (parse_from_name_field_formats
           (py "P12-slide A_0042(Ribeyes-ONL + inl)_Statistics.csv")).
  vm_compute. reflexivity.
Defined.

(** X15: for names of code points U+0000..U+00FF, every parsed name
    reads p<digits>-<filler>[_<view>](<kind>-<position>)_
    followed by an optional tag, an optional .csv and at most one final
    newline, and the four fields are read off that reading: the subject
    and the kind lower-cased, the view as it stands, the position
    normalised. *)
Theorem parse_from_name_reads_name (name mouse view pos kind : str) :
  parse_from_name name = Some (mouse, view, pos, kind) ->
  exists (p : ascii) (digits filler viewtok K P tag csv nl : str),
    name = p :: digits ++ "-"%char :: filler ++ viewtok
             ++ "("%char :: K ++ "-"%char :: P
             ++ ")"%char :: "_"%char :: tag ++ csv ++ nl /\
    char_lower p = "p"%char /\
    digits <> [] /\ forallb is_decimal digits = true /\
    mouse = "p"%char :: digits /\
    forallb any_but_newline filler = true /\
    (viewtok = [] /\ view = py "/" \/
     viewtok = "_"%char :: view /\ forallb is_decimal view = true /\
     3 <= List.length view <= 6) /\
    kind = lower K /\ (kind = py "microglia" \/ kind = py "ribeyes") /\
    P <> [] /\ forallb not_close_paren P = true /\
    pos = normalize_position (Some P) /\
    (tag = [] \/ lower tag = py "detailed" \/ lower tag = py "statistics") /\
    (csv = [] \/ lower csv = py ".csv") /\
    (nl = [] \/ nl = ["010"%char]).
Proof. apply parse_from_name_decomposes. Qed.

(** X15 at P12-slide A_0042(Ribeyes-ONL + inl)_Statistics.csv. *)
Lemma parse_from_name_reads_name_witness :
  exists (p : ascii) (digits filler viewtok K P tag csv nl : str),
    py "P12-slide A_0042(Ribeyes-ONL + inl)_Statistics.csv"
    = p :: digits ++ "-"%char :: filler ++ viewtok
        ++ "("%char :: K ++ "-"%char :: P
        ++ ")"%char :: "_"%char :: tag ++ csv ++ nl /\
    char_lower p = "p"%char /\
    digits <> [] /\ forallb is_decimal digits = true /\
    py "p12" = "p"%char :: digits /\
    forallb any_but_newline filler = true /\
    (viewtok = [] /\ py "0042" = py "/" \/
     viewtok = "_"%char :: py "0042" /\ forallb is_decimal (py "0042") = true /\
     3 <= List.length (py "0042") <= 6) /\
    py "ribeyes" = lower K /\
    (py "ribeyes" = py "microglia" \/ py "ribeyes" = py "ribeyes") /\
    P <> [] /\ forallb not_close_paren P = true /\
    py "inl+onl" = normalize_position (Some P) /\
    (tag = [] \/ lower tag = py "detailed" \/ lower tag = py "statistics") /\
    (csv = [] \/ lower csv = py ".csv") /\
    (nl = [] \/ nl = ["010"%char]).
Proof.
  apply (parse_from_name_reads_name
           (py "P12-slide A_0042(Ribeyes-ONL + inl)_Statistics.csv")).
  vm_compute. reflexivity.
Defined.

(** ** Explicit kind against sniffing *)

(** X16: for names of code points U+0000..U+00FF, a file whose own name
    parses is stored under the kind its name states, whatever other
    marker name occurs in the file name; its key is the folder's when
    the folder name parsed, its own otherwise. *)
Theorem explicit_kind_beats_sniffing {V} (fixed : option row_key)
        (summary : summary_table V) (csv_name : str) (val : option V)
        (mouse view pos kind : str) :
  parse_from_name csv_name = Some (mouse, view, pos, kind) ->
  process_csv fixed summary (csv_name, val)
  = store (match fixed with Some key => key | None => (mouse, view, pos) end)
          kind val summary.
Proof.
  intros H. pose proof (parse_from_name_decomposes _ _ _ _ _ H) as D.
  destruct D as (p & digits & filler & viewtok & K & P & tag & csv & nl &
                 _ & _ & _ & _ & _ & _ & _ & _ & Hk & _).
  rewrite process_csv_resolve. unfold resolve. cbn [fst snd]. rewrite H.
  destruct kind as [|c kind]; [destruct Hk; discriminate|].
  now destruct fixed.
Qed.

(** X16 at p1-ribeyes_run(microglia-opl)_Statistics.csv in a folder whose
    name did not parse. *)
Lemma explicit_kind_beats_sniffing_witness :
  process_csv None [] (py "p1-ribeyes_run(microglia-opl)_Statistics.csv",
                       Some (5 # 4)%Q)
  = store (py "p1", py "/", py "opl") (py "microglia") (Some (5 # 4)%Q) [].
Proof.
  apply (explicit_kind_beats_sniffing None []
           (py "p1-ribeyes_run(microglia-opl)_Statistics.csv") (Some (5 # 4)%Q)
           (py "p1") (py "/") (py "opl") (py "microglia")).
  vm_compute. reflexivity.
Defined.

(** ** The key of a unit whose folder name parses *)

Section FolderKeyFacts.
Context {V : Type}.

(** A file that carries a kind -- in its own name when that parses, else
    as a marker name somewhere in it -- resolves to the folder's key. *)
Lemma resolve_under_folder_key (key : row_key) (csv_name : str) :
  parse_from_name csv_name <> None \/
  contains (py "ribeyes") (lower csv_name) = true \/
  contains (py "microglia") (lower csv_name) = true ->
  exists kind, resolve (Some key) csv_name = Some (key, kind) /\
               (kind = py "ribeyes" \/ kind = py "microglia").
Proof.
  intros H. unfold resolve.
  destruct (parse_from_name csv_name) as [[[[m v] p] k]|] eqn:E.
  - apply parse_from_name_decomposes in E.
    destruct E as (x1 & x2 & x3 & x4 & x5 & x6 & x7 & x8 & x9 & E).
    destruct E as (_ & _ & _ & _ & _ & _ & _ & _ & [Hk | Hk] & _);
      subst k; eexists; (split; [reflexivity|]); auto.
  - destruct H as [H | [H | H]]; [now elim H | |].
    + rewrite H. simpl. eauto.
    + rewrite H. destruct (contains (py "ribeyes") (lower csv_name)); simpl; eauto.
Qed.

(** Storing a value of one of the two kinds leaves it in the row of the
    key. *)
Lemma lookup_store_value (key : row_key) (kind : str) (val : option V)
      (summary : summary_table V) :
  kind = py "ribeyes" \/ kind = py "microglia" ->
  exists r, lookup key (store key kind val summary) = Some r /\
            (Ribeyes r = val \/ microglia r = val).
Proof.
  intros Hk. rewrite lookup_store, key_eqb_refl. eexists. split; [reflexivity|].
  destruct Hk as [-> | ->]; [left | right]; reflexivity.
Qed.

Lemma fold_process_csv_coherent fixed csvs :
  forall summary : summary_table V,
    coherent summary -> coherent (fold_left (process_csv fixed) csvs summary).
Proof.
  induction csvs as [|csv csvs IH]; intros summary H; simpl; [assumption|].
  apply IH. rewrite process_csv_resolve.
  destruct (resolve fixed (fst csv)) as [[key kind]|]; [|assumption].
  now apply coherent_store.
Qed.

Lemma fold_process_csv_row (key : row_key) csvs :
  forall summary : summary_table V,
    lookup key summary <> None \/
    (exists csv, In csv csvs /\ resolve (Some key) (fst csv) <> None) ->
    lookup key (fold_left (process_csv (Some key)) csvs summary) <> None.
Proof.
  induction csvs as [|csv csvs IH]; intros summary H; simpl.
  - destruct H as [H | (csv & [] & _)]. exact H.
  - apply IH. rewrite process_csv_resolve.
    destruct (resolve (Some key) (fst csv)) as [[key' kind]|] eqn:E.
    + left. apply resolve_fixed in E. subst key'.
      rewrite lookup_store, key_eqb_refl. discriminate.
    + destruct H as [H | (c & [<- | Hin] & Hc)].
      * now left.
      * now elim Hc.
      * right. eauto.
Qed.

(** C1 (as amended): when the name of a folder parses, its subject,
    view and position are the key of every file of the unit.  As soon as
    one file of the unit carries a kind (its own name parses, or holds a
    marker name), the table has a row under the folder's key whose
    subject, view and position are the folder's; handling such a file
    leaves its value in that row; and whatever the file names say, no
    row of another key is created or changed. *)
Theorem folder_name_fixes_key (d : found_dir V) (summary : summary_table V)
        (mouse view pos kind : str) (csvs : list (str * option V)) :
  parse_from_name (basename d) = Some (mouse, view, pos, kind) ->
  list_csv_in_dir d = Some csvs ->
  coherent summary ->
  exists summary',
    process_dir summary d = Some summary' /\
    ((exists csv, In csv csvs /\
                  (parse_from_name (fst csv) <> None \/
                   contains (py "ribeyes") (lower (fst csv)) = true \/
                   contains (py "microglia") (lower (fst csv)) = true)) ->
     exists r, lookup (mouse, view, pos) summary' = Some r /\
               mouse_ID r = mouse /\ view_id r = view /\ position r = pos) /\
    (forall csv (table : summary_table V),
        In csv csvs ->
        parse_from_name (fst csv) <> None \/
        contains (py "ribeyes") (lower (fst csv)) = true \/
        contains (py "microglia") (lower (fst csv)) = true ->
        exists r,
          lookup (mouse, view, pos)
                 (process_csv (Some (mouse, view, pos)) table csv) = Some r /\
          (Ribeyes r = snd csv \/ microglia r = snd csv)) /\
    (forall key, key <> (mouse, view, pos) ->
                 lookup key summary' = lookup key summary).
Proof.
  intros Hf Hc Hcoh.
  exists (fold_left (process_csv (Some (mouse, view, pos))) csvs summary).
  split; [|split; [|split]].
  - unfold process_dir. rewrite Hf, Hc. now destruct csvs.
  - intros (csv & Hin & Hkind).
    destruct (resolve_under_folder_key (mouse, view, pos) (fst csv) Hkind)
      as (k & Hk & _).
    destruct (lookup (mouse, view, pos)
                     (fold_left (process_csv (Some (mouse, view, pos))) csvs summary))
      as [r|] eqn:L.
    + exists r. split; [reflexivity|].
      pose proof (coherent_lookup _ _ r
                    (fold_process_csv_coherent _ csvs summary Hcoh) L) as Hid.
      injection Hid as -> -> ->. auto.
    + exfalso. revert L. apply fold_process_csv_row. right.
      exists csv. split; [assumption|]. now rewrite Hk.
  - intros csv table _ Hkind.
    destruct (resolve_under_folder_key (mouse, view, pos) (fst csv) Hkind)
      as (k & Hk & Hcases).
    rewrite process_csv_resolve.
    change (@Some (str * str * str)%type (mouse, view, pos))
      with (@Some row_key (mouse, view, pos)).
    rewrite Hk. now apply lookup_store_value.
  - intros key Hk. apply fold_process_csv_other.
    intros c key' k Hin E. apply resolve_fixed in E. congruence.
Qed.
End FolderKeyFacts.

(** C1 (as amended) at the folder p5-foo(ribeyes-gcl)_Statistics holding
    unrelated_0007(microglia-gcl)_Statistics.csv and
    p9-bar_0007(ribeyes-opl)_Detailed.csv: both files are stored in the
    one row of key (p5, /, gcl), and no row has the key (p9, 0007, opl)
    that the second file name spells. *)
Lemma folder_name_fixes_key_witness :
  let d := {| rel_path := [py "p5-foo(ribeyes-gcl)_Statistics"];
              dir_listing :=
                [(py "unrelated_0007(microglia-gcl)_Statistics.csv",
                  Some (5 # 2)%Q);
                 (py "p9-bar_0007(ribeyes-opl)_Detailed.csv",
                  Some (3 # 2)%Q)] |} in
  let key := (py "p5", py "/", py "gcl") in
  process_dir [] d
  = Some [(key, {| mouse_ID := py "p5"; view_id := py "/"; position := py "gcl";
                   Ribeyes := Some (3 # 2)%Q; microglia := Some (5 # 2)%Q;
                   engulfment_index := None |})] /\
  exists summary',
    process_dir [] d = Some summary' /\
    (exists r, lookup key summary' = Some r /\
               mouse_ID r = py "p5" /\ view_id r = py "/" /\
               position r = py "gcl") /\
    (exists r,
        lookup key
               (process_csv (Some key) []
                  (py "unrelated_0007(microglia-gcl)_Statistics.csv",
                   Some (5 # 2)%Q)) = Some r /\
        (Ribeyes r = Some (5 # 2)%Q \/ microglia r = Some (5 # 2)%Q)) /\
    lookup (py "p9", py "0007", py "opl") summary' = None.
Proof.
  intros d key. split; [vm_compute; reflexivity|].
  destruct (folder_name_fixes_key d [] (py "p5") (py "/") (py "gcl")
              (py "ribeyes")
              [(py "p9-bar_0007(ribeyes-opl)_Detailed.csv", Some (3 # 2)%Q);
               (py "unrelated_0007(microglia-gcl)_Statistics.csv",
                Some (5 # 2)%Q)])
    as (summary' & Hrun & Hrow & Hstep & Hother).
  - vm_compute. reflexivity.
  - vm_compute. reflexivity.
  - constructor.
  - exists summary'. split; [exact Hrun|]. split.
    + apply Hrow.
      exists (py "p9-bar_0007(ribeyes-opl)_Detailed.csv", Some (3 # 2)%Q).
      split; [now left|]. left. vm_compute. discriminate.
    + split.
      * apply (Hstep (py "unrelated_0007(microglia-gcl)_Statistics.csv",
                      Some (5 # 2)%Q) []).
        -- right. now left.
        -- right. right. vm_compute. reflexivity.
      * rewrite Hother; [reflexivity | discriminate].
Defined.

(** ** [parse_from_name] and letter case *)

Lemma rep_run_ext {X} cls greedy (s : str) :
  forall lo hi (k1 k2 : str -> option X),
    (forall s', k1 s' = k2 s') ->
    rep_run cls greedy lo hi s k1 = rep_run cls greedy lo hi s k2.
Proof.
  induction s as [|c s IH]; intros lo hi k1 k2 H.
  - rewrite (rep_run_eq cls greedy lo hi [] k1), (rep_run_eq cls greedy lo hi [] k2).
    cbv zeta. now rewrite H.
  - rewrite (rep_run_eq cls greedy lo hi (c :: s) k1),
      (rep_run_eq cls greedy lo hi (c :: s) k2).
    cbv zeta. rewrite H. now rewrite (IH (pred lo) (option_map pred hi) k1 k2 H).
Qed.

Lemma run_ext (r : regex) :
  forall s g k1 k2,
    (forall s' g', k1 s' g' = k2 s' g') -> run r s g k1 = run r s g k2.
Proof.
  induction r as [l | cls lo hi greedy | r1 IH1 r2 IH2 | r1 IH1 r2 IH2
                  | r1 IH1 | name r1 IH1 | ]; intros s g k1 k2 H; simpl.
  - destruct (eat_literal l s); auto.
  - apply rep_run_ext. intros s'. apply H.
  - apply IH1. intros s' g'. now apply IH2.
  - now rewrite (IH1 s g k1 k2 H), (IH2 s g k1 k2 H).
  - now rewrite (IH1 s g k1 k2 H), H.
  - apply IH1. intros s' g'. apply H.
  - destruct s as [|c [|d s]]; auto. destruct (char_eqb c "010"); auto.
Qed.

Lemma or_else_map {X Y} (f : X -> Y) (a : option X) (b : unit -> option X) :
  option_map f (or_else a b) = or_else (option_map f a) (fun u => option_map f (b u)).
Proof. now destruct a. Qed.

Lemma rep_run_map {X Y} (f : X -> Y) cls greedy (s : str) :
  forall lo hi (k : str -> option X),
    rep_run cls greedy lo hi s (fun s' => option_map f (k s'))
    = option_map f (rep_run cls greedy lo hi s k).
Proof.
  induction s as [|c s IH]; intros lo hi k.
  - rewrite (rep_run_eq cls greedy lo hi [] k),
      (rep_run_eq cls greedy lo hi [] (fun s' => option_map f (k s'))).
    cbv zeta. destruct greedy; rewrite or_else_map; simpl;
      now destruct (lo =? 0)%nat.
  - rewrite (rep_run_eq cls greedy lo hi (c :: s) k),
      (rep_run_eq cls greedy lo hi (c :: s) (fun s' => option_map f (k s'))).
    cbv zeta. rewrite IH.
    destruct greedy; rewrite or_else_map;
      destruct (cls c && room hi); destruct (lo =? 0)%nat; reflexivity.
Qed.

Lemma run_map (f : captures -> captures) (r : regex) :
  forall s g k,
    run r s g (fun s' g' => option_map f (k s' g'))
    = option_map f (run r s g k).
Proof.
  induction r as [l | cls lo hi greedy | r1 IH1 r2 IH2 | r1 IH1 r2 IH2
                  | r1 IH1 | name r1 IH1 | ]; intros s g k; simpl.
  - now destruct (eat_literal l s).
  - apply (rep_run_map f).
  - rewrite <- IH1. apply run_ext. intros s' g'. apply IH2.
  - now rewrite or_else_map, IH1, IH2.
  - now rewrite or_else_map, IH1.
  - rewrite <- IH1. now apply run_ext.
  - destruct s as [|c [|d s]]; auto. now destruct (char_eqb c "010").
Qed.

Lemma eat_literal_lower (l s : str) :
  eat_literal l (lower s) = option_map lower (eat_literal l s).
Proof.
  revert s. induction l as [|x l IH]; intros [|y s]; try reflexivity.
  change (lower (y :: s)) with (char_lower y :: lower s). cbn [eat_literal].
  rewrite char_lower_idem.
  destruct (char_eqb (char_lower x) (char_lower y)); [apply IH | reflexivity].
Qed.

Lemma rep_run_lower {X} cls greedy (s : str) :
  (forall c, cls (char_lower c) = cls c) ->
  forall lo hi (k : str -> option X),
    rep_run cls greedy lo hi (lower s) k
    = rep_run cls greedy lo hi s (fun s' => k (lower s')).
Proof.
  intros Hcls. induction s as [|c s IH]; intros lo hi k.
  - change (lower []) with (@nil ascii).
    rewrite (rep_run_eq cls greedy lo hi [] k),
      (rep_run_eq cls greedy lo hi [] (fun s' => k (lower s'))).
    reflexivity.
  - change (lower (c :: s)) with (char_lower c :: lower s).
    rewrite (rep_run_eq cls greedy lo hi (char_lower c :: lower s) k),
      (rep_run_eq cls greedy lo hi (c :: s) (fun s' => k (lower s'))).
    cbv zeta. now rewrite Hcls, IH.
Qed.

Lemma consumed_lower (s s' : str) :
  consumed (lower s) (lower s') = lower (consumed s s').
Proof.
  unfold consumed, lower. now rewrite !length_map, firstn_map.
Qed.

Lemma newline_lower (c : ascii) : char_eqb (char_lower c) "010" = char_eqb c "010".
Proof. each_char c. Qed.

(** Matching the lower-cased text is matching the text, with the groups
    lower-cased. *)
Lemma run_lower (r : regex) :
  classes_ignore_case r ->
  forall s g k,
    run r (lower s) (lower_captures g) k
    = run r s g (fun s' g' => k (lower s') (lower_captures g')).
Proof.
  induction r as [l | cls lo hi greedy | r1 IH1 r2 IH2 | r1 IH1 r2 IH2
                  | r1 IH1 | name r1 IH1 | ]; intros Hr s g k;
    cbn [run classes_ignore_case] in *.
  - rewrite eat_literal_lower. now destruct (eat_literal l s).
  - now apply rep_run_lower.
  - destruct Hr as [H1 H2]. rewrite (IH1 H1). apply run_ext.
    intros s' g'. now apply IH2.
  - destruct Hr as [H1 H2]. now rewrite (IH1 H1), (IH2 H2).
  - now rewrite (IH1 Hr).
  - rewrite (IH1 Hr). apply run_ext. intros s' g'.
    now rewrite consumed_lower.
  - destruct s as [|c [|d s]]; try reflexivity.
    change (lower [c]) with [char_lower c]. cbv iota. now rewrite newline_lower.
Qed.

Lemma NAME_RE_ignores_case : classes_ignore_case NAME_RE.
Proof.
  unfold NAME_RE. cbn [classes_ignore_case].
  repeat split; intros c;
    try apply is_decimal_lower;
    unfold any_but_newline, not_close_paren; each_char c.
Qed.

Lemma re_match_lower (name : str) :
  re_match NAME_RE (lower name)
  = option_map lower_captures (re_match NAME_RE name).
Proof.
  unfold re_match.
  change (run NAME_RE (lower name) (lower_captures []) (fun _ g => Some g)
          = option_map lower_captures (run NAME_RE name [] (fun _ g => Some g))).
  rewrite (run_lower NAME_RE NAME_RE_ignores_case name [] (fun _ g => Some g)).
  apply (run_map lower_captures NAME_RE name [] (fun _ g => Some g)).
Qed.

Lemma group_lower (g : captures) (n : str) :
  group (lower_captures g) n = option_map lower (group g n).
Proof.
  induction g as [|[m v] g IH]; [reflexivity|].
  cbn [lower_captures map group fst snd]. fold (lower_captures g).
  destruct (str_eqb m n); [reflexivity | exact IH].
Qed.

Lemma str_or_lower (x : option str) :
  str_or (option_map lower x) [] = lower (str_or x []).
Proof. now destruct x as [[|c v]|]. Qed.

(** X17: for names of code points U+0000..U+00FF, [parse_from_name] does
    not depend on the letter case of the name. *)
Theorem parse_from_name_ignores_case (name : str) :
  parse_from_name (lower name) = parse_from_name name.
Proof.
  destruct (parse_from_name name) as [[[[mouse view] pos] kind]|] eqn:E.
  - pose proof (parse_from_name_decomposes _ _ _ _ _ E) as D.
    destruct D as (p & digits & filler & viewtok & K & P & tag & csv & nl &
                   _ & _ & _ & _ & _ & _ & Hv & _).
    unfold parse_from_name in *. rewrite re_match_lower.
    destruct (re_match NAME_RE name) as [m|]; [|discriminate].
    cbn [option_map].
    assert (Ev : str_or (group m (py "view")) (py "/") = view)
      by (injection E; auto).
    rewrite <- E. rewrite !group_lower, !str_or_lower, !lower_idem.
    rewrite (normalize_position_ignores_case_and_spaces_aux
               (lower (str_or (group m (py "pos")) []))
               (str_or (group m (py "pos")) []))
      by now rewrite lower_idem.
    assert (Hview : str_or (option_map lower (group m (py "view"))) (py "/")
                    = str_or (group m (py "view")) (py "/")).
    { destruct (group m (py "view")) as [[|c v]|]; cbn [option_map str_or] in *;
        try reflexivity.
      subst view. destruct Hv as [[_ Hv] | (_ & Hv & _)].
      - now rewrite Hv.
      - now rewrite (lower_decimal (c :: v) Hv). }
    now rewrite Hview.
  - unfold parse_from_name in *. rewrite re_match_lower.
    now destruct (re_match NAME_RE name).
Qed.

(** ** [first_float_in_first_column] *)

Section ReaderFacts.
Context {V : Type} (float_of : str -> option V).

Lemma first_float_skip (row : list str) (rest : list (list str)) :
  row_skipped float_of row ->
  first_float_in_first_column float_of (row :: rest)
  = first_float_in_first_column float_of rest.
Proof.
  destruct row as [|cell cells]; [reflexivity|].
  cbn [first_float_in_first_column row_skipped].
  destruct (strip cell) as [|c s]; [reflexivity|].
  intros [H | H]; [discriminate | now rewrite H].
Qed.

Lemma first_float_hit (cell : str) (cells : list str) (rest : list (list str)) v :
  float_of (strip cell) = Some v -> strip cell <> [] ->
  first_float_in_first_column float_of ((cell :: cells) :: rest) = Some v.
Proof.
  intros H Hne. cbn [first_float_in_first_column].
  destruct (strip cell) as [|c s]; [congruence | now rewrite H].
Qed.

Lemma row_skipped_dec (row : list str) :
  row_skipped float_of row \/
  exists cell cells v, row = cell :: cells /\ strip cell <> [] /\
                       float_of (strip cell) = Some v.
Proof.
  destruct row as [|cell cells]; [now left|]. cbn [row_skipped].
  destruct (strip cell) as [|c s] eqn:E; [now left; left|].
  destruct (float_of (c :: s)) as [v|] eqn:F; [|now left; right].
  right. exists cell, cells, v. rewrite E. repeat split; auto. discriminate.
Qed.

(** X18: the reader returns the float in the first cell of the first row
    that has one, whatever the rows before it and the other cells hold;
    it returns nothing exactly when every row is empty or starts with a
    cell that is blank or not a float. *)
Theorem first_float_in_first_column_finds_first (rows : list (list str)) :
  (forall v,
      first_float_in_first_column float_of rows = Some v <->
      exists before cell cells after,
        rows = before ++ (cell :: cells) :: after /\
        Forall (row_skipped float_of) before /\
        strip cell <> [] /\ float_of (strip cell) = Some v) /\
  (first_float_in_first_column float_of rows = None <->
   Forall (row_skipped float_of) rows).
Proof.
  induction rows as [|row rows [IHs IHn]].
  - split.
    + intros v. split; [discriminate|].
      intros (before & cell & cells & after & E & _). now destruct before.
    + split; [constructor | reflexivity].
  - destruct (row_skipped_dec row) as [Hskip | (cell & cells & w & -> & Hne & Hw)].
    + rewrite (first_float_skip row rows Hskip). split.
      * intros v. rewrite IHs. split.
        -- intros (before & cell & cells & after & -> & Hb & Hc).
           exists (row :: before), cell, cells, after. repeat split; auto; tauto.
        -- intros (before & cell & cells & after & E & Hb & Hne & Hc).
           destruct before as [|b before]; simpl in E.
           ++ injection E as -> _. cbn [row_skipped] in Hskip.
              destruct Hskip as [Hs | Hs]; congruence.
           ++ injection E as -> ->. inversion Hb; subst.
              exists before, cell, cells, after. auto.
      * rewrite IHn. split; [now constructor | now inversion 1].
    + rewrite (first_float_hit cell cells rows w Hw Hne). split.
      * intros v. split.
        -- intros [= <-]. exists [], cell, cells, rows. repeat split; auto.
        -- intros (before & c' & cs' & after & E & Hb & Hne' & Hc).
           destruct before as [|b before]; simpl in E.
           ++ injection E as -> _ _. congruence.
           ++ injection E as <- _. inversion Hb as [|? ? Hs _]; subst.
              cbn [row_skipped] in Hs. destruct Hs as [Hs | Hs]; congruence.
      * split; [discriminate|]. inversion 1 as [|? ? Hs _]; subst.
        cbn [row_skipped] in Hs. destruct Hs as [Hs | Hs]; congruence.
Qed.
End ReaderFacts.

(** ** More on the summary table *)

Section SummaryFacts.
Context {V : Type}.
Implicit Types (summary : summary_table V) (key : row_key)
         (ws : list (row_key * str * option V)).

Lemma has_key_keys key summary :
  has_key key summary = existsb (key_eqb key) (map fst summary).
Proof.
  unfold has_key. induction summary as [|[k r] summary IH]; [reflexivity|].
  cbn [lookup map existsb fst].
  assert (E : key_eqb k key = key_eqb key k).
  { destruct (key_eqb k key) eqn:E1, (key_eqb key k) eqn:E2; auto.
    - apply key_eqb_eq in E1. subst. now rewrite key_eqb_refl in E2.
    - apply key_eqb_eq in E2. subst. now rewrite key_eqb_refl in E1. }
  rewrite <- E. destruct (key_eqb k key); [reflexivity | exact IH].
Qed.

Lemma store_keys key kind val summary :
  map fst (store key kind val summary)
  = if has_key key summary then map fst summary else map fst summary ++ [key].
Proof.
  rewrite store_eq, modify_keys.
  destruct (has_key key summary); [reflexivity|]. now rewrite map_app.
Qed.

Lemma fold_writes_keys ws :
  forall summary,
    map fst (fold_left apply_write ws summary)
    = map fst summary
      ++ first_occurrences_from (map fst summary) (map (fun w => fst (fst w)) ws).
Proof.
  induction ws as [|[[k kind] val] ws IH]; intros summary.
  - simpl. now rewrite app_nil_r.
  - cbn [fold_left apply_write map fst first_occurrences_from].
    rewrite IH, store_keys, <- has_key_keys.
    destruct (has_key k summary); [reflexivity|]. now rewrite <- app_assoc.
Qed.

(** X19: the rows of the table stand in the order in which their keys first
    occur among the files that are stored, one row per key. *)
Theorem rows_in_first_occurrence_order sep (input_dir : fs_tree V) ws :
  writes_of_run sep input_dir = Some ws ->
  exists table,
    build_summary sep input_dir = Some table /\
    map fst table = first_occurrences (map (fun w => fst (fst w)) ws).
Proof.
  intros H. rewrite build_summary_writes, H. cbn [option_map].
  eexists. split; [reflexivity|]. now rewrite fold_writes_keys.
Qed.

Lemma engulfment_store key kind val summary :
  Forall (fun e => engulfment_index (snd e) = None) summary ->
  Forall (fun e => engulfment_index (snd e) = None) (store key kind val summary).
Proof.
  intros H. rewrite store_eq.
  assert (Hm : forall s : summary_table V,
             Forall (fun e => engulfment_index (snd e) = None) s ->
             Forall (fun e => engulfment_index (snd e) = None)
                    (modify key (write_row kind val) s)).
  { induction s as [|[k r] s IH]; intros Hs; [constructor|].
    inversion Hs as [|? ? Hr Hrest]; subst. cbn [modify].
    destruct (key_eqb k key).
    - constructor; [|assumption]. cbn [snd] in *. unfold write_row.
      destruct (str_eqb kind (py "ribeyes")); [exact Hr|].
      destruct (str_eqb kind (py "microglia")); exact Hr.
    - constructor; auto. }
  apply Hm. destruct (has_key key summary); [assumption|].
  apply Forall_app. split; [assumption|].
  constructor; [|constructor]. now destruct key as [[m v] p].
Qed.

(** X20: the engulfment index of every row of every table the aggregation
    passes through is empty: the code never computes it. *)
Theorem engulfment_index_never_set summary :
  reachable summary \/
  (exists sep (input_dir : fs_tree V),
      build_summary sep input_dir = Some summary) ->
  forall key r, In (key, r) summary -> engulfment_index r = None.
Proof.
  intros H.
  assert (R : reachable summary).
  { destruct H as [H | (sep & input_dir & H)]; [assumption|].
    eapply build_summary_reachable; eauto. }
  assert (F : Forall (fun e => engulfment_index (snd e) = None) summary).
  { clear H. induction R as [|fixed summary csv _ IH]; [constructor|].
    rewrite process_csv_resolve.
    destruct (resolve fixed (fst csv)) as [[k kind]|]; [|assumption].
    now apply engulfment_store. }
  intros key r Hin. rewrite Forall_forall in F. exact (F (key, r) Hin).
Qed.

Lemma first_occurrences_from_NoDup (keys : list row_key) :
  forall seen,
    NoDup seen -> NoDup (seen ++ first_occurrences_from seen keys).
Proof.
  induction keys as [|k keys IH]; intros seen Hs; cbn [first_occurrences_from].
  - now rewrite app_nil_r.
  - destruct (existsb (key_eqb k) seen) eqn:E; [now apply IH|].
    change (k :: first_occurrences_from (seen ++ [k]) keys)
      with ([k] ++ first_occurrences_from (seen ++ [k]) keys).
    rewrite app_assoc. apply IH.
    apply NoDup_app; [assumption | repeat constructor; auto | ].
    intros x Hx [Hk | []]. subst x.
    assert (Hex : existsb (key_eqb k) seen = true).
    { apply existsb_exists. exists k. split; [assumption | apply key_eqb_refl]. }
    congruence.
Qed.

Lemma reachable_as_writes summary :
  reachable summary -> exists ws, summary = fold_left apply_write ws [].
Proof.
  induction 1 as [|fixed summary csv _ (ws & ->)]; [now exists []|].
  rewrite process_csv_resolve.
  destruct (resolve fixed (fst csv)) as [[k kind]|].
  - exists (ws ++ [(k, kind, snd csv)]). now rewrite fold_left_app.
  - now exists ws.
Qed.

(** X21: no two rows of a table share subject, view and position: the
    identity fields that are written to the spreadsheet are pairwise
    distinct. *)
Theorem rows_have_distinct_identity summary :
  reachable summary \/
  (exists sep (input_dir : fs_tree V),
      build_summary sep input_dir = Some summary) ->
  NoDup (map (fun e => identity (snd e)) summary).
Proof.
  intros H.
  assert (R : reachable summary).
  { destruct H as [H | (sep & input_dir & H)]; [assumption|].
    eapply build_summary_reachable; eauto. }
  assert (E : map (fun e => identity (snd e)) summary = map fst summary).
  { pose proof (reachable_coherent summary R) as C. unfold coherent in C.
    apply map_ext_in. intros e He. rewrite Forall_forall in C.
    symmetry. exact (C e He). }
  rewrite E. destruct (reachable_as_writes summary R) as (ws & ->).
  rewrite fold_writes_keys. apply (first_occurrences_from_NoDup _ []).
  constructor.
Qed.

Lemma last_app_one {X} (l : list X) (x d : X) : last (l ++ [x]) d = x.
Proof.
  induction l as [|y l IH]; [reflexivity|].
  simpl. destruct (l ++ [x]) eqn:E; [now destruct l | exact IH].
Qed.

Lemma values_written_app key kind ws1 ws2 :
  values_written key kind (ws1 ++ ws2)
  = values_written key kind ws1 ++ values_written key kind ws2.
Proof. unfold values_written. now rewrite filter_app, map_app. Qed.

(** The fields of the record of [key] after the writes [ws]. *)
Lemma lookup_after_writes key ws :
  match lookup key (fold_left apply_write ws ([] : summary_table V)) with
  | None => forall w, In w ws -> key_eqb (fst (fst w)) key = false
  | Some r =>
      Ribeyes r = last (values_written key (py "ribeyes") ws) None /\
      microglia r = last (values_written key (py "microglia") ws) None
  end.
Proof.
  induction ws as [|[[k kind] val] ws IH] using rev_ind.
  - simpl. intros w [].
  - rewrite fold_left_app.
    match goal with
    | |- context [fold_left apply_write [_] ?t] => set (T := t) in *
    end.
    change (match lookup key T with
            | None => forall w, In w ws -> key_eqb (fst (fst w)) key = false
            | Some r =>
                Ribeyes r = last (values_written key (py "ribeyes") ws) None /\
                microglia r = last (values_written key (py "microglia") ws) None
            end) in IH.
    clearbody T. cbn [fold_left apply_write].
    rewrite lookup_store, !values_written_app.
    assert (Hlast : forall kd,
               values_written key kd [(k, kind, val)]
               = if key_eqb k key && str_eqb kind kd then [val] else []).
    { intros kd. unfold values_written. cbn [filter fst snd].
      now destruct (key_eqb k key && str_eqb kind kd). }
    rewrite !Hlast. destruct (key_eqb k key) eqn:Ek; cbn [andb].
    + unfold write_row. destruct (lookup key T) as [r|] eqn:L.
      * destruct IH as [IHr IHm].
        destruct (str_eqb kind (py "ribeyes")) eqn:Er.
        -- apply str_eqb_eq in Er. subst kind.
           rewrite last_app_one. cbn [str_eqb py list_ascii_of_string char_eqb].
           simpl. rewrite app_nil_r. auto.
        -- destruct (str_eqb kind (py "microglia")) eqn:Em.
           ++ rewrite last_app_one, app_nil_r. simpl. auto.
           ++ rewrite !app_nil_r. auto.
      * assert (Hnone : forall kd, values_written key kd ws = []).
        { intros kd. unfold values_written.
          replace (filter _ ws) with (@nil (row_key * str * option V));
            [reflexivity|].
          symmetry. clear Hlast. induction ws as [|w ws' IHws]; [reflexivity|].
          cbn [filter]. rewrite (IH w) by (simpl; auto). cbn [andb].
          apply IHws. intros w' Hw'. apply IH. simpl. auto. }
        rewrite !Hnone. destruct key as [[m v] p]. unfold new_row.
        destruct (str_eqb kind (py "ribeyes")) eqn:Er.
        -- apply str_eqb_eq in Er. subst kind. simpl. auto.
        -- destruct (str_eqb kind (py "microglia")); simpl; auto.
    + rewrite !app_nil_r.
      destruct (lookup key T) as [r|]; [exact IH|].
      intros w Hw. apply in_app_or in Hw. destruct Hw as [Hw | [<- | []]]; auto.
Qed.

(** X22: last write wins: each marker field of a row holds the value read
    from the last file stored under the row's key with that kind --
    empty when that file had no float -- and is empty when no file of
    that kind was stored under the key. *)
Theorem last_write_wins sep (input_dir : fs_tree V) ws table key r :
  writes_of_run sep input_dir = Some ws ->
  build_summary sep input_dir = Some table ->
  lookup key table = Some r ->
  Ribeyes r = last (values_written key (py "ribeyes") ws) None /\
  microglia r = last (values_written key (py "microglia") ws) None.
Proof.
  intros Hws Ht L. rewrite build_summary_writes, Hws in Ht.
  injection Ht as <-. pose proof (lookup_after_writes key ws) as H.
  now rewrite L in H.
Qed.

(** X23: a row exists for a key exactly when some file was stored under it. *)
Theorem row_exists_iff_file_stored sep (input_dir : fs_tree V) ws table key :
  writes_of_run sep input_dir = Some ws ->
  build_summary sep input_dir = Some table ->
  (lookup key table <> None <-> exists w, In w ws /\ fst (fst w) = key).
Proof.
  intros Hws Ht. rewrite build_summary_writes, Hws in Ht. injection Ht as <-.
  rewrite lookup_fold_writes. cbn [lookup]. split.
  - intros H. destruct (filter (writes_to key) ws) as [|w l] eqn:E;
      [now contradiction H|].
    assert (Hin : In w (filter (writes_to key) ws)) by (rewrite E; now left).
    apply filter_In in Hin. destruct Hin as [Hin Hk].
    exists w. split; [assumption | now apply key_eqb_eq].
  - intros (w & Hin & Hk).
    assert (Hf : In w (filter (writes_to key) ws)).
    { apply filter_In. split; [assumption|]. unfold writes_to.
      rewrite Hk. apply key_eqb_refl. }
    destruct (filter (writes_to key) ws) as [|w0 l]; [destruct Hf|].
    cbn [fold_left]. clear.
    generalize (write_row (snd (fst w0)) (snd w0) (new_row key)).
    induction l as [|x l IH]; intros r0; cbn [fold_left];
      [discriminate | apply IH].
Qed.
End SummaryFacts.

Lemma merge_tree_run :
  writes_of_run "/" merge_tree = Some merge_writes /\
  build_summary "/" merge_tree = Some merge_table.
Proof. split; vm_compute; reflexivity. Qed.

(** X19 at a run over two folders whose four files are stored under two
    keys. *)
Lemma rows_in_first_occurrence_order_witness :
  exists table,
    build_summary "/" merge_tree = Some table /\
    map fst table = [(py "p1", py "/", py "opl"); (py "p2", py "/", py "ipl")].
Proof.
  apply (rows_in_first_occurrence_order "/" merge_tree merge_writes).
  apply merge_tree_run.
Defined.

(** X20 at the table of the same run. *)
Lemma engulfment_index_never_set_witness :
  build_summary "/" merge_tree = Some merge_table /\
  Forall (fun e => engulfment_index (snd e) = None) merge_table.
Proof.
  split; [apply merge_tree_run|].
  apply Forall_forall. intros [key r] Hin.
  apply (engulfment_index_never_set merge_table) with (key := key).
  - right. exists "/"%char, merge_tree. apply merge_tree_run.
  - exact Hin.
Defined.

(** X21 at the table of the same run. *)
Lemma rows_have_distinct_identity_witness :
  NoDup [(py "p1", py "/", py "opl"); (py "p2", py "/", py "ipl")].
Proof.
  apply (rows_have_distinct_identity merge_table). right.
  exists "/"%char, merge_tree. apply merge_tree_run.
Defined.

(** X22 at the key (p1, /, opl) of the same run, stored twice as ribeyes
    and once, without a float, as microglia. *)
Lemma last_write_wins_witness :
  Some (2 # 1)%Q
  = last (values_written (py "p1", py "/", py "opl") (py "ribeyes") merge_writes)
         None /\
  None
  = last (values_written (py "p1", py "/", py "opl") (py "microglia") merge_writes)
         None.
Proof.
  apply (last_write_wins
           "/" merge_tree merge_writes merge_table (py "p1", py "/", py "opl")
           {| mouse_ID := py "p1"; view_id := py "/"; position := py "opl";
              Ribeyes := Some (2 # 1)%Q; microglia := None;
              engulfment_index := None |}).
  - apply merge_tree_run.
  - apply merge_tree_run.
  - reflexivity.
Defined.

(** X23 at the key (p2, /, ipl) of the same run. *)
Lemma row_exists_iff_file_stored_witness :
  lookup (py "p2", py "/", py "ipl") merge_table <> None <->
  exists w, In w merge_writes /\ fst (fst w) = (py "p2", py "/", py "ipl").
Proof.
  apply (row_exists_iff_file_stored "/" merge_tree merge_writes merge_table).
  - apply merge_tree_run.
  - apply merge_tree_run.
Defined.

(** ** The pieces of a name *)

(** X24: splitting a name at its runs of digits drops nothing: the pieces,
    put together, are the name; they alternate between digit-free text
    and non-empty runs of decimal digits, and the first and the last
    piece are text. *)
Theorem re_split_digits_covers_name (text : str) :
  List.concat (re_split_digits text) = text /\
  split_shape true (re_split_digits text) = true.
Proof.
  split; [apply re_split_digits_concat | apply re_split_digits_shape].
Qed.

(** ** Where the aggregation raises *)

Lemma process_dirs_none {V} (dirs : list (found_dir V)) :
  forall summary,
    process_dirs summary dirs = None <->
    exists fd, In fd dirs /\ list_csv_in_dir fd = None.
Proof.
  induction dirs as [|d dirs IH]; intros summary.
  - split; [discriminate | intros (fd & [] & _)].
  - cbn [process_dirs]. unfold process_dir.
    destruct (list_csv_in_dir d) as [csvs|] eqn:E.
    + assert (Hstep : forall summary',
                 process_dirs summary' dirs = None <->
                 exists fd, In fd (d :: dirs) /\ list_csv_in_dir fd = None).
      { intros summary'. rewrite IH. split.
        - intros (fd & Hin & Hn). exists fd. simpl. auto.
        - intros (fd & [<- | Hin] & Hn); [congruence|]. exists fd. auto. }
      destruct csvs; apply Hstep.
    + split; [|reflexivity]. intros _. exists d. simpl. auto.
Qed.

(** X25: [build_summary] raises, and so returns no table at all, as soon
    as the walk reaches one directory whose relative path has no natural
    key, or one that lists a file with no natural key among those it
    selects (a name ending in .csv, in any letter case, that does not
    start with ~$) -- wherever in the tree the directory lies and
    whatever the other directories hold. *)
Theorem build_summary_raises_on_keyless_name {V} sep name listing
        (subdirs : list (fs_tree V)) (fd : found_dir V) :
  (exists d, In d subdirs /\ startswith (py ".") (dir_name V d) = false /\
             descends d (rel_path fd) (dir_listing fd)) ->
  (natural_key (relpath sep fd) = None \/
   exists f, In f (dir_listing fd) /\
             startswith (py "~$") (fst f) = false /\
             endswith (py ".csv") (lower (fst f)) = true /\
             natural_key (fst f) = None) ->
  build_summary sep (FsDir name listing subdirs) = None.
Proof.
  intros Hv Hbad. unfold build_summary.
  destruct (list_all_dirs sep (FsDir name listing subdirs)) as [dirs|] eqn:E;
    [|reflexivity].
  destruct Hbad as [Hn | (f & Hin & H1 & H2 & Hn)].
  - exfalso. unfold list_all_dirs in E.
    apply (sort_natural_some_defined (relpath sep) _ dirs E fd); [|exact Hn].
    destruct Hv as (d & Hd & Hdot & Hp). apply in_flat_map.
    exists d. split; [assumption|]. rewrite Hdot.
    apply In_walk. exists (rel_path fd). auto.
  - apply process_dirs_none. exists fd. split.
    + now apply (In_list_all_dirs sep name listing subdirs dirs fd E).
    + unfold list_csv_in_dir. apply sort_natural_none. exists f.
      split; [|assumption]. apply filter_In. split; [assumption|].
      now rewrite H1, H2.
Qed.

(** X25 at an input directory with a unit p1-a(ribeyes-opl)_Statistics
    that holds one good file, and a folder scans whose file is named
    U+00B2, 1.csv: the run raises. *)
Lemma build_summary_raises_on_keyless_name_witness :
  build_summary "/"
    (FsDir (py "InputFolder") []
       [FsDir (py "p1-a(ribeyes-opl)_Statistics")
              [(py "p1-a(ribeyes-opl)_Statistics.csv", Some (1 # 1)%Q)] [];
        FsDir (py "scans") [(superscript_two_name ++ py "1.csv", None)] []])
  = None.
Proof.
  apply (build_summary_raises_on_keyless_name "/" (py "InputFolder") [] _
           {| rel_path := [py "scans"];
              dir_listing := [(superscript_two_name ++ py "1.csv", None)] |}).
  - exists (FsDir (py "scans") [(superscript_two_name ++ py "1.csv", None)] []).
    split; [right; left; reflexivity|]. split; [reflexivity|].
    apply descends_here.
  - right. exists (superscript_two_name ++ py "1.csv", None).
    repeat split; try reflexivity. now left.
Defined.

(** X26: a second pass of [normalize_position] can change the result
    when the tag holds whitespace other than the space character: the
    tag '+', tab, '+a' normalises to tab, '+a', which normalises to 'a'. *)
Theorem normalize_position_second_pass_differs :
  normalize_position (Some ["+"; "009"; "+"; "a"]%char) = ["009"; "+"; "a"]%char /\
  normalize_position (Some ["009"; "+"; "a"]%char) = py "a".
Proof.
  split; reflexivity.
Qed.
